(** * Graph Style Customizer: hop distances, rule matching and style resolution

    A shallow embedding of [src/neighborFinder.ts] (class [NeighborFinder])
    and of the style computation of [src/graphStyler.ts] (class
    [GraphStyler]), with the properties of the specification stated and
    proved over it.

    Conventions of the embedding:
    - node identifiers are [string]s;
    - a JavaScript [Map<string, V>] that is only read with [has]/[get] is
      a [gmap string V]; a [Set<string>] that is iterated ([forEach]) is a
      duplicate-free list in insertion order, a [Set<string>] that is only
      tested with [has] is a [gset string];
    - hop counts and hop levels are [Z]; opacities, size and width
      multipliers are rationals [Q]; a tint is a [JS.number], the value
      [parseInt] gives ([NaN], an integer-valued double, [-0] or an
      infinity); [undefined] is [None];
    - a [while] loop is a fuel-indexed [Fixpoint] that returns [None] when
      the fuel runs out; the functions that call it supply a fuel computed
      from the graph and are proved never to run out. *)

From Stdlib Require Import Ascii QArith Qminmax.
From stdpp Require Import gmap strings list fin_maps relations.

(* stdpp's [naive_solver] clears hypotheses that may be gone already. *)
Set Warnings "-clear-no-such-hyp".

Open Scope Z_scope.

(* ===================================================================== *)
(** ** JavaScript primitives used by the sources *)
(* ===================================================================== *)

Module JS.

(** A string stands for the JavaScript string of which it is the UTF-8
    encoding (what a string literal of this file denotes); prefixes,
    suffixes and equality of strings are the same on both sides.  The
    code never takes a string apart inside a character: [slice(1)] is
    only used behind a leading [#]. *)

(** [s.startsWith(p)] *)
Definition startsWith (s p : string) : bool := String.prefix p s.

(** [s.endsWith(p)] *)
Definition endsWith (s p : string) : bool :=
  let n := String.length s in
  let k := String.length p in
  (k <=? n)%nat && String.eqb (String.substring (n - k) k s) p.

(** [s.includes(c)] for a one-character needle *)
Fixpoint includesChar (c : ascii) (s : string) : bool :=
  match s with
  | EmptyString => false
  | String a rest => Ascii.eqb a c || includesChar c rest
  end.

(** [s.slice(1)] *)
Definition slice1 (s : string) : string :=
  match s with
  | EmptyString => EmptyString
  | String _ rest => rest
  end.

(** Truthiness of a string value: [undefined] and [''] are falsy. *)
Definition truthyStr (o : option string) : bool :=
  match o with
  | Some s => negb (String.eqb s "")
  | None => false
  end.

(** [a || b] on possibly-undefined strings. *)
Definition orStr (a b : option string) : option string :=
  if truthyStr a then a else b.

(** Truthiness of a number: [undefined] and [0] are falsy. *)
Definition truthyNum (o : option Q) : bool :=
  match o with
  | Some q => negb (Qeq_bool q 0)
  | None => false
  end.

(** [a || b] where [b] is a defined number. *)
Definition orNum (a : option Q) (b : Q) : Q :=
  match a with
  | Some q => if Qeq_bool q 0 then b else q
  | None => b
  end.

(** [a ?? b] *)
Definition nullish {A} (a : option A) (b : A) : A := default b a.

(** The values [parseInt] returns: [NaN], an integer-valued double
    ([Num 0] is [+0]), [-0] and the two infinities. *)
Inductive number :=
| NaN
| Num (z : Z)
| NegZero
| Infinity
| NegInfinity.

(** Value of a character as a digit in radix 16. *)
Definition hexDigit (c : ascii) : option Z :=
  let n := Z.of_nat (nat_of_ascii c) in
  if (48 <=? n) && (n <=? 57) then Some (n - 48)
  else if (97 <=? n) && (n <=? 102) then Some (n - 87)
  else if (65 <=? n) && (n <=? 70) then Some (n - 55)
  else None.

(** The white space [parseInt] skips at the start ([StrWhiteSpaceChar]:
    [WhiteSpace] and [LineTerminator]), by the length of its encoding:
    one byte for U+0009..U+000D and U+0020, *)
Definition isSpace (c : ascii) : bool :=
  let n := nat_of_ascii c in
  ((9 <=? n)%nat && (n <=? 13)%nat) || (n =? 32)%nat.

(** two bytes for U+00A0, *)
Definition isSpace2 (c1 c2 : ascii) : bool :=
  (N_of_ascii c1 =? 194)%N && (N_of_ascii c2 =? 160)%N.

(** three bytes for U+1680, U+2000..U+200A, U+2028, U+2029, U+202F,
    U+205F, U+3000 and U+FEFF. *)
Definition isSpace3 (c1 c2 c3 : ascii) : bool :=
  let n1 := N_of_ascii c1 in
  let n2 := N_of_ascii c2 in
  let n3 := N_of_ascii c3 in
  ((n1 =? 225) && (n2 =? 154) && (n3 =? 128)
   || (n1 =? 226) && (n2 =? 128)
      && ((128 <=? n3) && (n3 <=? 138) || (n3 =? 168) || (n3 =? 169) || (n3 =? 175))
   || (n1 =? 226) && (n2 =? 129) && (n3 =? 159)
   || (n1 =? 227) && (n2 =? 128) && (n3 =? 128)
   || (n1 =? 239) && (n2 =? 187) && (n3 =? 191))%N.

(** The string without the white space at its start. *)
Fixpoint trimStart (s : string) : string :=
  match s with
  | String c1 rest1 =>
      if isSpace c1 then trimStart rest1
      else
        match rest1 with
        | String c2 rest2 =>
            if isSpace2 c1 c2 then trimStart rest2
            else
              match rest2 with
              | String c3 rest3 => if isSpace3 c1 c2 c3 then trimStart rest3 else s
              | EmptyString => s
              end
        | EmptyString => s
        end
  | EmptyString => EmptyString
  end.

(** Longest prefix of hexadecimal digits, accumulated most significant
    digit first; [None] when there is no digit at all. *)
Fixpoint hexDigits (acc : option Z) (s : string) : option Z :=
  match s with
  | String c rest =>
      match hexDigit c with
      | Some d => hexDigits (Some (16 * default 0 acc + d)) rest
      | None => acc
      end
  | EmptyString => acc
  end.

(** A leading [0x] or [0X] is skipped when the radix is 16. *)
Definition stripHexPrefix (s : string) : string :=
  match s with
  | String "0" (String "x" rest) => rest
  | String "0" (String "X" rest) => rest
  | _ => s
  end.

(** The double nearest to a non-negative integer, ties to the even
    significand, with the exponent unbounded: below [2^53] the integer
    itself, from there on a multiple of the unit [2^e] in the last of 53
    binary places. *)
Definition roundToDouble (mathInt : Z) : Z :=
  if mathInt <? 2 ^ 53 then mathInt
  else
    let e := Z.log2 mathInt - 52 in
    let q := mathInt / 2 ^ e in
    let r := mathInt mod 2 ^ e in
    let half := 2 ^ (e - 1) in
    if (half <? r) || ((r =? half) && Z.odd q) then (q + 1) * 2 ^ e else q * 2 ^ e.

(** The Number value of [sign * mathInt]: [-0] for a negative zero,
    an infinity from [2^1024] on. *)
Definition toNumber (negative : bool) (mathInt : Z) : number :=
  if mathInt =? 0 then (if negative then NegZero else Num 0)
  else
    let v := roundToDouble mathInt in
    if v <? 2 ^ 1024 then Num (if negative then - v else v)
    else if negative then NegInfinity else Infinity.

(** An optional sign: whether it is [-], and what follows it. *)
Definition splitSign (t : string) : bool * string :=
  match t with
  | String "-" rest => (true, rest)
  | String "+" rest => (false, rest)
  | _ => (false, t)
  end.

(** [parseInt(s, 16)]: leading white space, an optional sign, an
    optional [0x], then the longest run of hexadecimal digits; [NaN]
    when that run is empty, and otherwise the Number value of the signed
    numeral. *)
Definition parseInt16 (s : string) : number :=
  let '(negative, body) := splitSign (trimStart s) in
  match hexDigits None (stripHexPrefix body) with
  | Some mathInt => toNumber negative mathInt
  | None => NaN
  end.

End JS.

(* ===================================================================== *)
(** ** neighborFinder.ts *)
(* ===================================================================== *)

Module NeighborFinder.

(** [private adjacencyList: Map<string, Set<string>>]; the neighbour
    sets are iterated by the searches, so they keep insertion order. *)
Abbreviation adjacency := (gmap string (list string)).

(** [Set.prototype.add] on an insertion-ordered set. *)
Definition setAdd (x : string) (s : list string) : list string :=
  if decide (x ∈ s) then s else s ++ [x].

(** [adjacencyList.has(id)] *)
Definition has (adj : adjacency) (id : string) : bool :=
  bool_decide (is_Some (adj !! id)).

(** An element of a [forward]/[reverse] collection: a raw identifier
    string, or any other value, of which only a truthy [id] field is
    read ([TObject None] stands for objects without one and for [null],
    numbers and the like). *)
Inductive linkTarget :=
| TString (s : string)
| TObject (id : option string).

(** The value of [node.forward] / [node.reverse]. *)
Inductive linkData :=
| LAbsent                                  (* falsy, or a primitive *)
| LSet (elems : list linkTarget)           (* forEach(value, value) *)
| LArray (elems : list linkTarget)         (* forEach(value, index) *)
| LMap (entries : list (linkTarget * linkTarget)) (* (key, value) *)
| LObject (keys : list string).            (* plain object *)

(** A node descriptor of the host; [None] is a [null]/[undefined] node. *)
Record nodeDesc := {
  id : option string;
  forward : linkData;
  reverse : linkData
}.

(** The three container shapes [buildFromNodes] accepts. *)
Inductive nodeCollection :=
| NodesMap (entries : list (string * option nodeDesc))
| NodesArray (items : list (option nodeDesc))
| NodesRecord (entries : list (string * option nodeDesc)).

(** The body of the [forEach] callback of [getLinks]:
    [(target, key) => ...], with [key] given when it is a string. *)
Definition linkOf (target : linkTarget) (key : option string) : list string :=
  let byTarget :=
    match target with
    | TString s => [s]
    | TObject i => if JS.truthyStr i then [default "" i] else []
    end in
  match key with
  | Some k => if JS.includesChar "/" k then [k] else byTarget
  | None => byTarget
  end.

Definition stringKey (t : linkTarget) : option string :=
  match t with
  | TString s => Some s
  | TObject _ => None
  end.

(** [getLinks(node, direction)] applied to [node[direction]]. *)
Definition getLinks (linkData : linkData) : list string :=
  match linkData with
  | LAbsent => []
  | LSet elems => elems ≫= (λ t, linkOf t (stringKey t))
  | LArray elems => elems ≫= (λ t, linkOf t None)
  | LMap entries => entries ≫= (λ kv, linkOf kv.2 (stringKey kv.1))
  | LObject keys => keys
  end.

(** [if (!this.adjacencyList.has(id)) this.adjacencyList.set(id, new Set())] *)
Definition ensureKey (id : string) (adj : adjacency) : adjacency :=
  if has adj id then adj else <[id := []]> adj.

(** [addEdge(from, to)] *)
Definition addEdge (from to : string) (adj : adjacency) : adjacency :=
  let adj1 := ensureKey from adj in
  let adj2 := ensureKey to adj1 in
  let adj3 := alter (setAdd to) from adj2 in
  alter (setAdd from) to adj3.

(** The normalisation of the node collection into [nodeEntries]. *)
Definition nodeEntries (nodes : nodeCollection) : list (string * option nodeDesc) :=
  match nodes with
  | NodesMap entries => entries
  | NodesArray items =>
      items ≫= (λ node,
        match node with
        | Some d => if JS.truthyStr (id d) then [(default "" (id d), node)] else []
        | None => []
        end)
  | NodesRecord entries => entries
  end.

(** First pass of [buildFromNodes]: every id becomes a key. *)
Definition initNode (adj : adjacency) (e : string * option nodeDesc) : adjacency :=
  ensureKey e.1 adj.

(** Second pass: the edges of one node, forward then reverse. *)
Definition linkNode (adj : adjacency) (e : string * option nodeDesc) : adjacency :=
  match e.2 with
  | None => adj
  | Some node =>
      let adj1 :=
        foldl (λ a targetId, addEdge e.1 targetId a) adj (getLinks (forward node)) in
      foldl (λ a sourceId, addEdge sourceId e.1 a) adj1 (getLinks (reverse node))
  end.

(** [buildFromNodes(nodes)]; the map is cleared first, so the result
    does not depend on the previous adjacency list. *)
Definition buildFromNodes (nodes : nodeCollection) : adjacency :=
  let entries := nodeEntries nodes in
  foldl linkNode (foldl initNode ∅ entries) entries.

(** [this.adjacencyList.get(currentId) || new Set()] *)
Definition neighborsOf (adj : adjacency) (id : string) : list string :=
  default [] (adj !! id).

(** Every identifier that occurs in the adjacency list, as a key or
    inside a neighbour set: the searches never leave this set, which
    bounds the number of iterations of their loops. *)
Definition nodeUniverse (adj : adjacency) : gset string :=
  dom adj ∪ ⋃ ((λ kv, list_to_set kv.2) <$> map_to_list adj).

(** The callback both searches pass to [neighbors.forEach], on the
    pair of [visited] and [queue]:
    [if (!visited.has(neighborId)) { visited.add(neighborId); queue.push(entry) }]. *)
Definition visitNeighbor {A} (entry : string → A) (acc : gset string * list A)
    (neighborId : string) : gset string * list A :=
  if decide (neighborId ∈ acc.1) then acc
  else ({[neighborId]} ∪ acc.1, acc.2 ++ [entry neighborId]).

(** *** findNeighborsByHop *)

Record hopState := {
  hs_visited : gset string;
  hs_queue : list (string * Z);
  hs_result : gmap Z (gset string)
}.

(** The callback of [neighbors.forEach] in [findNeighborsByHop]:
    the queue entry of a neighbour is [[neighborId, distance + 1]]. *)
Definition hopVisit (distance : Z) (acc : gset string * list (string * Z))
    (neighborId : string) : gset string * list (string * Z) :=
  visitNeighbor (λ n, (n, distance + 1)) acc neighborId.

(** One iteration of the [while] loop, for the dequeued entry. *)
Definition hopStep (adj : adjacency) (maxHops : Z)
    (currentId : string) (distance : Z)
    (visited : gset string) (queue : list (string * Z))
    (result : gmap Z (gset string)) : hopState :=
  let result' :=
    if (0 <? distance) && (distance <=? maxHops)
    then alter (λ s, {[currentId]} ∪ s) distance result
    else result in
  let vq :=
    if distance <? maxHops
    then foldl (hopVisit distance) (visited, queue) (neighborsOf adj currentId)
    else (visited, queue) in
  {| hs_visited := vq.1; hs_queue := vq.2; hs_result := result' |}.

(** [while (queue.length > 0) { ... }] *)
Fixpoint hopLoop (fuel : nat) (adj : adjacency) (maxHops : Z) (st : hopState)
    : option (gmap Z (gset string)) :=
  match hs_queue st with
  | [] => Some (hs_result st)
  | (currentId, distance) :: rest =>
      match fuel with
      | O => None
      | S fuel' =>
          hopLoop fuel' adj maxHops
            (hopStep adj maxHops currentId distance
               (hs_visited st) rest (hs_result st))
      end
  end.

(** [for (let hop = 1; hop <= maxHops; hop++) result.set(hop, new Set())] *)
Definition emptyHops (maxHops : Z) : gmap Z (gset string) :=
  foldl (λ r hop, <[hop := ∅]> r) ∅ (seqZ 1 maxHops).

(** [findNeighborsByHop(sourceId, maxHops)] *)
Definition findNeighborsByHop (adj : adjacency) (sourceId : string) (maxHops : Z)
    : option (gmap Z (gset string)) :=
  let result := emptyHops maxHops in
  if negb (has adj sourceId) then Some result
  else
    hopLoop (size (nodeUniverse adj)) adj maxHops
      {| hs_visited := {[sourceId]};
         hs_queue := [(sourceId, 0)];
         hs_result := result |}.

(** [neighborsByHop.get(hop)], with a missing key read as no node. *)
Definition hopSet (r : gmap Z (gset string)) (hop : Z) : gset string :=
  default ∅ (r !! hop).

(** *** getAllConnectedNodes *)

Record connState := {
  cs_visited : gset string;
  cs_queue : list string;
  cs_connected : gset string
}.

(** The callback of [neighbors.forEach] in [getAllConnectedNodes]:
    the queue entry of a neighbour is [neighborId] itself. *)
Definition connVisit (acc : gset string * list string) (neighborId : string)
    : gset string * list string :=
  visitNeighbor (λ n, n) acc neighborId.

Definition connStep (adj : adjacency) (sourceId currentId : string)
    (visited : gset string) (queue : list string) (connected : gset string)
    : connState :=
  let connected' :=
    if decide (currentId = sourceId) then connected
    else {[currentId]} ∪ connected in
  let vq := foldl connVisit (visited, queue) (neighborsOf adj currentId) in
  {| cs_visited := vq.1; cs_queue := vq.2; cs_connected := connected' |}.

Fixpoint connLoop (fuel : nat) (adj : adjacency) (sourceId : string)
    (st : connState) : option (gset string) :=
  match cs_queue st with
  | [] => Some (cs_connected st)
  | currentId :: rest =>
      match fuel with
      | O => None
      | S fuel' =>
          connLoop fuel' adj sourceId
            (connStep adj sourceId currentId (cs_visited st) rest (cs_connected st))
      end
  end.

(** [getAllConnectedNodes(sourceId)] *)
Definition getAllConnectedNodes (adj : adjacency) (sourceId : string)
    : option (gset string) :=
  if negb (has adj sourceId) then Some ∅
  else
    connLoop (size (nodeUniverse adj)) adj sourceId
      {| cs_visited := {[sourceId]};
         cs_queue := [sourceId];
         cs_connected := ∅ |}.

(** *** The remaining queries *)

(** [getDirectNeighbors(sourceId)]: the neighbour set itself, or a new
    empty set. *)
Definition getDirectNeighbors (adj : adjacency) (sourceId : string) : list string :=
  default [] (adj !! sourceId).

(** [hasNodes()] *)
Definition hasNodes (adj : adjacency) : bool := (0 <? size adj)%nat.

(** [getNodeCount()] *)
Definition getNodeCount (adj : adjacency) : nat := size adj.

(** *** Graph-theoretic vocabulary of the specification *)

(** [w] is in the neighbour set of [u]. *)
Definition edge (adj : adjacency) (u w : string) : Prop :=
  ∃ ns, adj !! u = Some ns ∧ w ∈ ns.

(** Symmetry and key-closure of an adjacency structure. *)
Definition symmetric (adj : adjacency) : Prop :=
  ∀ a b, edge adj a b ↔ edge adj b a.

Definition keyClosed (adj : adjacency) : Prop :=
  ∀ a b, edge adj a b → is_Some (adj !! b).

(** [v] is reachable from [s] by some path. *)
Definition reachable (adj : adjacency) (s v : string) : Prop :=
  rtc (edge adj) s v.

(** The unweighted shortest-path distance from [s] to [v] is [h]. *)
Definition distance (adj : adjacency) (s v : string) (h : Z) : Prop :=
  ∃ n : nat, h = Z.of_nat n ∧ nsteps (edge adj) n s v ∧
    ∀ n', nsteps (edge adj) n' s v → (n ≤ n')%nat.

(** The same notions in the undirected graph of the adjacency list,
    where [u] and [w] are joined when either lists the other. *)
Definition undirectedEdge (adj : adjacency) (u w : string) : Prop :=
  edge adj u w ∨ edge adj w u.

Definition undirectedReachable (adj : adjacency) (s v : string) : Prop :=
  rtc (undirectedEdge adj) s v.

Definition undirectedDistance (adj : adjacency) (s v : string) (h : Z) : Prop :=
  ∃ n : nat, h = Z.of_nat n ∧ nsteps (undirectedEdge adj) n s v ∧
    ∀ n', nsteps (undirectedEdge adj) n' s v → (n ≤ n')%nat.

End NeighborFinder.

(* ===================================================================== *)
(** ** types.ts *)
(* ===================================================================== *)

Inductive NodeShape := CIRCLE | SQUARE | DIAMOND | TRIANGLE | HEXAGON.

Inductive EdgeColorMode := INHERIT | BY_HOP | SINGLE.

(** [interface StyleRule]; [type] is kept as the string the [switch] of
    [getStyleFromRules] compares, so a kind other than the three known
    ones can be written down. *)
Module StyleRule.
Record t := {
  id : string;
  type : string;
  pattern : string;
  color : option string;
  shape : option NodeShape;
  size : option Q;
  enabled : bool
}.
End StyleRule.

(** [interface GraphStyleSettings], without presets, scope flags and the
    legacy rule lists, which the style computation never reads. *)
Module Settings.
Record t := {
  enabled : bool;
  maxHops : Z;
  selectedNodeColor : string;
  hopColors : list string;
  disconnectedOpacity : Q;
  defaultNodeShape : NodeShape;
  defaultNodeSize : Q;
  activeNodeSize : Q;
  edgeColorMode : EdgeColorMode;
  edgeColor : string;
  highlightedEdgeColor : string;
  hopEdgeColors : list string;
  activeEdgeWidth : Q;
  defaultEdgeWidth : Q;
  disconnectedEdgeWidth : Q;
  rules : list StyleRule.t
}.
End Settings.

(** [DEFAULT_SETTINGS] *)
Definition DEFAULT_SETTINGS : Settings.t := {|
  Settings.enabled := true;
  Settings.maxHops := 3;
  Settings.selectedNodeColor := "#FF6B6B";
  Settings.hopColors := ["#4ECDC4"; "#45B7D1"; "#96CEB4"; "#FFEAA7"; "#DDA0DD"];
  Settings.disconnectedOpacity := (15 # 100)%Q;
  Settings.defaultNodeShape := CIRCLE;
  Settings.defaultNodeSize := 1%Q;
  Settings.activeNodeSize := (11 # 10)%Q;
  Settings.edgeColorMode := SINGLE;
  Settings.edgeColor := "#888888";
  Settings.highlightedEdgeColor := "#4ECDC4";
  Settings.hopEdgeColors := ["#4ECDC4"; "#45B7D1"; "#96CEB4"; "#FFEAA7"; "#DDA0DD"];
  Settings.activeEdgeWidth := 2%Q;
  Settings.defaultEdgeWidth := 1%Q;
  Settings.disconnectedEdgeWidth := (1 # 2)%Q;
  Settings.rules := []
|}.

(** [interface NodeStyleResult] *)
Module NodeStyleResult.
Record t := {
  tint : JS.number;
  alpha : Q;
  shape : NodeShape;
  size : Q
}.
End NodeStyleResult.

(** The value type of [edgeStyles]: [{ tint, alpha, width }]. *)
Module EdgeStyle.
Record t := {
  tint : JS.number;
  alpha : Q;
  width : Q
}.
End EdgeStyle.

(** The return type of [getStyleFromRules] (when not [null]). *)
Module RuleStyle.
Record t := {
  color : option string;
  shape : option NodeShape;
  size : option Q
}.
End RuleStyle.

(* ===================================================================== *)
(** ** graphStyler.ts *)
(* ===================================================================== *)

Module GraphStyler.

Import NeighborFinder.

(** A value of a file's YAML front matter, which the user writes: a
    string, or something else (a number, a boolean, [null], a mapping,
    a list inside a list), of which the code only meets the truthiness
    and the lack of a [startsWith] method. *)
Inductive yamlValue :=
| YamlString (s : string)
| YamlOther (truthy : bool).

(** What the host's metadata cache holds for a file: the inline tags
    ([cache.tags], each entry's [tag], a string by the host's
    interface) and [cache.frontmatter?.tags], which is an array of
    values or a single value that is no array. *)
Inductive frontmatterTags :=
| FmArray (tags : list yamlValue)
| FmSingle (tag : yamlValue).

Record CachedMetadata := {
  tags : option (list string);
  frontmatter : option frontmatterTags
}.

(** The host as the style computation sees it: for a path, the cache of
    the [TFile] at that path; [None] when there is no [TFile] there or
    [getFileCache] returns [null]. *)
Definition Host := string → option CachedMetadata.

(** How a JavaScript call completes: with a value, or by throwing the
    [TypeError] of a property read or method call on a value that has
    none ([undefined], [null], a number). *)
Inductive completion (A : Type) :=
| Normal (a : A)
| TypeError.
Arguments Normal {A} a.
Arguments TypeError {A}.

(** [parseColor(color)] *)
Definition parseColor (color : string) : JS.number :=
  if JS.startsWith color "#" then JS.parseInt16 (JS.slice1 color)
  else JS.Num 16777215 (* 0xFFFFFF *).

(** [parseColor] applied to a value that may be [undefined]:
    [color.startsWith] throws on [undefined]. *)
Definition parseColorOf (color : option string) : completion JS.number :=
  match color with
  | Some c => Normal (parseColor c)
  | None => TypeError
  end.

(** [tagPattern.startsWith('#') ? tagPattern : '#' + tagPattern] *)
Definition normalizeTag (tag : string) : string :=
  if JS.startsWith tag "#" then tag else "#" +:+ tag.

Definition tagMatches (normalizedPattern tag : string) : bool :=
  String.eqb tag normalizedPattern
  || JS.startsWith tag (normalizedPattern +:+ "/").

(** Truthiness of a front-matter value. *)
Definition truthyYaml (v : yamlValue) : bool :=
  match v with
  | YamlString s => negb (String.eqb s "")
  | YamlOther truthy => truthy
  end.

(** The [fmTags] of [hasTag] when [cache.frontmatter?.tags] is truthy,
    and no tag otherwise: an array is truthy even when empty. *)
Definition frontmatterList (fm : frontmatterTags) : list yamlValue :=
  match fm with
  | FmArray tags => tags
  | FmSingle tag => if truthyYaml tag then [tag] else []
  end.

(** [for (const tag of fmTags) { ... }]: [tag.startsWith] throws on a
    value that is no string, unless an earlier tag has matched. *)
Fixpoint frontmatterLoop (normalizedPattern : string) (fmTags : list yamlValue)
    : completion bool :=
  match fmTags with
  | [] => Normal false
  | YamlString tag :: rest =>
      if tagMatches normalizedPattern (normalizeTag tag) then Normal true
      else frontmatterLoop normalizedPattern rest
  | YamlOther _ :: _ => TypeError
  end.

(** [hasTag(file, tagPattern)], on the cache of [file]. *)
Definition hasTag (cache : option CachedMetadata) (tagPattern : string)
    : completion bool :=
  match cache with
  | None => Normal false
  | Some cache =>
      let normalizedPattern := normalizeTag tagPattern in
      if existsb (tagMatches normalizedPattern) (default [] (tags cache))
      then Normal true
      else frontmatterLoop normalizedPattern
             (default [] (frontmatterList <$> frontmatter cache))
  end.

(** The [switch (rule.type)] of [getStyleFromRules]. *)
Definition ruleMatches (cache : option CachedMetadata) (nodeId : string)
    (rule : StyleRule.t) : completion bool :=
  let pattern := StyleRule.pattern rule in
  if String.eqb (StyleRule.type rule) "folder" then
    Normal (JS.startsWith nodeId pattern)
  else if String.eqb (StyleRule.type rule) "tag" then
    hasTag cache pattern
  else if String.eqb (StyleRule.type rule) "file" then
    Normal (String.eqb nodeId pattern
            || JS.endsWith nodeId ("/" +:+ pattern)
            || String.eqb nodeId (pattern +:+ ".md")
            || JS.endsWith nodeId ("/" +:+ pattern +:+ ".md"))
  else Normal false.

Definition styleOfRule (rule : StyleRule.t) : RuleStyle.t :=
  {| RuleStyle.color := StyleRule.color rule;
     RuleStyle.shape := StyleRule.shape rule;
     RuleStyle.size := StyleRule.size rule |}.

(** [for (const rule of this.settings.rules) { ... } return null] *)
Fixpoint rulesLoop (cache : option CachedMetadata) (nodeId : string)
    (rules : list StyleRule.t) : completion (option RuleStyle.t) :=
  match rules with
  | [] => Normal None
  | rule :: rest =>
      if negb (StyleRule.enabled rule) then rulesLoop cache nodeId rest
      else
        match ruleMatches cache nodeId rule with
        | Normal true => Normal (Some (styleOfRule rule))
        | Normal false => rulesLoop cache nodeId rest
        | TypeError => TypeError
        end
  end.

(** [getStyleFromRules(nodeId)]; [None] is [null]. *)
Definition getStyleFromRules (host : Host) (rules : list StyleRule.t)
    (nodeId : string) : completion (option RuleStyle.t) :=
  if (length rules =? 0)%nat then Normal None
  else rulesLoop (host nodeId) nodeId rules.

(** [activeNodeId && nodeId === activeNodeId] *)
Definition isActive (activeNodeId : option string) (nodeId : option string) : bool :=
  JS.truthyStr activeNodeId && bool_decide (nodeId = activeNodeId).

(** The first [hop] of [1..maxHops] with
    [neighborsByHop.get(hop)?.has(nodeId)]. *)
Definition firstHop (maxHops : Z) (neighborsByHop : gmap Z (gset string))
    (nodeId : string) : option Z :=
  head (filter (λ hop, nodeId ∈ hopSet neighborsByHop hop) (seqZ 1 maxHops)).

(** The hop level [applyStyles] caches for a node. *)
Definition hopLevelOf (settings : Settings.t) (activeNodeId : option string)
    (neighborsByHop : gmap Z (gset string)) (allConnected : gset string)
    (nodeId : string) : Z :=
  if JS.truthyStr activeNodeId then
    if bool_decide (Some nodeId = activeNodeId) then 0
    else
      let hopLevel :=
        default (-1) (firstHop (Settings.maxHops settings) neighborsByHop nodeId) in
      if (hopLevel =? -1) && bool_decide (nodeId ∈ allConnected)
      then Settings.maxHops settings + 1
      else hopLevel
  else -1.

(** [array[i]] for an integer index [i]. *)
Definition at_ (l : list string) (i : Z) : option string :=
  if i <? 0 then None else l !! Z.to_nat i.

(** The five-way branch of [applyStyles] that chooses [color], [alpha]
    and, for the active node, [size]. *)
Definition nodeColorAlpha (settings : Settings.t) (activeNodeId : option string)
    (nodeId : string) (hopLevel : Z) (ruleStyle : option RuleStyle.t)
    : option string * Q * option Q :=
  let ruleColor := ruleStyle ≫= RuleStyle.color in
  let hopColors := Settings.hopColors settings in
  if isActive activeNodeId (Some nodeId) then
    (Some (Settings.selectedNodeColor settings), 1%Q,
     Some (Settings.activeNodeSize settings))
  else if (0 <? hopLevel) && (hopLevel <=? Settings.maxHops settings) then
    (JS.orStr ruleColor (JS.orStr (at_ hopColors (hopLevel - 1)) (at_ hopColors 0)),
     1%Q, None)
  else if negb (JS.truthyStr activeNodeId) then
    (JS.orStr ruleColor (at_ hopColors 0), 1%Q, None)
  else if hopLevel =? -1 then
    (JS.orStr ruleColor (Some "#888888"), Settings.disconnectedOpacity settings, None)
  else
    (JS.orStr ruleColor (Some "#888888"), (1 # 2)%Q, None).

(** The style [applyStyles] caches for one node. *)
Definition resolveNodeStyle (settings : Settings.t) (activeNodeId : option string)
    (nodeId : string) (hopLevel : Z) (ruleStyle : option RuleStyle.t)
    : completion NodeStyleResult.t :=
  let '(color, alpha, size) :=
    nodeColorAlpha settings activeNodeId nodeId hopLevel ruleStyle in
  let shape :=
    default (Settings.defaultNodeShape settings) (ruleStyle ≫= RuleStyle.shape) in
  let size :=
    match size with
    | Some z => z
    | None => JS.orNum (ruleStyle ≫= RuleStyle.size) (Settings.defaultNodeSize settings)
    end in
  match parseColorOf color with
  | Normal tint =>
      Normal {| NodeStyleResult.tint := tint;
                NodeStyleResult.alpha := alpha;
                NodeStyleResult.shape := shape;
                NodeStyleResult.size := size |}
  | TypeError => TypeError
  end.

(** [isInRange(nodeId, neighborsByHop)] *)
Definition isInRange (settings : Settings.t) (nodeId : option string)
    (neighborsByHop : gmap Z (gset string)) : bool :=
  if negb (JS.truthyStr nodeId) then false
  else
    bool_decide
      (is_Some (firstHop (Settings.maxHops settings) neighborsByHop (default "" nodeId))).

(** A link of the renderer: [link.source?.id] and [link.target?.id]. *)
Record link := {
  source : option string;
  target : option string
}.

(** [a || b] where [b] is a defined string. *)
Definition orColor (a : option string) (b : string) : string :=
  default b (JS.orStr a (Some b)).

(** A hop level read as a distance: [hop > 0 ? hop : Infinity]. *)
Definition positiveHop (hop : Z) : option Z :=
  if 0 <? hop then Some hop else None.

(** [Math.min] of two values that may be [Infinity] ([None]). *)
Definition minInf (a b : option Z) : option Z :=
  match a, b with
  | Some x, Some y => Some (Z.min x y)
  | Some x, None => Some x
  | None, Some y => Some y
  | None, None => None
  end.

(** The [minHop] of the [BY_HOP] case. *)
Definition minHopOf (nodeHopLevels : gmap string Z) (l : link) : option Z :=
  let sourceHop := JS.nullish (nodeHopLevels !! default "" (source l)) (-1) in
  let targetHop := JS.nullish (nodeHopLevels !! default "" (target l)) (-1) in
  minInf (positiveHop sourceHop) (positiveHop targetHop).

(** The style [applyEdgeStyles] caches for one link. *)
Definition resolveEdgeStyle (settings : Settings.t) (activeNodeId : option string)
    (nodeStyles : gmap string NodeStyleResult.t) (nodeHopLevels : gmap string Z)
    (neighborsByHop : gmap Z (gset string)) (l : link) : EdgeStyle.t :=
  let sourceId := source l in
  let targetId := target l in
  let sourceIsActive := isActive activeNodeId sourceId in
  let targetIsActive := isActive activeNodeId targetId in
  let sourceInRange := isInRange settings sourceId neighborsByHop in
  let targetInRange := isInRange settings targetId neighborsByHop in
  let edgeColor := Settings.edgeColor settings in
  match Settings.edgeColorMode settings with
  | INHERIT =>
      let sourceStyle := nodeStyles !! default "" sourceId in
      let tint :=
        match sourceStyle with
        | Some st => NodeStyleResult.tint st
        | None => parseColor "#888888"
        end in
      if sourceIsActive || targetIsActive then
        {| EdgeStyle.tint := tint; EdgeStyle.alpha := 1%Q;
           EdgeStyle.width := Settings.activeEdgeWidth settings |}
      else if sourceInRange && targetInRange then
        {| EdgeStyle.tint := tint;
           EdgeStyle.alpha :=
             Qmin (JS.nullish (NodeStyleResult.alpha <$> sourceStyle) (8 # 10)%Q)
                  (8 # 10)%Q;
           EdgeStyle.width := Settings.defaultEdgeWidth settings |}
      else
        {| EdgeStyle.tint := tint;
           EdgeStyle.alpha := Settings.disconnectedOpacity settings;
           EdgeStyle.width := Settings.disconnectedEdgeWidth settings |}
  | BY_HOP =>
      let hopEdgeColors := Settings.hopEdgeColors settings in
      if sourceIsActive || targetIsActive then
        {| EdgeStyle.tint := parseColor (orColor (at_ hopEdgeColors 0) edgeColor);
           EdgeStyle.alpha := 1%Q;
           EdgeStyle.width := Settings.activeEdgeWidth settings |}
      else
        match minHopOf nodeHopLevels l with
        | Some minHop =>
            if minHop <=? Settings.maxHops settings then
              {| EdgeStyle.tint :=
                   parseColor (orColor (at_ hopEdgeColors (minHop - 1)) edgeColor);
                 EdgeStyle.alpha := (7 # 10)%Q;
                 EdgeStyle.width := Settings.defaultEdgeWidth settings |}
            else
              {| EdgeStyle.tint := parseColor edgeColor;
                 EdgeStyle.alpha := (4 # 10)%Q;
                 EdgeStyle.width := Settings.disconnectedEdgeWidth settings |}
        | None =>
            {| EdgeStyle.tint := parseColor edgeColor;
               EdgeStyle.alpha := Settings.disconnectedOpacity settings;
               EdgeStyle.width := Settings.disconnectedEdgeWidth settings |}
        end
  | SINGLE =>
      if sourceIsActive || targetIsActive then
        {| EdgeStyle.tint := parseColor (Settings.highlightedEdgeColor settings);
           EdgeStyle.alpha := 1%Q;
           EdgeStyle.width := Settings.activeEdgeWidth settings |}
      else if sourceInRange && targetInRange then
        {| EdgeStyle.tint := parseColor edgeColor;
           EdgeStyle.alpha := (8 # 10)%Q;
           EdgeStyle.width := Settings.defaultEdgeWidth settings |}
      else
        {| EdgeStyle.tint := parseColor edgeColor;
           EdgeStyle.alpha := Settings.disconnectedOpacity settings;
           EdgeStyle.width := Settings.disconnectedEdgeWidth settings |}
  end.

(** The caches of a [GraphStyler] that one pass of [applyStyles] reads
    and writes.  [edgeStyles] is keyed by the link objects themselves;
    it is kept as the list of the styles of the links of the last pass,
    in the order of [renderer.links]. *)
Record state := {
  lastActiveNodeId : option string;
  nodeStyles : gmap string NodeStyleResult.t;
  nodeHopLevels : gmap string Z;
  edgeStyles : list EdgeStyle.t
}.

Definition initialState : state :=
  {| lastActiveNodeId := None; nodeStyles := ∅; nodeHopLevels := ∅; edgeStyles := [] |}.

(** The body of [nodeEntries.forEach] in [applyStyles], on the two
    caches it updates.  The rule lookup throws on a front-matter tag
    that is no string, [parseColor] on an undefined colour.  After
    caching the style the body reads [node.circle] to apply it at once,
    which throws when the entry's node is [null]; the writes to the
    host's objects are not modelled. *)
Definition styleNode (host : Host) (settings : Settings.t)
    (activeNodeId : option string)
    (neighborsByHop : gmap Z (gset string)) (allConnected : gset string)
    (caches : completion (gmap string NodeStyleResult.t * gmap string Z))
    (entry : string * option nodeDesc)
    : completion (gmap string NodeStyleResult.t * gmap string Z) :=
  match caches with
  | TypeError => TypeError
  | Normal (styles, levels) =>
      let nodeId := entry.1 in
      let hopLevel :=
        hopLevelOf settings activeNodeId neighborsByHop allConnected nodeId in
      match getStyleFromRules host (Settings.rules settings) nodeId with
      | Normal ruleStyle =>
          match resolveNodeStyle settings activeNodeId nodeId hopLevel ruleStyle with
          | Normal st =>
              match entry.2 with
              | Some _ => Normal (<[nodeId := st]> styles, <[nodeId := hopLevel]> levels)
              | None => TypeError
              end
          | TypeError => TypeError
          end
      | TypeError => TypeError
      end
  end.

(** [applyStyles()], for a renderer with the given nodes and links and
    the active file path the host reports ([None]: no active file).
    The outer [option] is [None] only if a search ran out of fuel. *)
Definition applyStyles (host : Host) (settings : Settings.t) (st : state)
    (activeFile : option string) (nodes : nodeCollection) (links : list link)
    : option (completion state) :=
  if negb (Settings.enabled settings) then
    (* clearStyles(): the caches are emptied, then [node.circle] is read
       of every entry to restore its opacity *)
    Some (if forallb (λ entry, bool_decide (is_Some entry.2)) (nodeEntries nodes)
          then Normal {| lastActiveNodeId := lastActiveNodeId st;
                         nodeStyles := ∅; nodeHopLevels := ∅; edgeStyles := [] |}
          else TypeError)
  else
    let activeNodeId :=
      match activeFile with
      | Some path => Some path
      | None => if JS.truthyStr (lastActiveNodeId st) then lastActiveNodeId st else None
      end in
    let lastActive :=
      match activeFile with
      | Some path => Some path
      | None => lastActiveNodeId st
      end in
    let adj := buildFromNodes nodes in
    searches ← (if JS.truthyStr activeNodeId then
                  let sourceId := default "" activeNodeId in
                  neighborsByHop ← findNeighborsByHop adj sourceId (Settings.maxHops settings);
                  allConnected ← getAllConnectedNodes adj sourceId;
                  Some (neighborsByHop, allConnected)
                else Some (∅, ∅));
    let '(neighborsByHop, allConnected) := searches in
    Some
      match
        foldl (styleNode host settings activeNodeId neighborsByHop allConnected)
          (Normal (nodeStyles st, ∅)) (nodeEntries nodes)
      with
      | TypeError => TypeError
      | Normal (styles, levels) =>
          Normal {| lastActiveNodeId := lastActive;
                    nodeStyles := styles;
                    nodeHopLevels := levels;
                    edgeStyles :=
                      resolveEdgeStyle settings activeNodeId styles levels neighborsByHop
                        <$> links |}
      end.

End GraphStyler.

(* ===================================================================== *)
(** ** main.ts *)
(* ===================================================================== *)

(** [interface TagRule] and [interface FolderRule], the legacy rules
    that [loadSettings] migrates. *)
Module TagRule.
Record t := { tag : string; color : string }.
End TagRule.

Module FolderRule.
Record t := { folder : string; color : string }.
End FolderRule.

Module Plugin.

(** [while (colors.length < 5) colors.push(DEFAULT_SETTINGS.hopColors[colors.length])],
    for the array [defaults] of the default settings.  [None] when the
    fuel runs out or when [defaults] has no entry to push. *)
Fixpoint padLoop (fuel : nat) (defaults colors : list string) : option (list string) :=
  if (length colors <? 5)%nat then
    match fuel with
    | O => None
    | S fuel' =>
        match defaults !! length colors with
        | Some c => padLoop fuel' defaults (colors ++ [c])
        | None => None
        end
    end
  else Some colors.

Definition padColors (defaults colors : list string) : option (list string) :=
  padLoop 5 defaults colors.

(** The rule a legacy tag rule becomes; [id] is the [generateId()] of
    that rule. *)
Definition migrateTagRule (id : string) (r : TagRule.t) : StyleRule.t :=
  {| StyleRule.id := id; StyleRule.type := "tag"; StyleRule.pattern := TagRule.tag r;
     StyleRule.color := Some (TagRule.color r); StyleRule.shape := None;
     StyleRule.size := None; StyleRule.enabled := true |}.

Definition migrateFolderRule (id : string) (r : FolderRule.t) : StyleRule.t :=
  {| StyleRule.id := id; StyleRule.type := "folder";
     StyleRule.pattern := FolderRule.folder r;
     StyleRule.color := Some (FolderRule.color r); StyleRule.shape := None;
     StyleRule.size := None; StyleRule.enabled := true |}.

(** [loadSettings()], after [Object.assign({}, DEFAULT_SETTINGS, data)]
    has given [merged]: the two colour arrays are padded to five
    entries, the legacy tag rules of [data] are pushed at the end of the
    rules and its legacy folder rules are put in front.  [generateId i]
    is the result of the [i]-th call of the random [generateId()].
    The merge is shallow, so an array of [merged] that the stored data
    did not give is the array of [DEFAULT_SETTINGS] itself: the padding
    loops then push nothing, and what the pushes of the migration do to
    the default rules for a later call is outside this definition. *)
Definition loadSettings (generateId : nat → string) (merged : Settings.t)
    (tagRules : list TagRule.t) (folderRules : list FolderRule.t)
    : option Settings.t :=
  hopColors ← padColors (Settings.hopColors DEFAULT_SETTINGS) (Settings.hopColors merged);
  hopEdgeColors ← padColors (Settings.hopEdgeColors DEFAULT_SETTINGS)
                     (Settings.hopEdgeColors merged);
  let migratedTagRules := imap (λ i r, migrateTagRule (generateId i) r) tagRules in
  let migratedFolderRules :=
    imap (λ i r, migrateFolderRule (generateId (length tagRules + i)%nat) r)
      folderRules in
  Some {| Settings.enabled := Settings.enabled merged;
          Settings.maxHops := Settings.maxHops merged;
          Settings.selectedNodeColor := Settings.selectedNodeColor merged;
          Settings.hopColors := hopColors;
          Settings.disconnectedOpacity := Settings.disconnectedOpacity merged;
          Settings.defaultNodeShape := Settings.defaultNodeShape merged;
          Settings.defaultNodeSize := Settings.defaultNodeSize merged;
          Settings.activeNodeSize := Settings.activeNodeSize merged;
          Settings.edgeColorMode := Settings.edgeColorMode merged;
          Settings.edgeColor := Settings.edgeColor merged;
          Settings.highlightedEdgeColor := Settings.highlightedEdgeColor merged;
          Settings.hopEdgeColors := hopEdgeColors;
          Settings.activeEdgeWidth := Settings.activeEdgeWidth merged;
          Settings.defaultEdgeWidth := Settings.defaultEdgeWidth merged;
          Settings.disconnectedEdgeWidth := Settings.disconnectedEdgeWidth merged;
          Settings.rules :=
            migratedFolderRules ++ (Settings.rules merged ++ migratedTagRules) |}.

(** [Array.prototype.findIndex], counting from [i]; [-1] when no
    element satisfies [f]. *)
Fixpoint findIndexFrom {A} (f : A → bool) (i : Z) (l : list A) : Z :=
  match l with
  | [] => -1
  | x :: rest => if f x then i else findIndexFrom f (i + 1) rest
  end.

Definition findIndex {A} (f : A → bool) (l : list A) : Z := findIndexFrom f 0 l.

(** [interface StylePreset], over the type [P] of the partial settings
    a preset stores. *)
Record StylePreset (P : Type) := {
  name : string;
  settings : P
}.
Arguments name {P} _.
Arguments settings {P} _.

(** The part of the plugin's settings the preset commands touch: the
    current settings (of a type [S] into which a preset is merged), the
    presets and the name of the active one. *)
Record presetState (P S : Type) := {
  current : S;
  presets : list (StylePreset P);
  activePreset : option string
}.
Arguments current {P S} _.
Arguments presets {P S} _.
Arguments activePreset {P S} _.

(** [applyPreset(presetName)]; [assign] is [Object.assign] of the
    preset's partial settings onto the current ones. *)
Definition applyPreset {P S} (assign : S → P → S) (presetName : string)
    (st : presetState P S) : presetState P S :=
  match List.find (λ p, String.eqb (name p) presetName) (presets st) with
  | None => st
  | Some preset =>
      {| current := assign (current st) (settings preset);
         presets := presets st;
         activePreset := Some presetName |}
  end.

(** [cyclePreset()] *)
Definition cyclePreset {P S} (assign : S → P → S) (st : presetState P S)
    : presetState P S :=
  if (length (presets st) =? 0)%nat then st
  else
    let currentIndex :=
      findIndex (λ p, bool_decide (Some (name p) = activePreset st)) (presets st) in
    let nextIndex := Z.rem (currentIndex + 1) (Z.of_nat (length (presets st))) in
    match presets st !! Z.to_nat nextIndex with
    | Some preset => applyPreset assign (name preset) st
    | None => st
    end.

End Plugin.

(* ===================================================================== *)
(** ** settings.ts *)
(* ===================================================================== *)

Module SettingTab.

Import Plugin.

(** The [Save] button of the rule editor: nothing is saved for an empty
    pattern; the pattern of a tag rule is given its leading [#]. *)
Definition saveRule (rule : StyleRule.t) : option StyleRule.t :=
  if String.eqb (StyleRule.pattern rule) "" then None
  else if String.eqb (StyleRule.type rule) "tag"
          && negb (JS.startsWith (StyleRule.pattern rule) "#")
  then Some {| StyleRule.id := StyleRule.id rule;
               StyleRule.type := StyleRule.type rule;
               StyleRule.pattern := "#" +:+ StyleRule.pattern rule;
               StyleRule.color := StyleRule.color rule;
               StyleRule.shape := StyleRule.shape rule;
               StyleRule.size := StyleRule.size rule;
               StyleRule.enabled := StyleRule.enabled rule |}
  else Some rule.

(** The [drop] handler of the rules list, a rule dragged from
    [fromIndex] onto the rule at [toIndex]:
    [const [movedRule] = rules.splice(fromIndex, 1); rules.splice(toIndex, 0, movedRule)].
    [None] when [fromIndex] is past the end, where [movedRule] is
    [undefined] and the array would receive a hole. *)
Definition dropRule (fromIndex toIndex : nat) (rules : list StyleRule.t)
    : option (list StyleRule.t) :=
  if (fromIndex =? toIndex)%nat then Some rules
  else
    match rules !! fromIndex with
    | Some movedRule =>
        let rest := delete fromIndex rules in
        Some (take toIndex rest ++ movedRule :: drop toIndex rest)
    | None => None
    end.

(** The [Save] button of the presets section, for the trimmed [name]
    and the snapshot [snapshot] of the current settings. *)
Definition savePreset {P S} (presetName : string) (snapshot : P)
    (st : presetState P S) : presetState P S :=
  if String.eqb presetName "" then st
  else
    let newPreset := {| name := presetName; settings := snapshot |} in
    let existingIndex :=
      findIndex (λ p, String.eqb (name p) presetName) (presets st) in
    {| current := current st;
       presets :=
         if 0 <=? existingIndex
         then <[Z.to_nat existingIndex := newPreset]> (presets st)
         else presets st ++ [newPreset];
       activePreset := Some presetName |}.

(** The [Delete] button of the preset rendered at [index] with the
    name [presetName]. *)
Definition deletePreset {P S} (index : nat) (presetName : string)
    (st : presetState P S) : presetState P S :=
  {| current := current st;
     presets := delete index (presets st);
     activePreset :=
       if bool_decide (activePreset st = Some presetName) then None
       else activePreset st |}.

End SettingTab.

Import NeighborFinder.
Import GraphStyler.
Import Plugin.
Import SettingTab.

(* ===================================================================== *)
(** ** Vocabulary of the specification *)
(* ===================================================================== *)

(** A rule applies to a node when it is enabled and the predicate of its
    kind matches the node id; for an enabled rule the answer is the
    completion of that predicate. *)
Definition applies (host : Host) (nodeId : string) (rule : StyleRule.t)
    : completion bool :=
  if StyleRule.enabled rule then ruleMatches (host nodeId) nodeId rule
  else Normal false.

(** The hop level of an endpoint of a link, unknown endpoints counting
    as disconnected ([-1]). *)
Definition endpointHop (nodeHopLevels : gmap string Z) (endpoint : option string) : Z :=
  default (-1) (nodeHopLevels !! default "" endpoint).

(** [minHop] is the smaller of the hop levels [a] and [b], those that
    are not positive counting as infinite. *)
Definition isMinHop (a b minHop : Z) : Prop :=
  0 < minHop ∧ (minHop = a ∨ minHop = b) ∧
  (0 < a → minHop ≤ a) ∧ (0 < b → minHop ≤ b).


(** *** Invariants of the graph builder *)

(** What [buildFromNodes] maintains: symmetry and key-closure. *)
Definition wellFormed (adj : gmap string (list string)) : Prop :=
  symmetric adj ∧ keyClosed adj.

(** The adjacency list only grows during the construction. *)
Definition grows (adj adj' : gmap string (list string)) : Prop :=
  (∀ u, is_Some (adj !! u) → is_Some (adj' !! u)) ∧
  (∀ u w, edge adj u w → edge adj' u w).

(** *** Invariants of the two searches *)

(** The loop invariant of [getAllConnectedNodes]: every visited node is
    reachable from the source; a visited node is still queued, or it has
    been recorded (unless it is the source) and all its neighbours are
    visited. *)
Record connInv (adj : gmap string (list string)) (sourceId : string)
    (st : connState) : Prop := {
  ci_source : sourceId ∈ cs_visited st;
  ci_reach : ∀ v, v ∈ cs_visited st → reachable adj sourceId v;
  ci_universe : ∀ v, v ∈ cs_visited st → v ∈ nodeUniverse adj;
  ci_queue : ∀ v, v ∈ cs_queue st → v ∈ cs_visited st;
  ci_connected : ∀ v, v ∈ cs_connected st → v ∈ cs_visited st ∧ v ≠ sourceId;
  ci_done : ∀ v, v ∈ cs_visited st →
    v ∈ cs_queue st ∨
    ((v = sourceId ∨ v ∈ cs_connected st) ∧ ∀ w, edge adj v w → w ∈ cs_visited st)
}.

(** What bounds the remaining iterations of a search: the nodes not yet
    visited and the entries still queued. *)
Definition connMeasure (adj : gmap string (list string)) (st : connState) : nat :=
  (size (nodeUniverse adj ∖ cs_visited st) + length (cs_queue st))%nat.

Definition hopMeasure (adj : gmap string (list string)) (st : hopState) : nat :=
  (size (nodeUniverse adj ∖ hs_visited st) + length (hs_queue st))%nat.

(** Ghost labelling of the search of [findNeighborsByHop]: the nodes
    [fresh] are given the distance [d]. *)
Definition label (fresh : list string) (d : nat) (dist : gmap string nat)
    : gmap string nat :=
  foldr (λ w, <[w := d]>) dist fresh.

(** The loop invariant of [findNeighborsByHop], over a ghost map [dist]
    that gives every visited node the distance it was queued with, and
    the distance [level] of the entries at the front of the queue.
    - [dist v = n] is witnessed by a path of [n] edges from the source;
    - a visited node is still queued with its distance, or it has been
      recorded in the hop set of its distance (when that is in
      [1..maxHops]) and, when it was expanded, its neighbours are
      labelled with at most one more;
    - the queue holds entries of distance [level] followed by entries of
      distance [level + 1], and no label exceeds [level + 1]. *)
Record hopInv (adj : gmap string (list string)) (sourceId : string) (maxHops : Z)
    (dist : gmap string nat) (level : nat) (st : hopState) : Prop := {
  hi_source : dist !! sourceId = Some 0%nat;
  hi_path : ∀ v n, dist !! v = Some n → nsteps (edge adj) n sourceId v;
  hi_visited : ∀ v, v ∈ hs_visited st ↔ is_Some (dist !! v);
  hi_universe : ∀ v, v ∈ hs_visited st → v ∈ nodeUniverse adj;
  hi_queue : ∀ v k, (v, k) ∈ hs_queue st → ∃ n, dist !! v = Some n ∧ k = Z.of_nat n;
  hi_done : ∀ v n, dist !! v = Some n →
    (v, Z.of_nat n) ∈ hs_queue st ∨
    ((0 < Z.of_nat n ≤ maxHops → v ∈ hopSet (hs_result st) (Z.of_nat n)) ∧
     (Z.of_nat n < maxHops →
      ∀ w, edge adj v w → ∃ j, dist !! w = Some j ∧ (j ≤ S n)%nat));
  hi_result : ∀ h v, v ∈ hopSet (hs_result st) h →
    ∃ n, dist !! v = Some n ∧ h = Z.of_nat n;
  hi_keys : ∀ h, is_Some (hs_result st !! h) ↔ 1 ≤ h ≤ maxHops;
  hi_order : ∃ front back, hs_queue st = front ++ back ∧
    (∀ v k, (v, k) ∈ front → k = Z.of_nat level) ∧
    (∀ v k, (v, k) ∈ back → k = Z.of_nat (S level));
  hi_bound : ∀ v n, dist !! v = Some n → (n ≤ S level)%nat
}.

(** *** Fixtures of the scenarios *)

Definition folderRule (pattern : string) (color : option string) (enabled : bool)
    : StyleRule.t :=
  {| StyleRule.id := "r"; StyleRule.type := "folder"; StyleRule.pattern := pattern;
     StyleRule.color := color; StyleRule.shape := None; StyleRule.size := None;
     StyleRule.enabled := enabled |}.

Definition noHost : Host := λ _, None.

Definition plainNode (name : string) (targets : list string) : option nodeDesc :=
  Some {| id := Some name; forward := LArray (TString <$> targets); reverse := LAbsent |}.

(** Scenario A: the chain A - B - C - D. *)
Definition chainABCD : nodeCollection :=
  NodesArray [plainNode "A" ["B"]; plainNode "B" ["C"]; plainNode "C" ["D"]; plainNode "D" []].

(** Scenario B: the pairs A - B and C - D. *)
Definition twoPairs : nodeCollection :=
  NodesArray [plainNode "A" ["B"]; plainNode "B" []; plainNode "C" ["D"]; plainNode "D" []].

(** A configuration whose hop-colour array is empty. *)
Definition noHopColors : Settings.t := {|
  Settings.enabled := true;
  Settings.maxHops := 3;
  Settings.selectedNodeColor := "#FF6B6B";
  Settings.hopColors := [];
  Settings.disconnectedOpacity := (15 # 100)%Q;
  Settings.defaultNodeShape := CIRCLE;
  Settings.defaultNodeSize := 1%Q;
  Settings.activeNodeSize := (11 # 10)%Q;
  Settings.edgeColorMode := SINGLE;
  Settings.edgeColor := "#888888";
  Settings.highlightedEdgeColor := "#4ECDC4";
  Settings.hopEdgeColors := [];
  Settings.activeEdgeWidth := 2%Q;
  Settings.defaultEdgeWidth := 1%Q;
  Settings.disconnectedEdgeWidth := (1 # 2)%Q;
  Settings.rules := []
|}.

(** Scenario D: edge mode [by-hop] with two hop-edge colours. *)
Definition byHopSettings : Settings.t := {|
  Settings.enabled := true;
  Settings.maxHops := 3;
  Settings.selectedNodeColor := "#FF6B6B";
  Settings.hopColors := ["#4ECDC4"; "#45B7D1"; "#96CEB4"];
  Settings.disconnectedOpacity := (15 # 100)%Q;
  Settings.defaultNodeShape := CIRCLE;
  Settings.defaultNodeSize := 1%Q;
  Settings.activeNodeSize := (11 # 10)%Q;
  Settings.edgeColorMode := BY_HOP;
  Settings.edgeColor := "#888888";
  Settings.highlightedEdgeColor := "#4ECDC4";
  Settings.hopEdgeColors := ["#111111"; "#222222"];
  Settings.activeEdgeWidth := 2%Q;
  Settings.defaultEdgeWidth := 1%Q;
  Settings.disconnectedEdgeWidth := (1 # 2)%Q;
  Settings.rules := []
|}.

(** *** Vocabulary of the further properties *)

(** The identifiers a node entry links to, forward and reverse. *)
Definition linksOf (e : string * option nodeDesc) : list string :=
  match e.2 with
  | Some node => getLinks (forward node) ++ getLinks (reverse node)
  | None => []
  end.

(** The input collection joins [a] and [b]: one of them is the id of
    an entry whose node lists the other. *)
Definition inputLink (nodes : nodeCollection) (a b : string) : Prop :=
  ∃ e other, e ∈ nodeEntries nodes ∧ other ∈ linksOf e ∧
    ((a = e.1 ∧ b = other) ∨ (a = other ∧ b = e.1)).

(** Every identifier the input collection mentions. *)
Definition graphIds (nodes : nodeCollection) : gset string :=
  list_to_set (nodeEntries nodes).*1 ∪ list_to_set (nodeEntries nodes ≫= linksOf).

(** Neighbour sets without repeated members. *)
Definition duplicateFree (adj : gmap string (list string)) : Prop :=
  ∀ u ns, adj !! u = Some ns → NoDup ns.

(** *** Reading a hexadecimal numeral *)

(** [s] begins with [p]. *)
Definition beginsWith (s p : string) : Prop := ∃ rest, s = p +:+ rest.

(** The UTF-8 encoding of a code point below U+10000. *)
Definition utf8 (codePoint : N) : string :=
  if (codePoint <? 128)%N then String (ascii_of_N codePoint) ""
  else if (codePoint <? 2048)%N then
    String (ascii_of_N (192 + codePoint / 64))
      (String (ascii_of_N (128 + codePoint mod 64)) "")
  else
    String (ascii_of_N (224 + codePoint / 4096))
      (String (ascii_of_N (128 + (codePoint / 64) mod 64))
         (String (ascii_of_N (128 + codePoint mod 64)) "")).

(** The code points of [WhiteSpace] and [LineTerminator]: TAB, LF, VT,
    FF, CR, the space separators (category Zs), LS, PS and U+FEFF. *)
Definition whiteSpaceCodePoints : list N :=
  [0x9; 0xA; 0xB; 0xC; 0xD; 0x20; 0xA0; 0x1680;
   0x2000; 0x2001; 0x2002; 0x2003; 0x2004; 0x2005; 0x2006; 0x2007; 0x2008; 0x2009;
   0x200A; 0x2028; 0x2029; 0x202F; 0x205F; 0x3000; 0xFEFF]%N.

Definition whiteSpace : list string := utf8 <$> whiteSpaceCodePoints.

(** The hexadecimal digits and their values. *)
Definition hexDigitValues : list (ascii * Z) :=
  [("0", 0); ("1", 1); ("2", 2); ("3", 3); ("4", 4); ("5", 5); ("6", 6); ("7", 7);
   ("8", 8); ("9", 9);
   ("a", 10); ("b", 11); ("c", 12); ("d", 13); ("e", 14); ("f", 15);
   ("A", 10); ("B", 11); ("C", 12); ("D", 13); ("E", 14); ("F", 15)]%char.

Definition digitOf (c : ascii) : option Z :=
  snd <$> List.find (λ p, Ascii.eqb p.1 c) hexDigitValues.

(** Strings made of hexadecimal digits only. *)
Fixpoint allHex (s : string) : bool :=
  match s with
  | EmptyString => true
  | String c rest => bool_decide (is_Some (digitOf c)) && allHex rest
  end.

(** The value of a numeral, digit by digit: the first digit counts
    [16 ^ (number of digits after it)]. *)
Fixpoint numeralValue (digits : string) : Z :=
  match digits with
  | EmptyString => 0
  | String c rest =>
      default 0 (digitOf c) * 16 ^ Z.of_nat (String.length rest) + numeralValue rest
  end.

(** The non-negative integers a double can hold when its exponent is not
    bounded: 53 binary places and a power of two. *)
Definition representable (v : Z) : Prop :=
  ∃ q e, v = q * 2 ^ e ∧ 0 ≤ q < 2 ^ 53 ∧ 0 ≤ e.

(** [v] is the double nearest to [m]; of two that are equally near, the
    one whose last place is even. *)
Definition nearestDouble (m v : Z) : Prop :=
  representable v ∧
  ∀ w, representable w → w ≠ v →
    Z.abs (v - m) < Z.abs (w - m)
    ∨ (Z.abs (v - m) = Z.abs (w - m) ∧ (2 ^ (Z.log2 m - 51) | v)).

(** The Number value of an integer given by its sign and magnitude. *)
Definition numberOf (negative : bool) (mathInt : Z) (n : JS.number) : Prop :=
  if decide (mathInt = 0) then n = (if negative then JS.NegZero else JS.Num 0)
  else
    ∃ v, nearestDouble mathInt v
      ∧ n = if decide (v < 2 ^ 1024) then JS.Num (if negative then - v else v)
            else if negative then JS.NegInfinity else JS.Infinity.

(** What the language specification makes of [parseInt(s, 16)]: [s] is
    white space, an optional sign, an optional [0x], the longest run of
    hexadecimal digits, and a rest; the result is [NaN] when the run is
    empty and the signed value of the numeral otherwise. *)
Definition parsesAsHex (s : string) (n : JS.number) : Prop :=
  ∃ (spaces : list string) (sign prefix digits tail : string),
    s = foldr String.app (sign +:+ prefix +:+ digits +:+ tail) spaces
    ∧ Forall (λ w, w ∈ whiteSpace) spaces
    ∧ (∀ w, w ∈ whiteSpace → ¬ beginsWith (sign +:+ prefix +:+ digits +:+ tail) w)
    ∧ (sign = "-" ∨ sign = "+"
       ∨ sign = "" ∧ ¬ beginsWith (prefix +:+ digits +:+ tail) "-"
                   ∧ ¬ beginsWith (prefix +:+ digits +:+ tail) "+")
    ∧ (prefix = "0x" ∨ prefix = "0X"
       ∨ prefix = "" ∧ ¬ beginsWith (digits +:+ tail) "0x"
                     ∧ ¬ beginsWith (digits +:+ tail) "0X")
    ∧ allHex digits = true
    ∧ (∀ c rest, tail = String c rest → digitOf c = None)
    ∧ if decide (digits = "") then n = JS.NaN
      else numberOf (bool_decide (sign = "-")) (numeralValue digits) n.

(** The front-matter tags of a file are strings, if it has any. *)
Definition stringTags (cache : option CachedMetadata) : Prop :=
  ∀ c fm, cache = Some c → frontmatter c = Some fm →
    Forall (λ v, ∃ tag, v = YamlString tag) (frontmatterList fm).

(** A rule whose kind the [switch] of [getStyleFromRules] knows. *)
Definition knownKind (rule : StyleRule.t) : Prop :=
  StyleRule.type rule = "folder" ∨ StyleRule.type rule = "tag"
  ∨ StyleRule.type rule = "file".

(** The names of the presets, in order. *)
Definition presetNames {P} (ps : list (StylePreset P)) : list string := name <$> ps.

(** The override of a rule that gives a colour only. *)
Definition colourOnly (color : string) : RuleStyle.t :=
  {| RuleStyle.color := Some color; RuleStyle.shape := None; RuleStyle.size := None |}.

(** The default settings with one rule, for the tag [todo]. *)
Definition tagRuleSettings : Settings.t := {|
  Settings.enabled := true;
  Settings.maxHops := 3;
  Settings.selectedNodeColor := "#FF6B6B";
  Settings.hopColors := ["#4ECDC4"; "#45B7D1"; "#96CEB4"; "#FFEAA7"; "#DDA0DD"];
  Settings.disconnectedOpacity := (15 # 100)%Q;
  Settings.defaultNodeShape := CIRCLE;
  Settings.defaultNodeSize := 1%Q;
  Settings.activeNodeSize := (11 # 10)%Q;
  Settings.edgeColorMode := SINGLE;
  Settings.edgeColor := "#888888";
  Settings.highlightedEdgeColor := "#4ECDC4";
  Settings.hopEdgeColors := ["#4ECDC4"; "#45B7D1"; "#96CEB4"; "#FFEAA7"; "#DDA0DD"];
  Settings.activeEdgeWidth := 2%Q;
  Settings.defaultEdgeWidth := 1%Q;
  Settings.disconnectedEdgeWidth := (1 # 2)%Q;
  Settings.rules :=
    [{| StyleRule.id := "t"; StyleRule.type := "tag"; StyleRule.pattern := "todo";
        StyleRule.color := Some "#112233"; StyleRule.shape := None;
        StyleRule.size := None; StyleRule.enabled := true |}]
|}.

(** A host in which the file [B] has the front matter [tags: [2024]]. *)
Definition numberTagHost : Host :=
  λ path, if String.eqb path "B"
          then Some {| tags := None; frontmatter := Some (FmArray [YamlOther true]) |}
          else None.

(** The first legacy tag rule whose tag the file has; the search throws
    when the check of a tag throws before one is found. *)
Fixpoint firstTagged (cache : option CachedMetadata) (tagRules : list TagRule.t)
    : completion (option TagRule.t) :=
  match tagRules with
  | [] => Normal None
  | r :: rest =>
      match hasTag cache (TagRule.tag r) with
      | Normal true => Normal (Some r)
      | Normal false => firstTagged cache rest
      | TypeError => TypeError
      end
  end.

(** What the preset commands keep: the names of the presets differ, and
    the active preset, if any, is one of them. *)
Definition presetsOk {P S} (st : presetState P S) : Prop :=
  NoDup (presetNames (presets st))
  ∧ ∀ n, activePreset st = Some n → n ∈ presetNames (presets st).

(** Two presets that store complete settings, the second one active. *)
Definition twoPresets : presetState Settings.t Settings.t :=
  {| current := noHopColors;
     presets := [{| name := "default"; settings := DEFAULT_SETTINGS |};
                 {| name := "by hop"; settings := byHopSettings |}];
     activePreset := Some "by hop" |}.

(* ===================================================================== *)
(** ** Rule matcher *)
(* ===================================================================== *)

Section rule_matcher.
Variable host : Host.
Variable nodeId : string.

Lemma rulesLoop_cons rule rest :
  rulesLoop (host nodeId) nodeId (rule :: rest) =
    match applies host nodeId rule with
    | Normal true => Normal (Some (styleOfRule rule))
    | Normal false => rulesLoop (host nodeId) nodeId rest
    | TypeError => TypeError
    end.
Proof. unfold applies. simpl. by destruct (StyleRule.enabled rule). Qed.

Lemma getStyleFromRules_loop rules :
  getStyleFromRules host rules nodeId = rulesLoop (host nodeId) nodeId rules.
Proof. by destruct rules. Qed.

Lemma rulesLoop_skip pre rest :
  Forall (λ r, applies host nodeId r = Normal false) pre →
  rulesLoop (host nodeId) nodeId (pre ++ rest) = rulesLoop (host nodeId) nodeId rest.
Proof.
  induction 1 as [|r pre Hr _ IH]; [done|].
  rewrite <- app_comm_cons, rulesLoop_cons. by rewrite Hr.
Qed.

Lemma rulesLoop_Some rules ov :
  rulesLoop (host nodeId) nodeId rules = Normal (Some ov) ↔
  ∃ pre rule post, rules = pre ++ rule :: post ∧
    Forall (λ r, applies host nodeId r = Normal false) pre ∧
    applies host nodeId rule = Normal true ∧ ov = styleOfRule rule.
Proof.
  split.
  - induction rules as [|r rules IH]; [done|].
    rewrite rulesLoop_cons. destruct (applies host nodeId r) as [[]|] eqn:Hr; [| |done].
    + intros [= <-]. by exists [], r, rules.
    + intros (pre & rule & post & -> & Hpre & Hrule & ->)%IH.
      exists (r :: pre), rule, post. split_and!; try done. by constructor.
  - intros (pre & rule & post & -> & Hpre & Hrule & ->).
    by rewrite rulesLoop_skip, rulesLoop_cons, Hrule.
Qed.

Lemma rulesLoop_None rules :
  rulesLoop (host nodeId) nodeId rules = Normal None ↔
  Forall (λ r, applies host nodeId r = Normal false) rules.
Proof.
  induction rules as [|r rules IH]; [by split; [constructor|]|].
  rewrite rulesLoop_cons, Forall_cons.
  destruct (applies host nodeId r) as [[]|]; [|rewrite IH|]; naive_solver.
Qed.

(** C3.  [getStyleFromRules] walks the rules in stored order and
    returns the override fields of the first rule that is enabled and
    whose predicate matches the node: it returns [ov] exactly when the
    list splits into rules that do not apply, then a rule that applies,
    and [ov] holds the colour, the shape and the size of that rule; it
    returns nothing exactly when no rule applies.  So of two applying
    rules the earlier one wins whatever follows it, and a disabled rule
    can be removed from the list without changing the answer - it is
    never the one returned. *)
Theorem getStyleFromRules_first_enabled_match (rules : list StyleRule.t) :
  (∀ ov, getStyleFromRules host rules nodeId = Normal (Some ov) ↔
     ∃ pre rule post, rules = pre ++ rule :: post ∧
       Forall (λ r, applies host nodeId r = Normal false) pre ∧
       applies host nodeId rule = Normal true ∧
       ov = {| RuleStyle.color := StyleRule.color rule;
               RuleStyle.shape := StyleRule.shape rule;
               RuleStyle.size := StyleRule.size rule |})
  ∧ (getStyleFromRules host rules nodeId = Normal None ↔
       Forall (λ r, applies host nodeId r = Normal false) rules)
  ∧ (∀ R0 R1 rest,
       applies host nodeId R0 = Normal true → applies host nodeId R1 = Normal true →
       getStyleFromRules host (R0 :: R1 :: rest) nodeId
       = Normal (Some {| RuleStyle.color := StyleRule.color R0;
                         RuleStyle.shape := StyleRule.shape R0;
                         RuleStyle.size := StyleRule.size R0 |}))
  ∧ (∀ pre rule post,
       StyleRule.enabled rule = false →
       getStyleFromRules host (pre ++ rule :: post) nodeId =
         getStyleFromRules host (pre ++ post) nodeId).
Proof.
  split_and!.
  - intros ov. rewrite getStyleFromRules_loop. apply rulesLoop_Some.
  - rewrite getStyleFromRules_loop. apply rulesLoop_None.
  - intros R0 R1 rest H0 _. by rewrite getStyleFromRules_loop, rulesLoop_cons, H0.
  - intros pre rule post Hoff. rewrite !getStyleFromRules_loop.
    induction pre as [|r pre IH]; simpl.
    + by rewrite Hoff.
    + by rewrite IH.
Qed.


End rule_matcher.

(** C3 on instances: of two enabled folder rules that match
    [Projects/X.md] the first is returned; a disabled matching rule in
    front of an enabled one is passed over. *)
Lemma getStyleFromRules_first_enabled_match_witness :
  getStyleFromRules noHost
    [folderRule "Projects/" (Some "#112233") true;
     folderRule "Projects/" (Some "#445566") true] "Projects/X.md"
  = Normal (Some {| RuleStyle.color := Some "#112233"; RuleStyle.shape := None;
                    RuleStyle.size := None |})
  ∧ getStyleFromRules noHost
      ([] ++ folderRule "Projects/" (Some "#000000") false ::
         [folderRule "Projects/" (Some "#445566") true]) "Projects/X.md"
    = getStyleFromRules noHost
        ([] ++ [folderRule "Projects/" (Some "#445566") true]) "Projects/X.md".
Proof.
  split.
  - apply (proj1 (proj2 (proj2
             (getStyleFromRules_first_enabled_match noHost "Projects/X.md" [])))
             (folderRule "Projects/" (Some "#112233") true)
             (folderRule "Projects/" (Some "#445566") true) []);
      reflexivity.
  - apply (proj2 (proj2 (proj2
             (getStyleFromRules_first_enabled_match noHost "Projects/X.md" [])))).
    reflexivity.
Defined.


(* ===================================================================== *)
(** ** Hexadecimal numerals *)
(* ===================================================================== *)

Lemma string_app_cons (c : ascii) (a b : string) :
  String c a +:+ b = String c (a +:+ b).
Proof. done. Qed.

Lemma string_app_nil (a : string) : "" +:+ a = a.
Proof. done. Qed.

Lemma ascii_of_code (c : ascii) (n : N) : N_of_ascii c = n → c = ascii_of_N n.
Proof. intros <-. by rewrite ascii_N_embedding. Qed.

Lemma hexDigit_digitOf (c : ascii) : JS.hexDigit c = digitOf c.
Proof. by destruct c as [[] [] [] [] [] [] [] []]. Qed.

(** *** White space *)

Lemma trimStart_whiteSpace (w s : string) :
  w ∈ whiteSpace → JS.trimStart (w +:+ s) = JS.trimStart s.
Proof.
  unfold whiteSpace. intros (cp & -> & Hcp)%list_elem_of_fmap.
  unfold whiteSpaceCodePoints in Hcp.
  repeat (apply elem_of_cons in Hcp as [->|Hcp]; [reflexivity|]).
  by apply elem_of_nil in Hcp.
Qed.

Lemma isSpace_whiteSpace (c : ascii) :
  JS.isSpace c = true → String c "" ∈ whiteSpace.
Proof.
  destruct c as [[] [] [] [] [] [] [] []]; intros Hspace; try discriminate Hspace;
    apply (bool_decide_unpack _); by vm_compute.
Qed.

Lemma isSpace2_whiteSpace (c1 c2 : ascii) :
  JS.isSpace2 c1 c2 = true → String c1 (String c2 "") ∈ whiteSpace.
Proof.
  unfold JS.isSpace2. intros [H1%N.eqb_eq H2%N.eqb_eq]%andb_true_iff.
  apply ascii_of_code in H1 as ->. apply ascii_of_code in H2 as ->.
  apply (bool_decide_unpack _). by vm_compute.
Qed.

Lemma isSpace3_whiteSpace (c1 c2 c3 : ascii) :
  JS.isSpace3 c1 c2 c3 = true → String c1 (String c2 (String c3 "")) ∈ whiteSpace.
Proof.
  intros Hspace.
  assert (N_of_ascii c1 = 225 ∧ N_of_ascii c2 = 154
          ∨ N_of_ascii c1 = 226 ∧ N_of_ascii c2 = 128
          ∨ N_of_ascii c1 = 226 ∧ N_of_ascii c2 = 129
          ∨ N_of_ascii c1 = 227 ∧ N_of_ascii c2 = 128
          ∨ N_of_ascii c1 = 239 ∧ N_of_ascii c2 = 187)%N as Hlead.
  { unfold JS.isSpace3 in Hspace. cbv zeta in Hspace.
    repeat (apply orb_true_iff in Hspace as [Hspace|Hspace]);
      repeat (apply andb_true_iff in Hspace as [Hspace ?]);
      apply N.eqb_eq in Hspace; repeat match goal with
        | H : (_ =? _)%N = true |- _ => apply N.eqb_eq in H
        end; lia. }
  destruct Hlead as [[H1 H2]|[[H1 H2]|[[H1 H2]|[[H1 H2]|[H1 H2]]]]];
    apply ascii_of_code in H1 as ->; apply ascii_of_code in H2 as ->;
    destruct c3 as [[] [] [] [] [] [] [] []]; vm_compute in Hspace;
    try discriminate Hspace; apply (bool_decide_unpack _); by vm_compute.
Qed.

(** [trimStart] takes white space off the front, and what it leaves
    does not begin with white space. *)
Lemma trimStart_split (s : string) :
  ∃ spaces, s = foldr String.app (JS.trimStart s) spaces
    ∧ Forall (λ w, w ∈ whiteSpace) spaces.
Proof.
  assert (∀ n s, (String.length s ≤ n)%nat →
            ∃ spaces, s = foldr String.app (JS.trimStart s) spaces
              ∧ Forall (λ w, w ∈ whiteSpace) spaces) as Hind; [|by eapply Hind].
  clear s. intros n. induction n as [|n IH]; intros s Hlen.
  { destruct s; [by exists []|simpl in Hlen; lia]. }
  destruct s as [|c1 rest1]; [by exists []|]. simpl in Hlen.
  cbn [JS.trimStart]. destruct (JS.isSpace c1) eqn:H1.
  { destruct (IH rest1) as (spaces & Hrest & Hspaces); [lia|].
    exists (String c1 "" :: spaces). split.
    - cbn [foldr]. rewrite <- Hrest. done.
    - constructor; [by apply isSpace_whiteSpace|done]. }
  destruct rest1 as [|c2 rest2]; [by exists []|]. simpl in Hlen.
  destruct (JS.isSpace2 c1 c2) eqn:H2.
  { destruct (IH rest2) as (spaces & Hrest & Hspaces); [lia|].
    exists (String c1 (String c2 "") :: spaces). split.
    - cbn [foldr]. rewrite <- Hrest. done.
    - constructor; [by apply isSpace2_whiteSpace|done]. }
  destruct rest2 as [|c3 rest3]; [by exists []|]. simpl in Hlen.
  destruct (JS.isSpace3 c1 c2 c3) eqn:H3; [|by exists []].
  destruct (IH rest3) as (spaces & Hrest & Hspaces); [lia|].
  exists (String c1 (String c2 (String c3 "")) :: spaces). split.
  - cbn [foldr]. rewrite <- Hrest. done.
  - constructor; [by apply isSpace3_whiteSpace|done].
Qed.

Lemma trimStart_fixed (s : string) :
  (∀ w, w ∈ whiteSpace → ¬ beginsWith s w) → JS.trimStart s = s.
Proof.
  intros Hnone. destruct s as [|c1 rest1]; [done|].
  cbn [JS.trimStart]. destruct (JS.isSpace c1) eqn:H1.
  { destruct (Hnone _ (isSpace_whiteSpace c1 H1)). by exists rest1. }
  destruct rest1 as [|c2 rest2]; [done|].
  destruct (JS.isSpace2 c1 c2) eqn:H2.
  { destruct (Hnone _ (isSpace2_whiteSpace c1 c2 H2)). by exists rest2. }
  destruct rest2 as [|c3 rest3]; [done|].
  destruct (JS.isSpace3 c1 c2 c3) eqn:H3; [|done].
  destruct (Hnone _ (isSpace3_whiteSpace c1 c2 c3 H3)). by exists rest3.
Qed.

Lemma trimStart_idempotent (s : string) : JS.trimStart (JS.trimStart s) = JS.trimStart s.
Proof.
  assert (∀ n s, (String.length s ≤ n)%nat →
            JS.trimStart (JS.trimStart s) = JS.trimStart s) as Hind; [|by eapply Hind].
  clear s. intros n. induction n as [|n IH]; intros s Hlen.
  { destruct s; [done|simpl in Hlen; lia]. }
  destruct s as [|c1 rest1]; [done|]. simpl in Hlen.
  cbn [JS.trimStart]. destruct (JS.isSpace c1) eqn:H1; [apply IH; lia|].
  destruct rest1 as [|c2 rest2]; [cbn [JS.trimStart]; by rewrite H1|]. simpl in Hlen.
  destruct (JS.isSpace2 c1 c2) eqn:H2; [apply IH; lia|].
  destruct rest2 as [|c3 rest3]; [cbn [JS.trimStart]; by rewrite H1, H2|]. simpl in Hlen.
  destruct (JS.isSpace3 c1 c2 c3) eqn:H3; [apply IH; lia|].
  cbn [JS.trimStart]. by rewrite H1, H2, H3.
Qed.

Lemma trimStart_no_whiteSpace (s w : string) :
  w ∈ whiteSpace → ¬ beginsWith (JS.trimStart s) w.
Proof.
  intros Hw [rest Hrest].
  pose proof (trimStart_idempotent s) as Hidem.
  rewrite Hrest, trimStart_whiteSpace in Hidem by done.
  assert (String.length (JS.trimStart rest) ≤ String.length rest)%nat as Hshort.
  { clear. assert (∀ n s, (String.length s ≤ n)%nat →
             (String.length (JS.trimStart s) ≤ String.length s)%nat) as Hind;
      [|by eapply Hind].
    intros n. induction n as [|n IH]; intros s Hlen.
    { destruct s; [done|simpl in Hlen; lia]. }
    destruct s as [|c1 rest1]; [done|]. simpl in Hlen.
    cbn [JS.trimStart]. destruct (JS.isSpace c1); [specialize (IH rest1); simpl; lia|].
    destruct rest1 as [|c2 rest2]; [done|]. simpl in Hlen.
    destruct (JS.isSpace2 c1 c2); [specialize (IH rest2); simpl; lia|].
    destruct rest2 as [|c3 rest3]; [done|]. simpl in Hlen.
    destruct (JS.isSpace3 c1 c2 c3); [specialize (IH rest3); simpl; lia|done]. }
  rewrite Hidem in Hshort.
  assert (0 < String.length w)%nat.
  { unfold whiteSpace in Hw. apply list_elem_of_fmap in Hw as (cp & -> & Hcp).
    unfold whiteSpaceCodePoints in Hcp.
    repeat (apply elem_of_cons in Hcp as [->|Hcp]; [vm_compute; lia|]).
    by apply elem_of_nil in Hcp. }
  assert (String.length (w +:+ rest) = String.length w + String.length rest)%nat.
  { clear. induction w as [|c w IH]; [done|]. rewrite string_app_cons. simpl. lia. }
  lia.
Qed.

Lemma trimStart_spaces (spaces : list string) (s : string) :
  Forall (λ w, w ∈ whiteSpace) spaces →
  (∀ w, w ∈ whiteSpace → ¬ beginsWith s w) →
  JS.trimStart (foldr String.app s spaces) = s.
Proof.
  intros Hspaces Hnone. induction Hspaces as [|w spaces Hw _ IH].
  - by apply trimStart_fixed.
  - cbn [foldr]. by rewrite trimStart_whiteSpace.
Qed.

(** *** Sign and prefix *)

Lemma splitSign_cases (t : string) :
  (∃ body, t = "-" +:+ body ∧ JS.splitSign t = (true, body))
  ∨ (∃ body, t = "+" +:+ body ∧ JS.splitSign t = (false, body))
  ∨ (¬ beginsWith t "-" ∧ ¬ beginsWith t "+" ∧ JS.splitSign t = (false, t)).
Proof.
  destruct t as [|c rest].
  { right. right. split_and!; [by intros [? [=]]|by intros [? [=]]|done]. }
  destruct c as [[] [] [] [] [] [] [] []];
    first [ by left; exists rest
          | by right; left; exists rest
          | right; right; split_and!; [by intros [? [=]]|by intros [? [=]]|done] ].
Qed.

Lemma stripHexPrefix_cases (body : string) :
  (∃ rest, body = "0x" +:+ rest ∧ JS.stripHexPrefix body = rest)
  ∨ (∃ rest, body = "0X" +:+ rest ∧ JS.stripHexPrefix body = rest)
  ∨ (¬ beginsWith body "0x" ∧ ¬ beginsWith body "0X" ∧ JS.stripHexPrefix body = body).
Proof.
  destruct body as [|c1 [|c2 rest]].
  { right. right. split_and!; [by intros [? [=]]|by intros [? [=]]|done]. }
  { right. right. split_and!; [by intros [? [=]]|by intros [? [=]]|].
    by destruct c1 as [[] [] [] [] [] [] [] []]. }
  destruct c1 as [[] [] [] [] [] [] [] []];
    try (right; right; split_and!; [by intros [? [=]]|by intros [? [=]]|done]).
  destruct c2 as [[] [] [] [] [] [] [] []];
    first [ by left; exists rest
          | by right; left; exists rest
          | right; right; split_and!; [by intros [? [=]]|by intros [? [=]]|done] ].
Qed.

(** *** Digits *)

Lemma numeralValue_nonneg (digits : string) : 0 ≤ numeralValue digits.
Proof.
  induction digits as [|c digits IH]; [done|]. cbn [numeralValue].
  assert (0 ≤ default 0 (digitOf c)).
  { rewrite <- hexDigit_digitOf. unfold JS.hexDigit. cbv zeta.
    repeat case_match; simpl; lia. }
  assert (0 ≤ 16 ^ Z.of_nat (String.length digits)) by (apply Z.pow_nonneg; lia).
  nia.
Qed.

Lemma digitOf_range (c : ascii) (d : Z) : digitOf c = Some d → 0 ≤ d < 16.
Proof.
  rewrite <- hexDigit_digitOf. unfold JS.hexDigit. cbv zeta.
  repeat case_match; intros [= <-]; lia.
Qed.

Lemma numeralValue_bound (digits : string) :
  allHex digits = true → numeralValue digits < 16 ^ Z.of_nat (String.length digits).
Proof.
  induction digits as [|c digits IH]; [done|]. cbn [allHex numeralValue].
  intros [[d Hd]%bool_decide_eq_true Hrest]%andb_true_iff. rewrite Hd. change (default 0 (Some d)) with d.
  pose proof (digitOf_range c d Hd). specialize (IH Hrest).
  change (String.length (String c digits)) with (S (String.length digits)).
  rewrite Nat2Z.inj_succ, Z.pow_succ_r by lia.
  pose proof (numeralValue_nonneg digits). nia.
Qed.

Lemma hexDigits_step (acc : option Z) (c : ascii) (s : string) :
  JS.hexDigits acc (String c s)
  = match digitOf c with
    | Some d => JS.hexDigits (Some (16 * default 0 acc + d)) s
    | None => acc
    end.
Proof. cbn [JS.hexDigits]. by rewrite hexDigit_digitOf. Qed.

Lemma hexDigits_tail (acc : option Z) (tail : string) :
  (∀ c rest, tail = String c rest → digitOf c = None) → JS.hexDigits acc tail = acc.
Proof.
  intros Htail. destruct tail as [|c rest]; [done|].
  by rewrite hexDigits_step, (Htail c rest).
Qed.

Lemma hexDigits_numeral (digits tail : string) (acc : Z) :
  allHex digits = true → (∀ c rest, tail = String c rest → digitOf c = None) →
  JS.hexDigits (Some acc) (digits +:+ tail)
  = Some (acc * 16 ^ Z.of_nat (String.length digits) + numeralValue digits).
Proof.
  intros Hhex Htail. revert acc Hhex.
  induction digits as [|c digits IH]; intros acc Hhex.
  - rewrite string_app_nil, hexDigits_tail by done. simpl. f_equal. lia.
  - cbn [allHex] in Hhex.
    apply andb_true_iff in Hhex as [[d Hd]%bool_decide_eq_true Hrest].
    rewrite string_app_cons, hexDigits_step, Hd, IH by done.
    cbn [numeralValue]. rewrite Hd. change (default 0 (Some d)) with d.
    change (default 0 (Some acc)) with acc.
    change (String.length (String c digits)) with (S (String.length digits)).
    rewrite Nat2Z.inj_succ, Z.pow_succ_r by lia. f_equal. ring.
Qed.

Lemma hexDigits_run (digits tail : string) :
  allHex digits = true → (∀ c rest, tail = String c rest → digitOf c = None) →
  JS.hexDigits None (digits +:+ tail)
  = if decide (digits = "") then None else Some (numeralValue digits).
Proof.
  intros Hhex Htail. destruct digits as [|c digits].
  - rewrite string_app_nil, hexDigits_tail by done. done.
  - rewrite decide_False by done. cbn [allHex] in Hhex.
    apply andb_true_iff in Hhex as [[d Hd]%bool_decide_eq_true Hrest].
    rewrite string_app_cons, hexDigits_step, Hd, hexDigits_numeral by done.
    cbn [numeralValue]. rewrite Hd. change (default 0 (Some d)) with d.
    change (default 0 None) with 0. f_equal; ring.
Qed.

Lemma hexRun_split (s : string) :
  ∃ digits tail, s = digits +:+ tail ∧ allHex digits = true
    ∧ ∀ c rest, tail = String c rest → digitOf c = None.
Proof.
  induction s as [|c s (digits & tail & Hs & Hhex & Htail)].
  - exists "", "". split_and!; done.
  - destruct (digitOf c) as [d|] eqn:Hd.
    + exists (String c digits), tail. split_and!; [by rewrite string_app_cons, <- Hs| |done].
      cbn [allHex]. rewrite Hhex, Hd. by rewrite bool_decide_eq_true_2.
    + exists "", (String c s). split_and!; [done|done|]. by intros ? ? [= <- <-].
Qed.

(** *** Rounding to a double *)

Lemma roundToDouble_small (m : Z) : m < 2 ^ 53 → JS.roundToDouble m = m.
Proof. intros Hm. unfold JS.roundToDouble. by rewrite (proj2 (Z.ltb_lt _ _)). Qed.

(** From [2^53] on: [m = q * P + r] for the unit [P] of the last place,
    and the result is [q * P] or [(q + 1) * P]. *)
Lemma roundToDouble_large (m : Z) :
  2 ^ 53 ≤ m →
  ∃ e P q r, 1 ≤ e ∧ P = 2 ^ e ∧ 2 ^ (Z.log2 m - 51) = 2 * P
    ∧ m = q * P + r ∧ 0 ≤ r < P ∧ 2 ^ 52 ≤ q < 2 ^ 53
    ∧ JS.roundToDouble m
      = if (P <? 2 * r) || ((2 * r =? P) && Z.odd q) then (q + 1) * P else q * P.
Proof.
  intros Hm.
  assert (0 < m) as Hpos by (pose proof (Z.pow_pos_nonneg 2 53); lia).
  assert (53 ≤ Z.log2 m) as Hlog.
  { rewrite <- (Z.log2_pow2 53) by lia. by apply Z.log2_le_mono. }
  destruct (Z.log2_spec m Hpos) as [Hlow Hhigh].
  set (e := Z.log2 m - 52).
  exists e, (2 ^ e), (m / 2 ^ e), (m mod 2 ^ e).
  assert (0 < 2 ^ e) as HP by (apply Z.pow_pos_nonneg; lia).
  assert (2 ^ e = 2 * 2 ^ (e - 1)) as Hhalf.
  { rewrite <- Z.pow_succ_r by lia. f_equal. lia. }
  assert (2 ^ Z.log2 m = 2 ^ 52 * 2 ^ e) as Hsplit.
  { rewrite <- Z.pow_add_r by lia. f_equal. lia. }
  assert (2 ^ Z.succ (Z.log2 m) = 2 ^ 53 * 2 ^ e) as Hsplit'.
  { rewrite <- Z.pow_add_r by lia. f_equal. lia. }
  pose proof (Z.div_mod m (2 ^ e) ltac:(lia)) as Hdiv.
  pose proof (Z.mod_pos_bound m (2 ^ e) HP) as Hmod.
  split_and!.
  - lia.
  - done.
  - rewrite <- Z.pow_succ_r by lia. f_equal. lia.
  - lia.
  - lia.
  - lia.
  - rewrite Hsplit in Hlow. nia.
  - rewrite Hsplit' in Hhigh. nia.
  - unfold JS.roundToDouble. rewrite (proj2 (Z.ltb_ge _ _)) by lia. cbv zeta.
    fold e.
    assert ((2 ^ (e - 1) <? m mod 2 ^ e) = (2 ^ e <? 2 * (m mod 2 ^ e))) as ->.
    { destruct (Z.ltb_spec (2 ^ (e - 1)) (m mod 2 ^ e)),
               (Z.ltb_spec (2 ^ e) (2 * (m mod 2 ^ e))); lia. }
    assert ((m mod 2 ^ e =? 2 ^ (e - 1)) = (2 * (m mod 2 ^ e) =? 2 ^ e)) as ->.
    { destruct (Z.eqb_spec (m mod 2 ^ e) (2 ^ (e - 1))),
               (Z.eqb_spec (2 * (m mod 2 ^ e)) (2 ^ e)); lia. }
    done.
Qed.

Lemma representable_between (P q w e : Z) :
  1 ≤ e → P = 2 ^ e → 2 ^ 52 ≤ q → representable w →
  w ≤ q * P ∨ (q + 1) * P ≤ w.
Proof.
  intros He -> Hq (qw & ew & -> & Hqw & Hew).
  assert (0 < 2 ^ e) by (apply Z.pow_pos_nonneg; lia).
  destruct (decide (e ≤ ew)) as [Hge|Hlt].
  - assert (2 ^ ew = 2 ^ (ew - e) * 2 ^ e) as ->.
    { rewrite <- Z.pow_add_r by lia. f_equal. lia. }
    assert (0 < 2 ^ (ew - e)) by (apply Z.pow_pos_nonneg; lia).
    destruct (decide (qw * 2 ^ (ew - e) ≤ q)); [left|right]; nia.
  - left. assert (2 * 2 ^ ew ≤ 2 ^ e).
    { rewrite <- Z.pow_succ_r by lia. apply Z.pow_le_mono_r; lia. }
    assert (0 < 2 ^ ew) by (apply Z.pow_pos_nonneg; lia).
    nia.
Qed.

Lemma even_multiple (q P : Z) : Z.odd q = false → (2 * P | q * P).
Proof.
  intros Hodd. rewrite <- Z.negb_even in Hodd. apply negb_false_iff in Hodd.
  apply Z.even_spec in Hodd as [k ->]. exists k. lia.
Qed.

Lemma roundToDouble_nearest (m : Z) : 0 ≤ m → nearestDouble m (JS.roundToDouble m).
Proof.
  intros Hm. destruct (decide (m < 2 ^ 53)) as [Hsmall|Hlarge].
  { rewrite roundToDouble_small by done. split.
    - exists m, 0. rewrite Z.pow_0_r. lia.
    - intros w _ Hw. left. lia. }
  destruct (roundToDouble_large m) as (e & P & q & r & He & HP & Hunit & Hmqr & Hr & Hq & ->);
    [lia|].
  assert (0 < P) by (subst P; apply Z.pow_pos_nonneg; lia).
  split.
  - destruct ((P <? 2 * r) || ((2 * r =? P) && Z.odd q)).
    + destruct (decide (q + 1 < 2 ^ 53)).
      * exists (q + 1), e. subst P. lia.
      * exists (2 ^ 52), (e + 1). rewrite Z.pow_add_r by lia. subst P.
        change (2 ^ 53) with (2 * 2 ^ 52) in *. split; [nia|lia].
    + exists q, e. subst P. lia.
  - intros w Hw Hne. rewrite Hunit.
    pose proof (representable_between P q w e He HP ltac:(lia) Hw) as Hside.
    destruct (P <? 2 * r) eqn:Hup; cbn [orb] in *.
    { apply Z.ltb_lt in Hup. left. nia. }
    apply Z.ltb_ge in Hup.
    destruct (2 * r =? P) eqn:Htie; cbn [andb] in *.
    + apply Z.eqb_eq in Htie. destruct (Z.odd q) eqn:Hodd.
      * destruct (decide (w = q * P)) as [->|?].
        -- right. split; [lia|].
           replace ((q + 1) * P) with ((q + 1) * P) by done.
           apply even_multiple. rewrite Z.odd_add. by rewrite Hodd.
        -- left. nia.
      * destruct (decide (w = (q + 1) * P)) as [->|?].
        -- right. split; [lia|]. by apply even_multiple.
        -- left. nia.
    + apply Z.eqb_neq in Htie. left. nia.
Qed.

Lemma nearestDouble_unique (m v : Z) : 0 ≤ m → nearestDouble m v → v = JS.roundToDouble m.
Proof.
  intros Hm [Hrep Hnear].
  destruct (roundToDouble_nearest m Hm) as [Hrep' Hnear'].
  destruct (decide (v = JS.roundToDouble m)) as [|Hne]; [done|exfalso].
  specialize (Hnear _ Hrep' ltac:(done)). specialize (Hnear' _ Hrep Hne).
  destruct Hnear as [?|[Htie Hv]], Hnear' as [?|[Htie' Hu]]; try lia.
  destruct (decide (m < 2 ^ 53)) as [Hsmall|Hlarge].
  { rewrite roundToDouble_small in * by done. lia. }
  destruct (roundToDouble_large m) as (e & P & q & r & He & HP & Hunit & Hmqr & Hr & Hq & Hround);
    [lia|].
  assert (0 < P) by (subst P; apply Z.pow_pos_nonneg; lia).
  rewrite Hunit in Hv, Hu. destruct Hv as [kv Hv], Hu as [ku Hu].
  assert (v + JS.roundToDouble m = 2 * m) as Hsum by lia.
  assert (r = 0) as Hr0.
  { assert ((kv + ku - q) * P = r) as Hmul by nia.
    destruct (decide (kv + ku - q = 0)); [nia|]. nia. }
  rewrite Hround in *. subst r.
  rewrite (proj2 (Z.ltb_ge _ _)) in * by lia.
  rewrite (proj2 (Z.eqb_neq _ _)) in * by lia. cbn [orb andb] in *. lia.
Qed.

Lemma toNumber_numberOf (negative : bool) (m : Z) (n : JS.number) :
  0 ≤ m → (numberOf negative m n ↔ n = JS.toNumber negative m).
Proof.
  intros Hm. unfold numberOf, JS.toNumber. destruct (decide (m = 0)) as [->|Hne].
  { done. }
  rewrite (proj2 (Z.eqb_neq _ _)) by done. cbv zeta. split.
  - intros (v & ->%nearestDouble_unique & ->); [|done].
    destruct (decide _) as [Hlt|Hge].
    + by rewrite (proj2 (Z.ltb_lt _ _)).
    + by rewrite (proj2 (Z.ltb_ge _ _)) by lia.
  - intros ->. exists (JS.roundToDouble m). split; [by apply roundToDouble_nearest|].
    destruct (decide _) as [Hlt|Hge].
    + by rewrite (proj2 (Z.ltb_lt _ _)).
    + by rewrite (proj2 (Z.ltb_ge _ _)) by lia.
Qed.

(** *** [parseInt(s, 16)] against the specification's reading *)

Lemma splitSign_split (t : string) :
  ∃ sign body, t = sign +:+ body
    ∧ JS.splitSign t = (bool_decide (sign = "-"), body)
    ∧ (sign = "-" ∨ sign = "+"
       ∨ sign = "" ∧ ¬ beginsWith body "-" ∧ ¬ beginsWith body "+").
Proof.
  destruct (splitSign_cases t)
    as [(body & Ht & Heq)|[(body & Ht & Heq)|(Hminus & Hplus & Heq)]].
  - exists "-", body. split_and!; [done|done|by left].
  - exists "+", body. split_and!; [done|done|by right; left].
  - exists "", t. split_and!; [done|done|by right; right].
Qed.

Lemma stripHexPrefix_split (body : string) :
  ∃ prefix rest, body = prefix +:+ rest
    ∧ JS.stripHexPrefix body = rest
    ∧ (prefix = "0x" ∨ prefix = "0X"
       ∨ prefix = "" ∧ ¬ beginsWith rest "0x" ∧ ¬ beginsWith rest "0X").
Proof.
  destruct (stripHexPrefix_cases body)
    as [(rest & Hbody & Heq)|[(rest & Hbody & Heq)|(Hx & HX & Heq)]].
  - exists "0x", rest. split_and!; [done|done|by left].
  - exists "0X", rest. split_and!; [done|done|by right; left].
  - exists "", body. split_and!; [done|done|by right; right].
Qed.

Lemma parseInt16_parses (s : string) (n : JS.number) :
  parsesAsHex s n ↔ JS.parseInt16 s = n.
Proof.
  split.
  - intros (spaces & sign & prefix & digits & tail & -> & Hspaces & Hnone & Hsign
            & Hprefix & Hhex & Htail & Hn).
    unfold JS.parseInt16. rewrite trimStart_spaces by done.
    assert (JS.splitSign (sign +:+ prefix +:+ digits +:+ tail)
            = (bool_decide (sign = "-"), prefix +:+ digits +:+ tail)) as ->.
    { destruct Hsign as [->|[->|(-> & Hminus & Hplus)]]; [done|done|].
      rewrite string_app_nil in *.
      destruct (splitSign_cases (prefix +:+ digits +:+ tail))
        as [(body & Hbody & _)|[(body & Hbody & _)|(_ & _ & ->)]]; [| |done].
      - destruct Hminus. by exists body.
      - destruct Hplus. by exists body. }
    assert (JS.stripHexPrefix (prefix +:+ digits +:+ tail) = digits +:+ tail) as ->.
    { destruct Hprefix as [->|[->|(-> & Hx & HX)]]; [done|done|].
      rewrite string_app_nil in *.
      destruct (stripHexPrefix_cases (digits +:+ tail))
        as [(body & Hbody & _)|[(body & Hbody & _)|(_ & _ & ->)]]; [| |done].
      - destruct Hx. by exists body.
      - destruct HX. by exists body. }
    rewrite hexDigits_run by done.
    destruct (decide (digits = "")); [done|].
    symmetry. by apply toNumber_numberOf; [apply numeralValue_nonneg|].
  - intros <-. unfold JS.parseInt16.
    destruct (trimStart_split s) as (spaces & Hs & Hspaces).
    pose proof (trimStart_no_whiteSpace s) as Hnone.
    destruct (splitSign_split (JS.trimStart s)) as (sign & body & Ht & -> & Hsign).
    destruct (stripHexPrefix_split body) as (prefix & rest & Hbody & -> & Hprefix).
    destruct (hexRun_split rest) as (digits & tail & Hrest & Hhex & Htail).
    exists spaces, sign, prefix, digits, tail.
    rewrite <- Hrest, <- Hbody, <- Ht.
    split_and!; [done|done|by intros w Hw; apply Hnone|done|done|done|done|].
    rewrite Hrest, hexDigits_run by done.
    destruct (decide (digits = "")); [done|].
    by apply toNumber_numberOf; [apply numeralValue_nonneg|].
Qed.

Lemma string_app_nil_r (a : string) : a +:+ "" = a.
Proof. induction a as [|c a IH]; [done|]. by rewrite string_app_cons, IH. Qed.

Lemma prefix_empty (s : string) : String.prefix "" s = true.
Proof. by destruct s. Qed.

Lemma startsWith_spec (s p : string) :
  JS.startsWith s p = true ↔ ∃ rest, s = p +:+ rest.
Proof.
  unfold JS.startsWith. revert s. induction p as [|c p IH]; intros s.
  - rewrite prefix_empty. split; [by exists s|done].
  - destruct s as [|c' s]; simpl.
    + split; [done|by intros [? ?]].
    + destruct (Ascii.ascii_dec c c') as [->|Hne].
      * rewrite IH. split; intros [rest Hrest]; exists rest; [by rewrite Hrest|].
        by injection Hrest.
      * split; [done|]. intros [rest [=]]. done.
Qed.

Lemma beginsWith_startsWith (s p : string) : beginsWith s p ↔ JS.startsWith s p = true.
Proof. symmetry. apply startsWith_spec. Qed.

(** A numeral that stands at the very start: no white space, no sign
    and no [0x] are in the way. *)
Lemma parseInt16_numeral (digits tail : string) :
  digits ≠ "" → allHex digits = true →
  (∀ c rest, tail = String c rest → digitOf c = None) →
  ¬ (digits = "0" ∧ (beginsWith tail "x" ∨ beginsWith tail "X")) →
  JS.parseInt16 (digits +:+ tail) = JS.toNumber false (numeralValue digits).
Proof.
  intros Hne Hhex Htail Hzero. destruct digits as [|c digits]; [done|].
  pose proof Hhex as Hhex'. cbn [allHex] in Hhex'.
  apply andb_true_iff in Hhex' as [[d Hd]%bool_decide_eq_true Hrest].
  apply parseInt16_parses. exists [], "", "", (String c digits), tail.
  rewrite !string_app_nil, decide_False by done.
  split_and!; [done|done| | | |done|done|].
  - unfold whiteSpace. intros w (cp & -> & Hcp)%list_elem_of_fmap [rest Heq].
    unfold whiteSpaceCodePoints in Hcp.
    repeat (apply elem_of_cons in Hcp as [->|Hcp];
            [injection Heq as -> _; by vm_compute in Hd|]).
    by apply elem_of_nil in Hcp.
  - right. right. split_and!; [done| |]; intros [rest Heq];
      injection Heq as -> _; by vm_compute in Hd.
  - right. right. split_and!; [done| |]; intros [rest Heq];
      injection Heq as -> Heq; destruct digits as [|c2 digits];
      try (injection Heq as -> _; cbn [allHex] in Hrest; by vm_compute in Hrest);
      rewrite string_app_nil in Heq; destruct Hzero; (split; [done|]);
      [left|right]; by exists rest.
  - rewrite bool_decide_eq_false_2 by done.
    by apply toNumber_numberOf; [apply numeralValue_nonneg|].
Qed.

Lemma toNumber_exact (m : Z) : 0 ≤ m < 2 ^ 53 → JS.toNumber false m = JS.Num m.
Proof.
  intros Hm. unfold JS.toNumber. destruct (Z.eqb_spec m 0) as [->|Hne]; [done|].
  cbv zeta. rewrite roundToDouble_small by lia.
  rewrite (proj2 (Z.ltb_lt _ _)); [done|].
  assert (2 ^ 53 < 2 ^ 1024) by (apply Z.pow_lt_mono_r; lia). lia.
Qed.

Lemma numeral_exact (digits : string) :
  allHex digits = true → (String.length digits ≤ 13)%nat →
  0 ≤ numeralValue digits < 2 ^ 53.
Proof.
  intros Hhex Hlen. pose proof (numeralValue_nonneg digits).
  pose proof (numeralValue_bound digits Hhex).
  assert (16 ^ Z.of_nat (String.length digits) ≤ 16 ^ 13)
    by (apply Z.pow_le_mono_r; lia).
  change (16 ^ 13) with (2 ^ 52) in *.
  assert (2 ^ 52 < 2 ^ 53) by (apply Z.pow_lt_mono_r; lia). lia.
Qed.

(* ===================================================================== *)
(** ** Colours *)
(* ===================================================================== *)

Lemma truthyStr_Some (c : string) : c ≠ "" → JS.truthyStr (Some c) = true.
Proof. intros Hc. simpl. by apply negb_true_iff, String.eqb_neq. Qed.

Lemma orStr_truthy (c : string) (b : option string) :
  c ≠ "" → JS.orStr (Some c) b = Some c.
Proof. intros Hc. unfold JS.orStr. by rewrite truthyStr_Some. Qed.

Lemma parseColor_hash (rest : string) : parseColor ("#" +:+ rest) = JS.parseInt16 rest.
Proof. by destruct rest. Qed.

Lemma parseColor_other (color : string) :
  JS.startsWith color "#" = false → parseColor color = JS.Num 16777215.
Proof. intros H. unfold parseColor. by rewrite H. Qed.

(** C10.  [parseColor] sends a string ["#" ++ rest] to the number the
    remainder denotes when it is parsed as hexadecimal, the way the
    language defines [parseInt(rest, 16)]: white space, sign and [0x]
    are passed over, the longest run of hexadecimal digits is read, and
    the result is its signed value as a double ([NaN] when there is no
    digit).  In particular a run of at most 13 digits right behind the
    ['#'] gives exactly the integer the digits write in base 16.  Every
    string that does not begin with ['#'] goes to [0xFFFFFF]; hence a
    rule colour or an active-node colour that is not written with ['#']
    (a CSS colour name, say) resolves to a white tint. *)
Theorem parseColor_hash_or_white :
  (∀ rest n, parseColor ("#" +:+ rest) = n ↔ parsesAsHex rest n)
  ∧ (∀ digits tail,
       digits ≠ "" → allHex digits = true → (String.length digits ≤ 13)%nat →
       (∀ c rest, tail = String c rest → digitOf c = None) →
       ¬ (digits = "0" ∧ (beginsWith tail "x" ∨ beginsWith tail "X")) →
       parseColor ("#" +:+ digits +:+ tail) = JS.Num (numeralValue digits))
  ∧ (∀ color, ¬ beginsWith color "#" → parseColor color = JS.Num 16777215)
  ∧ (∀ settings activeNodeId nodeId hopLevel ruleStyle color,
       isActive activeNodeId (Some nodeId) = false →
       RuleStyle.color ruleStyle = Some color → color ≠ "" →
       JS.startsWith color "#" = false →
       ∃ st, resolveNodeStyle settings activeNodeId nodeId hopLevel (Some ruleStyle)
               = Normal st
             ∧ NodeStyleResult.tint st = JS.Num 16777215)
  ∧ (∀ settings nodeId hopLevel ruleStyle,
       nodeId ≠ "" →
       JS.startsWith (Settings.selectedNodeColor settings) "#" = false →
       ∃ st, resolveNodeStyle settings (Some nodeId) nodeId hopLevel ruleStyle = Normal st
             ∧ NodeStyleResult.tint st = JS.Num 16777215).
Proof.
  split_and!.
  - intros rest n. rewrite parseColor_hash. symmetry. apply parseInt16_parses.
  - intros digits tail Hne Hhex Hlen Htail Hzero.
    rewrite parseColor_hash, parseInt16_numeral by done.
    apply toNumber_exact. by apply numeral_exact.
  - intros color Hcolor. apply parseColor_other.
    destruct (JS.startsWith color "#") eqn:Hstarts; [|done].
    by apply beginsWith_startsWith in Hstarts.
  - intros settings activeNodeId nodeId hopLevel ruleStyle color Hact Hcol Hne Hhash.
    unfold resolveNodeStyle, nodeColorAlpha. rewrite Hact. simpl. rewrite Hcol.
    rewrite !orStr_truthy by done.
    repeat case_match; simplify_eq/=; eexists; (split; [done|]); simpl;
      by apply parseColor_other.
  - intros settings nodeId hopLevel ruleStyle Hne Hhash.
    unfold resolveNodeStyle, nodeColorAlpha, isActive.
    rewrite truthyStr_Some by done. rewrite bool_decide_eq_true_2 by done. simpl.
    eexists. split; [done|]. simpl. by apply parseColor_other.
Qed.

(** C10 on instances: a hexadecimal colour, and the colour name [red]. *)
Lemma parseColor_hash_or_white_witness :
  parseColor "#112233" = JS.Num 1122867 ∧ parseColor "red" = JS.Num 16777215.
Proof.
  split.
  - apply (proj1 (proj2 parseColor_hash_or_white) "112233" "");
      [discriminate|reflexivity|simpl; lia|discriminate|].
    intros [[=] _].
  - apply (proj1 (proj2 (proj2 parseColor_hash_or_white)) "red").
    intros [rest [=]].
Defined.

(* ===================================================================== *)
(** ** Node styles *)
(* ===================================================================== *)

Lemma isActive_other (activeNodeId : option string) (nodeId : string) :
  Some nodeId ≠ activeNodeId → isActive activeNodeId (Some nodeId) = false.
Proof.
  intros H. unfold isActive. rewrite bool_decide_eq_false_2 by done.
  apply andb_false_r.
Qed.

Lemma in_hop_range (hopLevel maxHops : Z) :
  1 ≤ hopLevel ≤ maxHops → (0 <? hopLevel) && (hopLevel <=? maxHops) = true.
Proof. intros. apply andb_true_iff. split; [apply Z.ltb_lt|apply Z.leb_le]; lia. Qed.

(** C2.  With an active node known, the active node itself gets the
    configured active colour, opacity 1 and the configured active size,
    whatever rule matches it (only the shape can come from the rule).  A
    node other than the active one whose hop level lies in [1..maxHops]
    gets the colour of a matching rule that carries one, in place of
    the colour configured for its hop, which it gets when the rule
    carries none. *)
Theorem active_node_style_ignores_rules :
  (∀ settings nodeId hopLevel ruleStyle,
     nodeId ≠ "" →
     resolveNodeStyle settings (Some nodeId) nodeId hopLevel ruleStyle =
       Normal {| NodeStyleResult.tint := parseColor (Settings.selectedNodeColor settings);
                 NodeStyleResult.alpha := 1%Q;
                 NodeStyleResult.shape :=
                   default (Settings.defaultNodeShape settings)
                     (ruleStyle ≫= RuleStyle.shape);
                 NodeStyleResult.size := Settings.activeNodeSize settings |})
  ∧ (∀ settings activeNodeId nodeId hopLevel ruleStyle color,
       Some nodeId ≠ activeNodeId →
       1 ≤ hopLevel ≤ Settings.maxHops settings →
       RuleStyle.color ruleStyle = Some color → color ≠ "" →
       ∃ st, resolveNodeStyle settings activeNodeId nodeId hopLevel (Some ruleStyle)
               = Normal st
             ∧ NodeStyleResult.tint st = parseColor color
             ∧ NodeStyleResult.alpha st = 1%Q)
  ∧ (∀ settings activeNodeId nodeId hopLevel ruleStyle hopColor,
       Some nodeId ≠ activeNodeId →
       1 ≤ hopLevel ≤ Settings.maxHops settings →
       ruleStyle ≫= RuleStyle.color = None →
       Settings.hopColors settings !! Z.to_nat (hopLevel - 1) = Some hopColor →
       hopColor ≠ "" →
       ∃ st, resolveNodeStyle settings activeNodeId nodeId hopLevel ruleStyle = Normal st
             ∧ NodeStyleResult.tint st = parseColor hopColor
             ∧ NodeStyleResult.alpha st = 1%Q).
Proof.
  split_and!.
  - intros settings nodeId hopLevel ruleStyle Hne.
    unfold resolveNodeStyle, nodeColorAlpha, isActive.
    rewrite truthyStr_Some by done. by rewrite bool_decide_eq_true_2.
  - intros settings activeNodeId nodeId hopLevel ruleStyle color Hact Hhop Hcol Hne.
    unfold resolveNodeStyle, nodeColorAlpha.
    rewrite isActive_other, in_hop_range by done. simpl. rewrite Hcol.
    rewrite orStr_truthy by done. by eexists.
  - intros settings activeNodeId nodeId hopLevel ruleStyle hopColor Hact Hhop Hcol Hidx Hne.
    unfold resolveNodeStyle, nodeColorAlpha.
    rewrite isActive_other, in_hop_range by done. rewrite Hcol.
    unfold at_ at 1. replace (hopLevel - 1 <? 0) with false by (symmetry; apply Z.ltb_ge; lia).
    rewrite Hidx. unfold JS.orStr at 1. simpl.
    rewrite orStr_truthy by done. by eexists.
Qed.

(** C2 on Scenario C: the folder rule [Projects/] with colour [#112233]
    does not recolour the active node [Projects/X.md], and does recolour
    it when it is a hop-1 neighbour of another active node. *)
Lemma active_node_style_ignores_rules_witness :
  resolveNodeStyle DEFAULT_SETTINGS (Some "Projects/X.md") "Projects/X.md" 0
    (Some {| RuleStyle.color := Some "#112233"; RuleStyle.shape := None;
             RuleStyle.size := None |})
  = Normal {| NodeStyleResult.tint := JS.Num 16739179;
              NodeStyleResult.alpha := 1%Q;
              NodeStyleResult.shape := CIRCLE;
              NodeStyleResult.size := (11 # 10)%Q |}
  ∧ ∃ st, resolveNodeStyle DEFAULT_SETTINGS (Some "Home.md") "Projects/X.md" 1
            (Some {| RuleStyle.color := Some "#112233"; RuleStyle.shape := None;
                     RuleStyle.size := None |}) = Normal st
          ∧ NodeStyleResult.tint st = JS.Num 1122867
          ∧ NodeStyleResult.alpha st = 1%Q.
Proof.
  split.
  - exact (proj1 active_node_style_ignores_rules DEFAULT_SETTINGS "Projects/X.md" 0
             (Some {| RuleStyle.color := Some "#112233"; RuleStyle.shape := None;
                      RuleStyle.size := None |})
             ltac:(discriminate)).
  - exact (proj1 (proj2 active_node_style_ignores_rules) DEFAULT_SETTINGS (Some "Home.md")
             "Projects/X.md" 1
             {| RuleStyle.color := Some "#112233"; RuleStyle.shape := None;
                RuleStyle.size := None |}
             "#112233" ltac:(discriminate) ltac:(simpl; lia) eq_refl ltac:(discriminate)).
Defined.

(* ===================================================================== *)
(** ** Edge styles *)
(* ===================================================================== *)

Lemma positiveHop_pos (hop : Z) : 0 < hop → positiveHop hop = Some hop.
Proof. intros. unfold positiveHop. by rewrite (proj2 (Z.ltb_lt 0 hop)). Qed.

Lemma positiveHop_nonpos (hop : Z) : hop ≤ 0 → positiveHop hop = None.
Proof. intros. unfold positiveHop. by rewrite (proj2 (Z.ltb_ge 0 hop)). Qed.

Lemma minHopOf_spec (nodeHopLevels : gmap string Z) (l : link) :
  match minHopOf nodeHopLevels l with
  | Some minHop =>
      isMinHop (endpointHop nodeHopLevels (source l))
        (endpointHop nodeHopLevels (target l)) minHop
  | None =>
      endpointHop nodeHopLevels (source l) ≤ 0 ∧ endpointHop nodeHopLevels (target l) ≤ 0
  end.
Proof.
  unfold minHopOf, JS.nullish, isMinHop, endpointHop.
  set (a := default (-1) (nodeHopLevels !! default "" (source l))).
  set (b := default (-1) (nodeHopLevels !! default "" (target l))).
  destruct (Z_lt_le_dec 0 a) as [Ha|Ha], (Z_lt_le_dec 0 b) as [Hb|Hb];
    rewrite ?(positiveHop_pos a), ?(positiveHop_pos b),
      ?(positiveHop_nonpos a), ?(positiveHop_nonpos b) by done; simpl; lia.
Qed.

Lemma isMinHop_unique (a b m1 m2 : Z) : isMinHop a b m1 → isMinHop a b m2 → m1 = m2.
Proof. unfold isMinHop. lia. Qed.

Lemma orColor_configured (l : list string) (i : Z) (c fallback : string) :
  0 ≤ i → l !! Z.to_nat i = Some c → c ≠ "" → orColor (at_ l i) fallback = c.
Proof.
  intros Hi Hl Hc. unfold orColor, at_.
  rewrite (proj2 (Z.ltb_ge i 0)) by done. rewrite Hl. by rewrite orStr_truthy.
Qed.

Lemma orColor_missing (l : list string) (i : Z) (fallback : string) :
  0 ≤ i → l !! Z.to_nat i = None ∨ l !! Z.to_nat i = Some "" →
  orColor (at_ l i) fallback = fallback.
Proof.
  intros Hi Hl. unfold orColor, at_.
  rewrite (proj2 (Z.ltb_ge i 0)) by done. by destruct Hl as [-> | ->].
Qed.

(** C4.  In edge colour mode [by-hop], for a link none of whose
    endpoints is the active node, let [minHop] be the smaller of the two
    endpoints' hop levels, a non-positive level counting as infinite.
    - If [minHop ≤ maxHops], the edge has opacity 0.7, the default width
      and the hop-edge colour configured at index [minHop - 1] (the base
      edge colour when no colour is configured at that index).
    - If [minHop] is finite and above [maxHops], the edge has the base
      edge colour, opacity 0.4 and the disconnected width.
    - If both hop levels are non-positive, the edge has the base edge
      colour, the configured disconnected opacity and the disconnected
      width. *)
Theorem by_hop_edge_style
    (settings : Settings.t) (activeNodeId : option string)
    (nodeStyles : gmap string NodeStyleResult.t) (nodeHopLevels : gmap string Z)
    (neighborsByHop : gmap Z (gset string)) (l : link)
    (Hmode : Settings.edgeColorMode settings = BY_HOP)
    (Hsource : isActive activeNodeId (source l) = false)
    (Htarget : isActive activeNodeId (target l) = false) :
  let sourceHop := endpointHop nodeHopLevels (source l) in
  let targetHop := endpointHop nodeHopLevels (target l) in
  let style :=
    resolveEdgeStyle settings activeNodeId nodeStyles nodeHopLevels neighborsByHop l in
  (∀ minHop,
     isMinHop sourceHop targetHop minHop → minHop ≤ Settings.maxHops settings →
     EdgeStyle.alpha style = (7 # 10)%Q
     ∧ EdgeStyle.width style = Settings.defaultEdgeWidth settings
     ∧ (∀ color,
          Settings.hopEdgeColors settings !! Z.to_nat (minHop - 1) = Some color →
          color ≠ "" → EdgeStyle.tint style = parseColor color)
     ∧ (Settings.hopEdgeColors settings !! Z.to_nat (minHop - 1) = None
        ∨ Settings.hopEdgeColors settings !! Z.to_nat (minHop - 1) = Some "" →
        EdgeStyle.tint style = parseColor (Settings.edgeColor settings)))
  ∧ (∀ minHop,
       isMinHop sourceHop targetHop minHop → Settings.maxHops settings < minHop →
       style = {| EdgeStyle.tint := parseColor (Settings.edgeColor settings);
                  EdgeStyle.alpha := (4 # 10)%Q;
                  EdgeStyle.width := Settings.disconnectedEdgeWidth settings |})
  ∧ (sourceHop ≤ 0 → targetHop ≤ 0 →
     style = {| EdgeStyle.tint := parseColor (Settings.edgeColor settings);
                EdgeStyle.alpha := Settings.disconnectedOpacity settings;
                EdgeStyle.width := Settings.disconnectedEdgeWidth settings |}).
Proof.
  intros sourceHop targetHop style.
  assert (style =
    match minHopOf nodeHopLevels l with
    | Some minHop =>
        if minHop <=? Settings.maxHops settings then
          {| EdgeStyle.tint :=
               parseColor (orColor (at_ (Settings.hopEdgeColors settings) (minHop - 1))
                             (Settings.edgeColor settings));
             EdgeStyle.alpha := (7 # 10)%Q;
             EdgeStyle.width := Settings.defaultEdgeWidth settings |}
        else
          {| EdgeStyle.tint := parseColor (Settings.edgeColor settings);
             EdgeStyle.alpha := (4 # 10)%Q;
             EdgeStyle.width := Settings.disconnectedEdgeWidth settings |}
    | None =>
        {| EdgeStyle.tint := parseColor (Settings.edgeColor settings);
           EdgeStyle.alpha := Settings.disconnectedOpacity settings;
           EdgeStyle.width := Settings.disconnectedEdgeWidth settings |}
    end) as Hstyle.
  { unfold style, resolveEdgeStyle. by rewrite Hmode, Hsource, Htarget. }
  pose proof (minHopOf_spec nodeHopLevels l) as Hmin.
  fold sourceHop targetHop in Hmin.
  split_and!.
  - intros minHop Hm Hle.
    destruct (minHopOf nodeHopLevels l) as [m|]; [|unfold isMinHop in Hm; lia].
    assert (m = minHop) as -> by eauto using isMinHop_unique.
    rewrite (proj2 (Z.leb_le _ _) Hle) in Hstyle. rewrite Hstyle. simpl.
    assert (0 ≤ minHop - 1) by (unfold isMinHop in Hm; lia).
    split_and!; try done.
    + intros color Hc Hne. by erewrite orColor_configured.
    + intros Hc. by rewrite orColor_missing.
  - intros minHop Hm Hlt.
    destruct (minHopOf nodeHopLevels l) as [m|]; [|unfold isMinHop in Hm; lia].
    assert (m = minHop) as -> by eauto using isMinHop_unique.
    by rewrite (proj2 (Z.leb_gt _ _) Hlt) in Hstyle.
  - intros Hs Ht.
    destruct (minHopOf nodeHopLevels l) as [m|]; [unfold isMinHop in Hmin; lia|done].
Qed.

(** C4 on Scenario D: hop-edge colours [#111111], [#222222], a link
    from a hop-1 node to a hop-2 node: colour [#111111] at opacity 0.7. *)
Lemma by_hop_edge_style_witness :
  EdgeStyle.tint
    (resolveEdgeStyle byHopSettings (Some "A") ∅ {[ "B" := 1; "C" := 2 ]} ∅
       {| source := Some "B"; target := Some "C" |}) = JS.Num 1118481
  ∧ EdgeStyle.alpha
      (resolveEdgeStyle byHopSettings (Some "A") ∅ {[ "B" := 1; "C" := 2 ]} ∅
         {| source := Some "B"; target := Some "C" |}) = (7 # 10)%Q.
Proof.
  destruct (by_hop_edge_style byHopSettings (Some "A") ∅ {[ "B" := 1; "C" := 2 ]} ∅
              {| source := Some "B"; target := Some "C" |}
              eq_refl eq_refl eq_refl) as [H _].
  destruct (H 1) as (Halpha & _ & Hcolor & _).
  - change (isMinHop 1 2 1). unfold isMinHop. lia.
  - simpl. lia.
  - split; [|exact Halpha]. apply (Hcolor "#111111"); [reflexivity|discriminate].
Defined.

(* ===================================================================== *)
(** ** The whole pass on configurations without hop colours *)
(* ===================================================================== *)

Lemma resolveNodeStyle_no_hop_colors
    (settings : Settings.t) (activeNodeId : option string) (nodeId : string) (hopLevel : Z) :
  Settings.hopColors settings = [] →
  Some nodeId ≠ activeNodeId →
  1 ≤ hopLevel ≤ Settings.maxHops settings →
  resolveNodeStyle settings activeNodeId nodeId hopLevel None = TypeError.
Proof.
  intros Hcolors Hact Hhop. unfold resolveNodeStyle, nodeColorAlpha.
  rewrite isActive_other, in_hop_range by done. rewrite Hcolors.
  unfold at_. by destruct (hopLevel - 1 <? 0).
Qed.

Lemma orStr_is_Some (a b : option string) : is_Some b → is_Some (JS.orStr a b).
Proof.
  intros Hb. unfold JS.orStr. destruct (JS.truthyStr a) eqn:Ha; [|done].
  destruct a; [by eexists|done].
Qed.

Lemma nodeColorAlpha_color_defined
    (settings : Settings.t) (activeNodeId : option string) (nodeId : string)
    (hopLevel : Z) (ruleStyle : option RuleStyle.t) (first : string) :
  Settings.hopColors settings !! 0%nat = Some first →
  is_Some (nodeColorAlpha settings activeNodeId nodeId hopLevel ruleStyle).1.1.
Proof.
  intros Hfirst.
  assert (at_ (Settings.hopColors settings) 0 = Some first) as Hat by done.
  unfold nodeColorAlpha. rewrite Hat.
  repeat case_match; simpl; repeat apply orStr_is_Some; by eexists.
Qed.

Lemma resolveNodeStyle_hop_color_fallback
    (settings : Settings.t) (activeNodeId : option string) (nodeId : string)
    (hopLevel : Z) (ruleStyle : option RuleStyle.t) (first : string) :
  Settings.hopColors settings !! 0%nat = Some first →
  ∃ st, resolveNodeStyle settings activeNodeId nodeId hopLevel ruleStyle = Normal st.
Proof.
  intros Hfirst.
  destruct (nodeColorAlpha_color_defined settings activeNodeId nodeId hopLevel
              ruleStyle first Hfirst) as [c Hc].
  unfold resolveNodeStyle.
  destruct (nodeColorAlpha settings activeNodeId nodeId hopLevel ruleStyle)
    as [[color alpha] size].
  simpl in Hc. subst color. by eexists.
Qed.

Lemma resolveNodeStyle_no_hop_colors_no_active
    (settings : Settings.t) (nodeId : string) (hopLevel : Z) :
  Settings.hopColors settings = [] →
  resolveNodeStyle settings None nodeId hopLevel None = TypeError.
Proof.
  intros Hcolors. unfold resolveNodeStyle, nodeColorAlpha. rewrite Hcolors. simpl.
  unfold at_. destruct ((0 <? hopLevel) && (hopLevel <=? Settings.maxHops settings));
    [by destruct (hopLevel - 1 <? 0)|done].
Qed.

(** C7.  With an empty hop-colour array the pass does not fall back to a
    default colour.  On the two pairs of Scenario B with active node [A],
    the neighbour [B] has no rule colour, [hopColors[0]] is [undefined],
    and [parseColor(undefined)] throws out of [applyStyles].  In general,
    with [hopColors = []] and no rule colour, the style of every node in
    hop range throws, and so does the style of every node when no active
    node is known. *)
Theorem applyStyles_empty_hopColors_throws :
  applyStyles noHost noHopColors initialState (Some "A") twoPairs [] = Some TypeError
  ∧ (∀ settings activeNodeId nodeId hopLevel,
       Settings.hopColors settings = [] →
       Some nodeId ≠ activeNodeId →
       1 ≤ hopLevel ≤ Settings.maxHops settings →
       resolveNodeStyle settings activeNodeId nodeId hopLevel None = TypeError)
  ∧ (∀ settings nodeId hopLevel,
       Settings.hopColors settings = [] →
       resolveNodeStyle settings None nodeId hopLevel None = TypeError).
Proof.
  split_and!.
  - vm_compute. reflexivity.
  - apply resolveNodeStyle_no_hop_colors.
  - apply resolveNodeStyle_no_hop_colors_no_active.
Qed.

(* ===================================================================== *)
(** ** Graph builder *)
(* ===================================================================== *)

Lemma foldl_preserves {A B} (P : A → Prop) (f : A → B → A) (l : list B) (a : A) :
  (∀ a x, P a → P (f a x)) → P a → P (foldl f a l).
Proof. intros Hf. revert a. induction l as [|x l IH]; simpl; auto. Qed.

Section graph_builder.
Implicit Types adj : gmap string (list string).
Implicit Types u w k a b : string.

Lemma edge_neighborsOf adj u w : edge adj u w ↔ w ∈ neighborsOf adj u.
Proof.
  unfold edge, neighborsOf. split.
  - by intros (ns & -> & Hw).
  - destruct (adj !! u) as [ns|]; simpl; [by exists ns|by intros ?%elem_of_nil].
Qed.

Lemma has_true adj k : has adj k = true ↔ is_Some (adj !! k).
Proof. unfold has. apply bool_decide_eq_true. Qed.

Lemma has_false adj k : has adj k = false ↔ adj !! k = None.
Proof. unfold has. rewrite bool_decide_eq_false. symmetry. apply eq_None_not_Some. Qed.

Lemma ensureKey_neighborsOf k adj u :
  neighborsOf (ensureKey k adj) u = neighborsOf adj u.
Proof.
  unfold ensureKey, neighborsOf. destruct (has adj k) eqn:Hk; [done|].
  apply has_false in Hk. destruct (decide (k = u)) as [->|Hne].
  - by rewrite lookup_insert_eq, Hk.
  - by rewrite lookup_insert_ne.
Qed.

Lemma ensureKey_is_Some k adj u :
  is_Some (ensureKey k adj !! u) ↔ is_Some (adj !! u) ∨ u = k.
Proof.
  unfold ensureKey. destruct (has adj k) eqn:Hk.
  - apply has_true in Hk. naive_solver.
  - destruct (decide (k = u)) as [->|Hne].
    + rewrite lookup_insert_eq. naive_solver.
    + rewrite lookup_insert_ne by done. naive_solver.
Qed.

Lemma elem_of_setAdd x w (s : list string) : w ∈ setAdd x s ↔ w ∈ s ∨ w = x.
Proof.
  unfold setAdd. destruct (decide (x ∈ s)).
  - naive_solver.
  - rewrite elem_of_app, list_elem_of_singleton. naive_solver.
Qed.

Lemma alter_setAdd_neighborsOf x k adj u w :
  is_Some (adj !! k) →
  w ∈ neighborsOf (alter (setAdd x) k adj) u ↔
  w ∈ neighborsOf adj u ∨ (u = k ∧ w = x).
Proof.
  intros [ns Hns]. unfold neighborsOf. destruct (decide (k = u)) as [->|Hne].
  - rewrite lookup_alter_eq, Hns. simpl. rewrite elem_of_setAdd. naive_solver.
  - rewrite lookup_alter_ne by done. naive_solver.
Qed.

Lemma alter_is_Some (f : list string → list string) k adj u :
  is_Some (alter f k adj !! u) ↔ is_Some (adj !! u).
Proof.
  destruct (decide (k = u)) as [->|Hne].
  - rewrite lookup_alter_eq. apply fmap_is_Some.
  - by rewrite lookup_alter_ne.
Qed.

Lemma addEdge_is_Some a b adj u :
  is_Some (addEdge a b adj !! u) ↔ is_Some (adj !! u) ∨ u = a ∨ u = b.
Proof.
  unfold addEdge. rewrite !alter_is_Some, !ensureKey_is_Some. naive_solver.
Qed.

Lemma addEdge_edge a b adj u w :
  edge (addEdge a b adj) u w ↔ edge adj u w ∨ (u = a ∧ w = b) ∨ (u = b ∧ w = a).
Proof.
  rewrite !edge_neighborsOf. unfold addEdge.
  rewrite alter_setAdd_neighborsOf.
  2:{ rewrite alter_is_Some, ensureKey_is_Some. by right. }
  rewrite alter_setAdd_neighborsOf.
  2:{ rewrite !ensureKey_is_Some. by left; right. }
  rewrite !ensureKey_neighborsOf. naive_solver.
Qed.

Lemma ensureKey_edge k adj u w : edge (ensureKey k adj) u w ↔ edge adj u w.
Proof. by rewrite !edge_neighborsOf, ensureKey_neighborsOf. Qed.

Lemma wellFormed_empty : wellFormed ∅.
Proof.
  split.
  - intros a b. split; intros (ns & Hns & _); by rewrite lookup_empty in Hns.
  - intros a b (ns & Hns & _). by rewrite lookup_empty in Hns.
Qed.

Lemma wellFormed_ensureKey k adj : wellFormed adj → wellFormed (ensureKey k adj).
Proof.
  intros [Hsym Hkeys]. split.
  - intros a b. rewrite !ensureKey_edge. apply Hsym.
  - intros a b. rewrite ensureKey_edge, ensureKey_is_Some. intros ?%Hkeys. by left.
Qed.

Lemma wellFormed_addEdge a b adj : wellFormed adj → wellFormed (addEdge a b adj).
Proof.
  intros [Hsym Hkeys]. split.
  - intros u w. rewrite !addEdge_edge, (Hsym u w). naive_solver.
  - intros u w. rewrite addEdge_edge, addEdge_is_Some.
    intros [?%Hkeys|[[-> ->]|[-> ->]]]; auto.
Qed.

Lemma wellFormed_linkNode adj e : wellFormed adj → wellFormed (linkNode adj e).
Proof.
  intros Hwf. unfold linkNode. destruct e.2 as [node|]; [|done].
  apply (foldl_preserves wellFormed); [intros; by apply wellFormed_addEdge|].
  apply (foldl_preserves wellFormed); [intros; by apply wellFormed_addEdge|done].
Qed.

Lemma wellFormed_buildFromNodes nodes : wellFormed (buildFromNodes nodes).
Proof.
  unfold buildFromNodes.
  apply (foldl_preserves wellFormed); [intros; by apply wellFormed_linkNode|].
  apply (foldl_preserves wellFormed); [intros; by apply wellFormed_ensureKey|].
  apply wellFormed_empty.
Qed.

Lemma grows_refl adj : grows adj adj.
Proof. by split. Qed.

Lemma grows_trans adj1 adj2 adj3 : grows adj1 adj2 → grows adj2 adj3 → grows adj1 adj3.
Proof. intros [??] [??]. split; auto. Qed.

Lemma grows_addEdge a b adj : grows adj (addEdge a b adj).
Proof.
  split.
  - intros u. rewrite addEdge_is_Some. auto.
  - intros u w. rewrite addEdge_edge. auto.
Qed.

Lemma grows_foldl {B} (f : gmap string (list string) → B → gmap string (list string))
    (l : list B) adj :
  (∀ m x, grows m (f m x)) → grows adj (foldl f adj l).
Proof.
  intros Hf. revert adj. induction l as [|x l IH]; intros adj; simpl.
  - apply grows_refl.
  - eapply grows_trans; [apply Hf|apply IH].
Qed.

Lemma grows_linkNode adj e : grows adj (linkNode adj e).
Proof.
  unfold linkNode. destruct e.2 as [node|]; [|apply grows_refl].
  eapply grows_trans.
  - apply (grows_foldl (λ m targetId, addEdge e.1 targetId m)).
    intros; apply grows_addEdge.
  - apply (grows_foldl (λ m sourceId, addEdge sourceId e.1 m)).
    intros; apply grows_addEdge.
Qed.

Lemma foldl_addEdge_forward k (targets : list string) adj target :
  target ∈ targets → edge (foldl (λ m t, addEdge k t m) adj targets) k target.
Proof.
  revert adj. induction targets as [|t targets IH]; intros adj; [by intros ?%elem_of_nil|].
  intros [->|Hin]%elem_of_cons; simpl; [|by apply IH].
  apply (grows_foldl (λ m t, addEdge k t m)); [intros; apply grows_addEdge|].
  apply addEdge_edge. auto.
Qed.

Lemma foldl_addEdge_reverse k (sources : list string) adj src :
  src ∈ sources → edge (foldl (λ m s, addEdge s k m) adj sources) k src.
Proof.
  revert adj. induction sources as [|s sources IH]; intros adj; [by intros ?%elem_of_nil|].
  intros [->|Hin]%elem_of_cons; simpl; [|by apply IH].
  apply (grows_foldl (λ m s, addEdge s k m)); [intros; apply grows_addEdge|].
  apply addEdge_edge. auto.
Qed.

Lemma linkNode_links adj k node other :
  other ∈ getLinks (forward node) ++ getLinks (reverse node) →
  edge (linkNode adj (k, Some node)) k other.
Proof.
  unfold linkNode. simpl. intros [Hin|Hin]%elem_of_app.
  - apply (grows_foldl (λ m s, addEdge s k m)); [intros; apply grows_addEdge|].
    by apply foldl_addEdge_forward.
  - by apply foldl_addEdge_reverse.
Qed.

Lemma foldl_linkNode_links entries adj k node other :
  (k, Some node) ∈ entries →
  other ∈ getLinks (forward node) ++ getLinks (reverse node) →
  edge (foldl linkNode adj entries) k other.
Proof.
  revert adj. induction entries as [|e entries IH]; intros adj; [by intros ?%elem_of_nil|].
  intros [<-|Hin]%elem_of_cons Hother; simpl; [|by apply IH].
  apply (grows_foldl linkNode); [intros; apply grows_linkNode|].
  by apply linkNode_links.
Qed.

Lemma foldl_initNode_keys entries adj k node :
  (k, node) ∈ entries → is_Some (foldl initNode adj entries !! k).
Proof.
  revert adj. induction entries as [|e entries IH]; intros adj; [by intros ?%elem_of_nil|].
  intros [<-|Hin]%elem_of_cons; simpl; [|by apply IH].
  assert (∀ l m, is_Some (m !! k) → is_Some (foldl initNode m l !! k)) as Hkeep.
  { induction l as [|x l IHl]; intros m Hm; simpl; [done|].
    apply IHl. unfold initNode. apply ensureKey_is_Some. by left. }
  apply Hkeep. unfold initNode. apply ensureKey_is_Some. by right.
Qed.

(** C5.  Whatever the shape of the input collection, the adjacency
    structure [buildFromNodes] leaves is symmetric ([b] is a neighbour
    of [a] exactly when [a] is a neighbour of [b]) and key-closed
    (every identifier in a neighbour set is a key).  Every entry of the
    input is a key, and every identifier a node links to, forward or
    reverse, is a neighbour of that node and hence a key too, whether
    or not it was in the input. *)
Theorem buildFromNodes_symmetric_key_closed (nodes : nodeCollection) :
  symmetric (buildFromNodes nodes)
  ∧ keyClosed (buildFromNodes nodes)
  ∧ (∀ k node, (k, node) ∈ nodeEntries nodes → is_Some (buildFromNodes nodes !! k))
  ∧ (∀ k node other,
       (k, Some node) ∈ nodeEntries nodes →
       other ∈ getLinks (forward node) ++ getLinks (reverse node) →
       edge (buildFromNodes nodes) k other
       ∧ edge (buildFromNodes nodes) other k
       ∧ is_Some (buildFromNodes nodes !! other)).
Proof.
  destruct (wellFormed_buildFromNodes nodes) as [Hsym Hkeys].
  split_and!; try done.
  - intros k node Hin. unfold buildFromNodes.
    apply (grows_foldl linkNode); [intros; apply grows_linkNode|].
    by eapply foldl_initNode_keys.
  - intros k node other Hin Hother.
    assert (edge (buildFromNodes nodes) k other) as Hedge
      by (by eapply foldl_linkNode_links).
    split_and!; [done|by apply Hsym|by eapply Hkeys].
Qed.

End graph_builder.

(** C5 on Scenario A, a chain given as an array: the end [D] is a key
    and the link from [C] to [D] is seen from both ends. *)
Lemma buildFromNodes_symmetric_key_closed_witness :
  edge (buildFromNodes chainABCD) "C" "D"
  ∧ edge (buildFromNodes chainABCD) "D" "C"
  ∧ is_Some (buildFromNodes chainABCD !! "D").
Proof.
  apply (proj2 (proj2 (proj2 (buildFromNodes_symmetric_key_closed chainABCD))) "C"
           {| id := Some "C"; forward := LArray [TString "D"]; reverse := LAbsent |} "D").
  - vm_compute. do 2 apply list_elem_of_further. apply list_elem_of_here.
  - vm_compute. apply list_elem_of_here.
Defined.

(* ===================================================================== *)
(** ** Distance engine *)
(* ===================================================================== *)


Lemma size_unvisited (universe : gset string) (n : string) (visited : gset string) :
  n ∈ universe → n ∉ visited →
  S (size (universe ∖ ({[n]} ∪ visited))) = size (universe ∖ visited).
Proof.
  intros Hn Hfresh.
  assert (universe ∖ visited = {[n]} ∪ universe ∖ ({[n]} ∪ visited)) as ->.
  { apply set_eq. intros x. rewrite elem_of_union, !elem_of_difference,
      elem_of_union, elem_of_singleton.
    destruct (decide (x = n)) as [->|]; naive_solver. }
  rewrite (size_union {[n]} (universe ∖ ({[n]} ∪ visited))) by set_solver.
  by rewrite size_singleton.
Qed.

Section visiting.
Context {E : Type} (entry : string → E).
(** What a whole [neighbors.forEach] does to [visited] and [queue]:
    the neighbours not yet visited are marked, and their entries are
    pushed at the back, in order. *)
Lemma visit_all (universe : gset string) (neighbors : list string)
    (visited : gset string) (queue : list E) :
  ∃ fresh : list string,
    foldl (visitNeighbor entry) (visited, queue) neighbors
      = (list_to_set fresh ∪ visited, queue ++ (entry <$> fresh))
    ∧ (∀ n, n ∈ fresh ↔ n ∈ neighbors ∧ n ∉ visited)
    ∧ ((∀ n, n ∈ neighbors → n ∈ universe) →
       (size (universe ∖ (list_to_set fresh ∪ visited)) + length fresh
        = size (universe ∖ visited))%nat).
Proof.
  revert visited queue.
  induction neighbors as [|n neighbors IH]; intros visited queue; simpl.
  - exists []. split_and!.
    + simpl. by rewrite union_empty_l_L, app_nil_r.
    + intros n. rewrite !elem_of_nil. naive_solver.
    + intros _. simpl. rewrite union_empty_l_L. lia.
  - unfold visitNeighbor at 2. simpl. destruct (decide (n ∈ visited)) as [Hin|Hfresh].
    + destruct (IH visited queue) as (fresh & Heq & Hfresh & Hsize).
      exists fresh. split_and!; [done| |].
      * intros x. rewrite Hfresh, elem_of_cons. naive_solver.
      * intros Huni. apply Hsize. intros x Hx. apply Huni. by right.
    + destruct (IH ({[n]} ∪ visited) (queue ++ [entry n]))
        as (fresh & Heq & Hfresh' & Hsize).
      exists (n :: fresh). split_and!.
      * rewrite Heq. simpl. f_equal; [set_solver|].
        by rewrite <- app_assoc.
      * intros x. rewrite !elem_of_cons, Hfresh', elem_of_union, elem_of_singleton.
        destruct (decide (x = n)) as [->|]; naive_solver.
      * intros Huni. simpl.
        assert (list_to_set fresh ∪ ({[n]} ∪ visited)
                = ({[n]} ∪ list_to_set fresh ∪ visited :> gset string)) as Hset
          by set_solver.
        rewrite <- Hset.
        rewrite <- (size_unvisited universe n visited) by (done || apply Huni; by left).
        rewrite <- Hsize; [lia|]. intros x Hx. apply Huni. by right.
Qed.
End visiting.

(** On a symmetric adjacency list, paths of the undirected graph are
    paths along the neighbour sets. *)
Lemma nsteps_undirected (adj : gmap string (list string)) (n : nat) (s v : string) :
  symmetric adj → nsteps (undirectedEdge adj) n s v ↔ nsteps (edge adj) n s v.
Proof.
  intros Hsym. split.
  - induction 1 as [|n x y z [Hxy|Hyx] _ IH]; econstructor; eauto.
    by apply Hsym.
  - induction 1 as [|n x y z Hxy _ IH]; econstructor; eauto. by left.
Qed.

Lemma undirectedDistance_symmetric (adj : gmap string (list string)) (s v : string) (h : Z) :
  symmetric adj → undirectedDistance adj s v h ↔ distance adj s v h.
Proof.
  intros Hsym. unfold undirectedDistance, distance.
  split; intros (n & -> & Hn & Hmin); exists n; split_and!; try done.
  - by apply nsteps_undirected.
  - intros n' Hn'. apply Hmin. by apply nsteps_undirected.
  - by apply nsteps_undirected.
  - intros n' Hn'. apply Hmin. by apply nsteps_undirected.
Qed.

Lemma undirectedReachable_symmetric (adj : gmap string (list string)) (s v : string) :
  symmetric adj → undirectedReachable adj s v ↔ reachable adj s v.
Proof.
  intros Hsym. unfold undirectedReachable, reachable. rewrite !rtc_nsteps.
  split; intros [n Hn]; exists n; by apply nsteps_undirected.
Qed.

Section searches.
Variable adj : gmap string (list string).
Variable sourceId : string.

Implicit Types v w u : string.

Lemma edge_in_universe u w : edge adj u w → w ∈ nodeUniverse adj.
Proof.
  intros (ns & Hns & Hw). unfold nodeUniverse.
  apply elem_of_union_r, elem_of_union_list. exists (list_to_set ns). split.
  - apply list_elem_of_fmap. exists (u, ns). split; [done|].
    by apply elem_of_map_to_list.
  - by apply elem_of_list_to_set.
Qed.

Lemma key_in_universe u : is_Some (adj !! u) → u ∈ nodeUniverse adj.
Proof. intros Hu. unfold nodeUniverse. by apply elem_of_union_l, elem_of_dom. Qed.

Lemma neighbors_in_universe u :
  ∀ n, n ∈ neighborsOf adj u → n ∈ nodeUniverse adj.
Proof. intros n Hn. apply (edge_in_universe u). by apply edge_neighborsOf. Qed.

Lemma no_edge_from_absent u w : adj !! u = None → ¬ edge adj u w.
Proof. intros Hu (ns & Hns & _). congruence. Qed.

(** *** getAllConnectedNodes *)

Lemma connStep_inv currentId visited queue connected :
  connInv adj sourceId {| cs_visited := visited; cs_queue := currentId :: queue;
             cs_connected := connected |} →
  connInv adj sourceId (connStep adj sourceId currentId visited queue connected)
  ∧ S (connMeasure adj (connStep adj sourceId currentId visited queue connected))
    = connMeasure adj {| cs_visited := visited; cs_queue := currentId :: queue;
                     cs_connected := connected |}.
Proof.
  intros [Hsrc Hreach Huni Hq Hconn Hdone]. simpl in *.
  destruct (visit_all (λ n : string, n) (nodeUniverse adj) (neighborsOf adj currentId)
              visited queue) as (fresh & Heq & Hfresh & Hsize).
  change (visitNeighbor (λ n : string, n)) with connVisit in Heq.
  unfold connStep, connMeasure. rewrite Heq. clear Heq.
  specialize (Hsize (neighbors_in_universe currentId)). simpl.
  assert (currentId ∈ visited) as Hcur by (apply Hq; by left).
  split; [|rewrite length_app, length_fmap; lia].
  split; simpl.
  - set_solver.
  - intros v [Hv|Hv]%elem_of_union; [|by apply Hreach].
    apply elem_of_list_to_set, Hfresh in Hv as [Hv _].
    eapply rtc_r; [by apply Hreach|]. by apply edge_neighborsOf.
  - intros v [Hv|Hv]%elem_of_union; [|by apply Huni].
    apply elem_of_list_to_set, Hfresh in Hv as [Hv _].
    by eapply neighbors_in_universe.
  - intros v [Hv|Hv]%elem_of_app.
    + apply elem_of_union_r, Hq. by right.
    + rewrite list_fmap_id in Hv. by apply elem_of_union_l, elem_of_list_to_set.
  - intros v Hv.
    assert (v ∈ connected ∨ (v = currentId ∧ currentId ≠ sourceId)) as [Hc|[-> Hne]].
    { destruct (decide (currentId = sourceId)); [by left|].
      apply elem_of_union in Hv as [->%elem_of_singleton|]; auto. }
    + destruct (Hconn v Hc). split; [by apply elem_of_union_r|done].
    + split; [by apply elem_of_union_r|done].
  - intros v Hv. rewrite list_fmap_id.
    destruct (decide (v ∈ visited)) as [Hold|Hnew].
    + destruct (Hdone v Hold) as [[->|Hin]%elem_of_cons|[Hc Hclosed]].
      * right. split.
        -- destruct (decide (currentId = sourceId)); [by left|right; set_solver].
        -- intros w Hw%edge_neighborsOf.
           destruct (decide (w ∈ visited)); [by apply elem_of_union_r|].
           apply elem_of_union_l, elem_of_list_to_set, Hfresh. done.
      * left. apply elem_of_app. by left.
      * right. split.
        -- destruct Hc as [->|Hc]; [by left|right].
           destruct (decide (currentId = sourceId)); [done|by apply elem_of_union_r].
        -- intros w Hw. by apply elem_of_union_r, Hclosed.
    + left. apply elem_of_app. right.
      apply elem_of_union in Hv as [Hv|Hv]; [|done].
      by apply elem_of_list_to_set in Hv.
Qed.

Lemma connInv_final visited connected :
  connInv adj sourceId {| cs_visited := visited; cs_queue := []; cs_connected := connected |} →
  ∀ v, v ∈ connected ↔ v ≠ sourceId ∧ reachable adj sourceId v.
Proof.
  intros [Hsrc Hreach Huni Hq Hconn Hdone] v. simpl in *. split.
  - intros [Hv Hne]%Hconn. split; [done|by apply Hreach].
  - intros [Hne Hv].
    assert (v ∈ visited) as Hin.
    { revert v Hv Hne. apply (rtc_ind_r (λ x, x ≠ sourceId → x ∈ visited)); [done|].
      intros u w _ Hw IH _.
      assert (u ∈ visited) as Hu
        by (destruct (decide (u = sourceId)) as [->|]; auto).
      destruct (Hdone u Hu) as [?%elem_of_nil|[_ Hclosed]]; [done|].
      by apply Hclosed. }
    destruct (Hdone v Hin) as [?%elem_of_nil|[[?|?] _]]; done.
Qed.

Lemma connLoop_correct (fuel : nat) (st : connState) :
  connInv adj sourceId st → (connMeasure adj st ≤ fuel)%nat →
  ∃ connected, connLoop fuel adj sourceId st = Some connected
    ∧ ∀ v, v ∈ connected ↔ v ≠ sourceId ∧ reachable adj sourceId v.
Proof.
  revert st. induction fuel as [|fuel IH]; intros [visited queue connected] Hinv Hfuel.
  - destruct queue as [|currentId queue]; [|unfold connMeasure in Hfuel; simpl in Hfuel; lia].
    exists connected. split; [done|]. by apply (connInv_final visited).
  - destruct queue as [|currentId queue]; simpl.
    + exists connected. split; [done|]. by apply (connInv_final visited).
    + destruct (connStep_inv currentId visited queue connected Hinv) as [Hinv' Hm].
      apply IH; [done|lia].
Qed.

(** C8.  [getAllConnectedNodes] always returns; the set it returns
    never contains the source and consists of exactly the other nodes
    that some path along the adjacency lists reaches from the source
    (for a source that is not a key this is the empty set, as nothing
    can be reached from it).  On a symmetric adjacency list these are
    the nodes joined to the source in the undirected graph. *)
Theorem getAllConnectedNodes_reachable :
  ∃ connected, getAllConnectedNodes adj sourceId = Some connected
    ∧ (sourceId ∉ connected)
    ∧ (∀ v, v ∈ connected ↔ v ≠ sourceId ∧ reachable adj sourceId v)
    ∧ (symmetric adj →
       ∀ v, v ∈ connected ↔ v ≠ sourceId ∧ undirectedReachable adj sourceId v).
Proof.
  assert (∃ connected, getAllConnectedNodes adj sourceId = Some connected
    ∧ ∀ v, v ∈ connected ↔ v ≠ sourceId ∧ reachable adj sourceId v)
    as (connected & Heq & Hspec).
  { unfold getAllConnectedNodes. destruct (has adj sourceId) eqn:Hhas; simpl.
    - apply has_true in Hhas. apply connLoop_correct.
      + split; simpl.
        * set_solver.
        * intros v ->%elem_of_singleton. apply rtc_refl.
        * intros v ->%elem_of_singleton. by apply key_in_universe.
        * intros v ->%list_elem_of_singleton. set_solver.
        * set_solver.
        * intros v ->%elem_of_singleton. left. by left.
      + unfold connMeasure. simpl.
        pose proof (size_unvisited (nodeUniverse adj) sourceId ∅
                      (key_in_universe _ Hhas) (not_elem_of_empty _)) as Hsize.
        rewrite union_empty_r_L, difference_empty_L in Hsize. lia.
    - apply has_false in Hhas. exists ∅. split; [done|].
      intros v. split; [set_solver|]. intros [Hne Hv].
      apply rtc_inv in Hv as [->|(w & Hw & _)]; [done|].
      by apply no_edge_from_absent in Hw. }
  exists connected. split_and!; [done| |done|].
  - intros [? _]%Hspec. done.
  - intros Hsym v. by rewrite undirectedReachable_symmetric.
Qed.

End searches.

(** *** findNeighborsByHop *)

Lemma lookup_label (fresh : list string) (d : nat) (dist : gmap string nat) (v : string) :
  label fresh d dist !! v = if decide (v ∈ fresh) then Some d else dist !! v.
Proof.
  induction fresh as [|w fresh IH].
  - rewrite decide_False; [done|apply not_elem_of_nil].
  - change (label (w :: fresh) d dist) with (<[w := d]> (label fresh d dist)).
    destruct (decide (w = v)) as [->|Hne].
    + rewrite lookup_insert_eq, decide_True; [done|by left].
    + rewrite lookup_insert_ne, IH by done.
      destruct (decide (v ∈ fresh)) as [Hin|Hnin].
      * rewrite decide_True; [done|by right].
      * rewrite decide_False; [done|]. rewrite elem_of_cons. naive_solver.
Qed.

Lemma lookup_foldl_insert_empty (hops : list Z) (r : gmap Z (gset string)) (hop : Z) :
  foldl (λ r h, <[h := ∅]> r) r hops !! hop
  = if decide (hop ∈ hops) then Some ∅ else r !! hop.
Proof.
  revert r. induction hops as [|h hops IH]; intros r.
  - rewrite decide_False; [done|apply not_elem_of_nil].
  - change (foldl (λ r h, <[h := ∅]> r) r (h :: hops))
      with (foldl (λ r h, <[h := ∅]> r) (<[h := ∅]> r) hops).
    rewrite IH. destruct (decide (hop ∈ hops)) as [Hin|Hnin].
    + rewrite decide_True; [done|by right].
    + destruct (decide (hop = h)) as [->|Hne].
      * rewrite lookup_insert_eq, decide_True; [done|by left].
      * rewrite lookup_insert_ne by done.
        rewrite decide_False; [done|]. rewrite elem_of_cons. naive_solver.
Qed.

Lemma lookup_emptyHops (maxHops hop : Z) :
  emptyHops maxHops !! hop = if decide (1 ≤ hop ≤ maxHops) then Some ∅ else None.
Proof.
  unfold emptyHops. rewrite lookup_foldl_insert_empty, lookup_empty.
  destruct (decide (hop ∈ seqZ 1 maxHops)) as [Hin|Hnin];
    rewrite elem_of_seqZ in *.
  - rewrite decide_True; [done|lia].
  - rewrite decide_False; [done|lia].
Qed.

Lemma emptyHops_is_Some (maxHops hop : Z) :
  is_Some (emptyHops maxHops !! hop) ↔ 1 ≤ hop ≤ maxHops.
Proof.
  rewrite lookup_emptyHops. case_decide; split; try done.
Qed.

Lemma hopSet_emptyHops (maxHops hop : Z) : hopSet (emptyHops maxHops) hop = ∅.
Proof. unfold hopSet. rewrite lookup_emptyHops. by case_decide. Qed.

Lemma hopSet_is_Some (r : gmap Z (gset string)) (hop : Z) (v : string) :
  v ∈ hopSet r hop → is_Some (r !! hop).
Proof. unfold hopSet. destruct (r !! hop); [by eexists|set_solver]. Qed.

Lemma elem_of_hopSet_alter (c : string) (k : Z) (r : gmap Z (gset string))
    (hop : Z) (v : string) :
  v ∈ hopSet (alter (λ s, {[c]} ∪ s) k r) hop ↔
  v ∈ hopSet r hop ∨ (hop = k ∧ v = c ∧ is_Some (r !! k)).
Proof.
  unfold hopSet. destruct (decide (k = hop)) as [->|Hne].
  - rewrite lookup_alter_eq. destruct (r !! hop) as [s|]; simpl.
    + rewrite elem_of_union, elem_of_singleton. naive_solver.
    + split; [set_solver|]. intros [?|(_ & _ & [? [=]])]; done.
  - rewrite lookup_alter_ne by done. naive_solver.
Qed.

Lemma alter_is_Some_Z (f : gset string → gset string) (k : Z)
    (r : gmap Z (gset string)) (h : Z) :
  is_Some (alter f k r !! h) ↔ is_Some (r !! h).
Proof.
  destruct (decide (k = h)) as [->|Hne].
  - rewrite lookup_alter_eq. apply fmap_is_Some.
  - by rewrite lookup_alter_ne.
Qed.

(** The distance of a node is unique. *)
Lemma distance_unique (adj : gmap string (list string)) (s v : string) (h1 h2 : Z) :
  distance adj s v h1 → distance adj s v h2 → h1 = h2.
Proof.
  intros (n1 & -> & Hp1 & Hmin1) (n2 & -> & Hp2 & Hmin2).
  specialize (Hmin1 _ Hp2). specialize (Hmin2 _ Hp1). lia.
Qed.

Section hop_search.
Variable adj : gmap string (list string).
Variable sourceId : string.
Variable maxHops : Z.

Implicit Types v w u : string.

(** What one iteration does to [visited] and [queue]. *)
Lemma hopStep_visit currentId (distance : Z) visited queue result :
  ∃ fresh : list string,
    hs_visited (hopStep adj maxHops currentId distance visited queue result)
      = list_to_set fresh ∪ visited
    ∧ hs_queue (hopStep adj maxHops currentId distance visited queue result)
      = queue ++ ((λ n, (n, distance + 1)) <$> fresh)
    ∧ (∀ w, w ∈ fresh ↔
         distance < maxHops ∧ w ∈ neighborsOf adj currentId ∧ w ∉ visited)
    ∧ (size (nodeUniverse adj ∖ (list_to_set fresh ∪ visited)) + length fresh
       = size (nodeUniverse adj ∖ visited))%nat.
Proof.
  unfold hopStep. simpl. destruct (distance <? maxHops) eqn:Hlt.
  - apply Z.ltb_lt in Hlt.
    destruct (visit_all (λ n, (n, distance + 1)) (nodeUniverse adj)
                (neighborsOf adj currentId) visited queue)
      as (fresh & Heq & Hfresh & Hsize).
    change (visitNeighbor (λ n, (n, distance + 1))) with (hopVisit distance) in Heq.
    exists fresh. rewrite Heq. simpl. split_and!; try done.
    + intros w. rewrite Hfresh. naive_solver.
    + apply Hsize, neighbors_in_universe.
  - apply Z.ltb_ge in Hlt. exists []. simpl.
    rewrite union_empty_l_L, app_nil_r. split_and!.
    + done.
    + done.
    + intros w. rewrite elem_of_nil. split; [done|lia].
    + simpl. lia.
Qed.

(** What one iteration does to [result]. *)
Lemma hopStep_result currentId (distance : Z) visited queue result :
  (∀ h, is_Some (result !! h) ↔ 1 ≤ h ≤ maxHops) →
  let result' :=
    hs_result (hopStep adj maxHops currentId distance visited queue result) in
  (∀ h, is_Some (result' !! h) ↔ 1 ≤ h ≤ maxHops)
  ∧ (∀ h v, v ∈ hopSet result' h ↔
       v ∈ hopSet result h ∨ (h = distance ∧ v = currentId ∧ 0 < distance ≤ maxHops)).
Proof.
  intros Hkeys. unfold hopStep. simpl.
  destruct ((0 <? distance) && (distance <=? maxHops)) eqn:Hrange.
  - apply andb_true_iff in Hrange as [Hpos%Z.ltb_lt Hle%Z.leb_le]. split.
    + intros h. rewrite <- Hkeys. apply alter_is_Some_Z.
    + intros h v. rewrite elem_of_hopSet_alter. rewrite Hkeys. naive_solver lia.
  - split; [done|]. intros h v. split; [by left|].
    intros [?|(_ & _ & Hpos & Hle)]; [done|].
    apply andb_false_iff in Hrange as [?%Z.ltb_ge|?%Z.leb_gt]; lia.
Qed.

Lemma hopStep_inv dist level currentId (distance : Z) visited queue result :
  hopInv adj sourceId maxHops dist level
    {| hs_visited := visited; hs_queue := (currentId, distance) :: queue;
       hs_result := result |} →
  ∃ dist' level',
    hopInv adj sourceId maxHops dist' level'
      (hopStep adj maxHops currentId distance visited queue result)
    ∧ S (hopMeasure adj (hopStep adj maxHops currentId distance visited queue result))
      = hopMeasure adj {| hs_visited := visited;
                          hs_queue := (currentId, distance) :: queue;
                          hs_result := result |}.
Proof.
  intros [Hsrc Hpath Hvis Huni Hq Hdone Hres Hkeys Horder Hbound]. simpl in *.
  destruct (Hq currentId distance) as (n & Hn & ->); [by left|].
  destruct (hopStep_visit currentId (Z.of_nat n) visited queue result)
    as (fresh & HV & HQ & Hfresh & Hsize).
  destruct (hopStep_result currentId (Z.of_nat n) visited queue result Hkeys)
    as [Hkeys' Hres'].
  assert (currentId ∈ visited) as Hcur by (apply Hvis; by eexists).
  (* the queue after the head: entries at distance n, then at n + 1 *)
  assert ((level ≤ n)%nat ∧ ∃ front back, queue = front ++ back ∧
            (∀ v k, (v, k) ∈ front → k = Z.of_nat n) ∧
            (∀ v k, (v, k) ∈ back → k = Z.of_nat (S n)))
    as (Hlevel & front & back & -> & Hfront & Hback).
  { destruct Horder as (front & back & Heq & Hf & Hb).
    destruct front as [|e front]; simpl in Heq.
    - destruct back as [|e back]; simplify_eq.
      assert (Z.of_nat n = Z.of_nat (S level)) as Hk by (apply (Hb currentId); by left).
      assert (n = S level) as -> by lia.
      split; [lia|]. exists back, []. rewrite app_nil_r. split_and!; [done| |].
      + intros v k Hin. apply (Hb v). by right.
      + intros v k Hin. by apply elem_of_nil in Hin.
    - simplify_eq.
      assert (Z.of_nat n = Z.of_nat level) as Hk by (apply (Hf currentId); by left).
      assert (n = level) as -> by lia.
      split; [lia|]. exists front, back. split_and!; [done| |done].
      intros v k Hin. apply (Hf v). by right. }
  (* the new labelling agrees with the old one on visited nodes *)
  assert (∀ v, v ∈ visited → label fresh (S n) dist !! v = dist !! v) as Hold.
  { intros v Hv. rewrite lookup_label, decide_False; [done|].
    intros Hin%Hfresh. naive_solver. }
  assert (∀ v, v ∈ fresh → label fresh (S n) dist !! v = Some (S n)) as Hnew.
  { intros v Hv. by rewrite lookup_label, decide_True. }
  assert (∀ v j, label fresh (S n) dist !! v = Some j →
            (v ∈ fresh ∧ j = S n) ∨ (v ∈ visited ∧ dist !! v = Some j)) as Hcases.
  { intros v j. rewrite lookup_label. case_decide; [intros [= <-]; by left|].
    intros Hj. right. split; [|done]. apply Hvis. by eexists. }
  exists (label fresh (S n) dist), n. split; [split|].
  - rewrite Hold; [done|]. apply Hvis. by eexists.
  - intros v j [[Hv ->]|[Hv Hj]]%Hcases; [|by apply Hpath].
    apply Hfresh in Hv as (_ & Hv & _).
    eapply nsteps_r; [by apply Hpath|by apply edge_neighborsOf].
  - intros v. rewrite HV, elem_of_union, elem_of_list_to_set, lookup_label.
    case_decide; [split; [by eexists|by left]|].
    rewrite Hvis. naive_solver.
  - intros v. rewrite HV. intros [Hv%elem_of_list_to_set|Hv]%elem_of_union; [|by apply Huni].
    apply Hfresh in Hv as (_ & Hv & _). by eapply neighbors_in_universe.
  - intros v k. rewrite HQ. intros [Hin|Hin]%elem_of_app.
    + destruct (Hq v k) as (j & Hj & ->); [by right|].
      exists j. split; [|done]. rewrite Hold; [done|]. apply Hvis. by eexists.
    + apply list_elem_of_fmap in Hin as (w & [= -> ->] & Hw).
      exists (S n). split; [by apply Hnew|lia].
  - intros v j [[Hv ->]|[Hv Hj]]%Hcases.
    { left. rewrite HQ. apply elem_of_app. right.
      apply list_elem_of_fmap. exists v. split; [f_equal; lia|done]. }
    destruct (Hdone v j Hj) as [[[= -> Hjn]|Hin]%elem_of_cons|[Hrec Hclosed]].
    + (* the node just dequeued *)
      assert (j = n) as -> by lia. right. split.
      * intros Hrange. apply Hres'. right. done.
      * intros Hlt w Hw.
        destruct (decide (w ∈ visited)) as [Hwv|Hwf].
        -- apply Hvis in Hwv as Hw'. destruct Hw' as [jw Hjw].
           exists jw. rewrite Hold by done. split; [done|].
           specialize (Hbound w jw Hjw). lia.
        -- exists (S n). split; [|done]. apply Hnew, Hfresh.
           split_and!; [done|by apply edge_neighborsOf|done].
    + left. rewrite HQ. apply elem_of_app. by left.
    + right. split.
      * intros Hrange. apply Hres'. left. by apply Hrec.
      * intros Hlt w Hw. destruct (Hclosed Hlt w Hw) as (jw & Hjw & Hle).
        exists jw. split; [|done]. rewrite Hold; [done|]. apply Hvis. by eexists.
  - intros h v [Hin|(-> & -> & _)]%Hres'.
    + destruct (Hres h v Hin) as (j & Hj & ->). exists j. split; [|done].
      rewrite Hold; [done|]. apply Hvis. by eexists.
    + exists n. split; [|done]. by rewrite Hold.
  - done.
  - exists front, (back ++ ((λ w, (w, Z.of_nat n + 1)) <$> fresh)).
    rewrite HQ, <- app_assoc. split_and!; [done|done|].
    intros v k [Hin|Hin]%elem_of_app; [by eapply Hback|].
    apply list_elem_of_fmap in Hin as (w & [= -> ->] & _). lia.
  - intros v j [[Hv ->]|[Hv Hj]]%Hcases; [done|].
    specialize (Hbound v j Hj). lia.
  - unfold hopMeasure. rewrite HV, HQ. simpl.
    rewrite length_app, length_fmap. lia.
Qed.

(** With the queue empty, every node within [maxHops] edges of the
    source is labelled, by at most the length of any path to it. *)
Lemma hopInv_closed dist level visited result :
  hopInv adj sourceId maxHops dist level
    {| hs_visited := visited; hs_queue := []; hs_result := result |} →
  ∀ n v, nsteps (edge adj) n sourceId v → Z.of_nat n ≤ maxHops →
    ∃ j, dist !! v = Some j ∧ (j ≤ n)%nat.
Proof.
  intros [Hsrc Hpath Hvis Huni Hq Hdone Hres Hkeys Horder Hbound]. simpl in *.
  induction n as [|n IH]; intros v Hv Hle.
  - inversion Hv; subst. exists 0%nat. done.
  - apply nsteps_inv_r in Hv as (u & Hu & Hedge).
    destruct (IH u Hu) as (j & Hj & Hjn); [lia|].
    destruct (Hdone u j Hj) as [Hin|[_ Hclosed]]; [by apply elem_of_nil in Hin|].
    destruct (Hclosed ltac:(lia) v Hedge) as (jv & Hjv & Hle').
    exists jv. split; [done|lia].
Qed.

Lemma hopInv_final dist level visited result :
  hopInv adj sourceId maxHops dist level
    {| hs_visited := visited; hs_queue := []; hs_result := result |} →
  ∀ hop v, v ∈ hopSet result hop ↔
    1 ≤ hop ≤ maxHops ∧ distance adj sourceId v hop.
Proof.
  intros Hinv hop v.
  pose proof (hopInv_closed dist level visited result Hinv) as Hclosed.
  destruct Hinv as [Hsrc Hpath Hvis Huni Hq Hdone Hres Hkeys Horder Hbound].
  simpl in *. split.
  - intros Hin. destruct (Hres hop v Hin) as (n & Hn & ->).
    assert (1 ≤ Z.of_nat n ≤ maxHops) as Hrange by (by eapply Hkeys, hopSet_is_Some).
    split; [done|]. exists n. split_and!; [done|by apply Hpath|].
    intros n' Hn'. destruct (decide (Z.of_nat n' ≤ maxHops)) as [Hle|Hgt]; [|lia].
    destruct (Hclosed n' v Hn' Hle) as (j & Hj & Hjn). by simplify_eq.
  - intros [Hrange (n & -> & Hn & Hmin)].
    destruct (Hclosed n v Hn) as (j & Hj & Hjn); [lia|].
    assert (j = n) as -> by (specialize (Hmin j (Hpath v j Hj)); lia).
    destruct (Hdone v n Hj) as [Hin|[Hrec _]]; [by apply elem_of_nil in Hin|].
    apply Hrec. lia.
Qed.

Lemma hopLoop_correct (fuel : nat) dist level (st : hopState) :
  hopInv adj sourceId maxHops dist level st → (hopMeasure adj st ≤ fuel)%nat →
  ∃ result, hopLoop fuel adj maxHops st = Some result
    ∧ (∀ hop v, v ∈ hopSet result hop ↔
         1 ≤ hop ≤ maxHops ∧ distance adj sourceId v hop)
    ∧ (∀ hop, is_Some (result !! hop) ↔ 1 ≤ hop ≤ maxHops).
Proof.
  revert dist level st.
  induction fuel as [|fuel IH]; intros dist level [visited queue result] Hinv Hfuel.
  - destruct queue as [|[currentId distance] queue];
      [|unfold hopMeasure in Hfuel; simpl in Hfuel; lia].
    exists result. split_and!; [done| |by destruct Hinv].
    by apply (hopInv_final dist level visited).
  - destruct queue as [|[currentId distance] queue]; simpl.
    + exists result. split_and!; [done| |by destruct Hinv].
      by apply (hopInv_final dist level visited).
    + destruct (hopStep_inv dist level currentId distance visited queue result Hinv)
        as (dist' & level' & Hinv' & Hm).
      apply (IH dist' level'); [done|lia].
Qed.

(** C1.  [findNeighborsByHop] always returns, with a hop set for each
    hop of [1..maxHops] and no other; a node is in the hop set of [hop]
    exactly when [1 ≤ hop ≤ maxHops] and the shortest path from the
    source to it along the adjacency lists has [hop] edges; so the hop
    sets are pairwise disjoint and no node sits at a hop other than its
    distance.  On a symmetric adjacency list, as [buildFromNodes]
    makes them, this is the distance in the undirected graph. *)
Theorem findNeighborsByHop_shortest_distance :
  ∃ result, findNeighborsByHop adj sourceId maxHops = Some result
    ∧ (∀ hop v, v ∈ hopSet result hop ↔
         1 ≤ hop ≤ maxHops ∧ distance adj sourceId v hop)
    ∧ (∀ hop1 hop2 v,
         v ∈ hopSet result hop1 → v ∈ hopSet result hop2 → hop1 = hop2)
    ∧ (∀ hop, is_Some (result !! hop) ↔ 1 ≤ hop ≤ maxHops)
    ∧ (symmetric adj →
       ∀ hop v, v ∈ hopSet result hop ↔
         1 ≤ hop ≤ maxHops ∧ undirectedDistance adj sourceId v hop).
Proof.
  assert (∃ result, findNeighborsByHop adj sourceId maxHops = Some result
    ∧ (∀ hop v, v ∈ hopSet result hop ↔
         1 ≤ hop ≤ maxHops ∧ distance adj sourceId v hop)
    ∧ (∀ hop, is_Some (result !! hop) ↔ 1 ≤ hop ≤ maxHops))
    as (result & Heq & Hspec & Hkeys).
  { unfold findNeighborsByHop. destruct (has adj sourceId) eqn:Hhas; simpl.
    - apply has_true in Hhas.
      apply (hopLoop_correct _ {[ sourceId := 0%nat ]} 0%nat).
      + split; simpl.
        * apply lookup_singleton_eq.
        * intros v n [-> <-]%lookup_singleton_Some. constructor.
        * intros v. rewrite elem_of_singleton. split.
          -- intros ->. rewrite lookup_singleton_eq. by eexists.
          -- intros [n [-> _]%lookup_singleton_Some]. done.
        * intros v ->%elem_of_singleton. by apply key_in_universe.
        * intros v k [= -> ->]%list_elem_of_singleton.
          exists 0%nat. split; [apply lookup_singleton_eq|done].
        * intros v n [-> <-]%lookup_singleton_Some. left. by left.
        * intros h v. rewrite hopSet_emptyHops. set_solver.
        * apply emptyHops_is_Some.
        * exists [(sourceId, 0)], []. split_and!; [done| |].
          -- intros v k [= -> ->]%list_elem_of_singleton. done.
          -- intros v k Hin. by apply elem_of_nil in Hin.
        * intros v n [-> <-]%lookup_singleton_Some. lia.
      + unfold hopMeasure. simpl.
        pose proof (size_unvisited (nodeUniverse adj) sourceId ∅
                      (key_in_universe _ _ Hhas) (not_elem_of_empty _)) as Hsize.
        rewrite union_empty_r_L, difference_empty_L in Hsize. lia.
    - apply has_false in Hhas. exists (emptyHops maxHops).
      split_and!; [done| |apply emptyHops_is_Some].
      intros hop v. rewrite hopSet_emptyHops. split; [set_solver|].
      intros [Hrange (n & -> & Hn & _)].
      destruct n as [|n]; [lia|].
      inversion Hn as [|? ? w ? Hedge ?]; subst.
      by apply no_edge_from_absent in Hedge. }
  exists result. split_and!; try done.
  - intros hop1 hop2 v [_ H1]%Hspec [_ H2]%Hspec.
    by eapply distance_unique.
  - intros Hsym hop v. by rewrite undirectedDistance_symmetric.
Qed.

End hop_search.

(** C1 on Scenario A: on the chain built by [buildFromNodes], the hop
    sets from [B] with [maxHops = 2] are the nodes at undirected
    distance 1 and 2. *)
Lemma findNeighborsByHop_shortest_distance_witness :
  ∃ result, findNeighborsByHop (buildFromNodes chainABCD) "B" 2 = Some result
    ∧ ∀ hop v, v ∈ hopSet result hop ↔
        1 ≤ hop ≤ 2 ∧ undirectedDistance (buildFromNodes chainABCD) "B" v hop.
Proof.
  destruct (findNeighborsByHop_shortest_distance (buildFromNodes chainABCD) "B" 2)
    as (result & Heq & _ & _ & _ & Hundirected).
  exists result. split; [exact Heq|].
  apply Hundirected. apply wellFormed_buildFromNodes.
Defined.

(** C8 on Scenario B: on the two pairs built by [buildFromNodes], the
    connected set of [A] holds the nodes joined to [A], but not [A]. *)
Lemma getAllConnectedNodes_reachable_witness :
  ∃ connected, getAllConnectedNodes (buildFromNodes twoPairs) "A" = Some connected
    ∧ ("A" ∉ connected)
    ∧ ∀ v, v ∈ connected ↔
        v ≠ "A" ∧ undirectedReachable (buildFromNodes twoPairs) "A" v.
Proof.
  destruct (getAllConnectedNodes_reachable (buildFromNodes twoPairs) "A")
    as (connected & Heq & Hsource & _ & Hundirected).
  exists connected. split_and!; [exact Heq|exact Hsource|].
  apply Hundirected. apply wellFormed_buildFromNodes.
Defined.

(** C6.  When the source is not a key of the adjacency list, both
    searches return at once: [findNeighborsByHop] with a classification
    whose hop sets ([1..maxHops]) are all empty, [getAllConnectedNodes]
    with the empty set. *)
Theorem absent_source_gives_empty
    (adj : gmap string (list string)) (sourceId : string) (maxHops : Z)
    (Habsent : adj !! sourceId = None) :
  (∃ result, findNeighborsByHop adj sourceId maxHops = Some result
     ∧ (∀ hop, 1 ≤ hop ≤ maxHops → result !! hop = Some ∅)
     ∧ (∀ hop, hopSet result hop = ∅))
  ∧ getAllConnectedNodes adj sourceId = Some ∅.
Proof.
  apply has_false in Habsent.
  unfold findNeighborsByHop, getAllConnectedNodes. rewrite Habsent. simpl.
  split; [|done]. exists (emptyHops maxHops). split_and!; [done| |].
  - intros hop Hhop. by rewrite lookup_emptyHops, decide_True.
  - apply hopSet_emptyHops.
Qed.

(** C6 on an instance: the chain of Scenario A has no node [Z]. *)
Lemma absent_source_gives_empty_witness :
  (∃ result, findNeighborsByHop (buildFromNodes chainABCD) "Z" 3 = Some result
     ∧ (∀ hop, 1 ≤ hop ≤ 3 → result !! hop = Some ∅)
     ∧ (∀ hop, hopSet result hop = ∅))
  ∧ getAllConnectedNodes (buildFromNodes chainABCD) "Z" = Some ∅.
Proof.
  apply (absent_source_gives_empty (buildFromNodes chainABCD) "Z" 3).
  vm_compute. reflexivity.
Defined.

(** *** The scenarios of the specification *)

(** Scenario A: on the chain A - B - C - D with active node [B] and
    [maxHops = 2], hop 1 is [{A, C}] and hop 2 is [{D}]. *)
Example scenario_A :
  findNeighborsByHop (buildFromNodes chainABCD) "B" 2
  = Some {[ 1 := {[ "A"; "C" ]}; 2 := {[ "D" ]} ]}.
Proof. vm_compute. reflexivity. Qed.

(** Scenario B: on the two pairs, [connected(A) = {B}]. *)
Example scenario_B : getAllConnectedNodes (buildFromNodes twoPairs) "A" = Some {[ "B" ]}.
Proof. vm_compute. reflexivity. Qed.

(** Scenario B, styles: with active node [A] and the default settings,
    [C] and [D] are disconnected (hop level [-1]) and get the
    disconnected opacity; [B] is a hop-1 neighbour at full opacity. *)
Example scenario_B_styles :
  match applyStyles noHost DEFAULT_SETTINGS initialState (Some "A") twoPairs [] with
  | Some (Normal st) =>
      (nodeHopLevels st !! "C", NodeStyleResult.alpha <$> nodeStyles st !! "C",
       nodeHopLevels st !! "D", NodeStyleResult.alpha <$> nodeStyles st !! "D",
       nodeHopLevels st !! "B", NodeStyleResult.alpha <$> nodeStyles st !! "B")
  | _ => (None, None, None, None, None, None)
  end
  = (Some (-1), Some (15 # 100)%Q, Some (-1), Some (15 # 100)%Q, Some 1, Some 1%Q).
Proof. vm_compute. reflexivity. Qed.

(** Scenario E: with no active node known every node gets the first hop
    colour at full opacity, whatever the topology. *)
Example scenario_E :
  match applyStyles noHost DEFAULT_SETTINGS initialState None twoPairs [] with
  | Some (Normal st) => map_to_list (nodeStyles st)
  | _ => []
  end
  ≡ₚ (λ name, (name, {| NodeStyleResult.tint := JS.Num 5164484;
                        NodeStyleResult.alpha := 1%Q;
                        NodeStyleResult.shape := CIRCLE;
                        NodeStyleResult.size := 1%Q |})) <$> ["A"; "B"; "C"; "D"].
Proof. vm_compute. by apply NoDup_Permutation; [repeat constructor; set_solver..|set_solver]. Qed.

(** The four forms of a file rule, and a hierarchical tag. *)
Example file_rule_forms :
  let rule :=
    {| StyleRule.id := "r"; StyleRule.type := "file"; StyleRule.pattern := "Note";
       StyleRule.color := None; StyleRule.shape := None; StyleRule.size := None;
       StyleRule.enabled := true |} in
  (ruleMatches None "Note" rule, ruleMatches None "dir/Note" rule,
   ruleMatches None "Note.md" rule, ruleMatches None "dir/Note.md" rule,
   ruleMatches None "dir/OtherNote.md" rule)
  = (Normal true, Normal true, Normal true, Normal true, Normal false).
Proof. reflexivity. Qed.

Example tag_rule_hierarchy :
  let cache :=
    Some {| tags := Some ["#project/alpha"];
            frontmatter := Some (FmSingle (YamlString "todo")) |} in
  (hasTag cache "project", hasTag cache "#project", hasTag cache "todo",
   hasTag cache "proj", hasTag None "project")
  = (Normal true, Normal true, Normal true, Normal false, Normal false).
Proof. reflexivity. Qed.

(** Front-matter tags that are no strings: a number among the tags makes
    [hasTag] throw unless a tag before it (inline or not) has matched; a
    falsy single value ([0], [null]) is passed over, a truthy one
    throws. *)
Example frontmatter_not_strings :
  let numbered :=
    Some {| tags := Some ["#inline"];
            frontmatter := Some (FmArray [YamlString "area"; YamlOther true;
                                          YamlString "late"]) |} in
  (hasTag numbered "inline", hasTag numbered "area", hasTag numbered "late",
   hasTag (Some {| tags := None; frontmatter := Some (FmSingle (YamlOther false)) |}) "x",
   hasTag (Some {| tags := None; frontmatter := Some (FmSingle (YamlOther true)) |}) "x")
  = (Normal true, Normal true, TypeError, Normal false, TypeError).
Proof. reflexivity. Qed.

(** [parseInt(_, 16)] on a few strings: digits with a rest, no digit,
    white space (a space; U+00A0) and [0x], signs, and numerals past
    [2^53], which are rounded to the nearest double (a tie to the even
    one). *)
Example parseInt16_samples :
  (JS.parseInt16 "FF6B6B", JS.parseInt16 "12xyz", JS.parseInt16 "", JS.parseInt16 "zz",
   JS.parseInt16 " 0x1f", JS.parseInt16 "-a", JS.parseInt16 "-0", JS.parseInt16 "0x",
   JS.parseInt16 (utf8 160 +:+ "ff"),
   JS.parseInt16 "FFFFFFFFFFFFFF", JS.parseInt16 "20000000000001",
   JS.parseInt16 "20000000000003")
  = (JS.Num 16739179, JS.Num 18, JS.NaN, JS.NaN,
     JS.Num 31, JS.Num (-10), JS.NegZero, JS.NaN,
     JS.Num 255,
     JS.Num 72057594037927936, JS.Num 9007199254740992,
     JS.Num 9007199254740996).
Proof. by vm_compute. Qed.

(* ===================================================================== *)
(** ** Further properties of the graph builder *)
(* ===================================================================== *)

Section graph_builder_exact.
Implicit Types adj : gmap string (list string).

Lemma foldl_addEdge_forward_edge k (targets : list string) adj x y :
  edge (foldl (λ m t, addEdge k t m) adj targets) x y ↔
  edge adj x y ∨ ∃ t, t ∈ targets ∧ ((x = k ∧ y = t) ∨ (x = t ∧ y = k)).
Proof.
  revert adj. induction targets as [|t targets IH]; intros adj; simpl.
  - split; [by left|]. intros [?|(t & []%elem_of_nil & _)]. done.
  - rewrite IH, addEdge_edge. setoid_rewrite elem_of_cons. naive_solver.
Qed.

Lemma foldl_addEdge_reverse_edge k (sources : list string) adj x y :
  edge (foldl (λ m s, addEdge s k m) adj sources) x y ↔
  edge adj x y ∨ ∃ t, t ∈ sources ∧ ((x = k ∧ y = t) ∨ (x = t ∧ y = k)).
Proof.
  revert adj. induction sources as [|t sources IH]; intros adj; simpl.
  - split; [by left|]. intros [?|(t & []%elem_of_nil & _)]. done.
  - rewrite IH, addEdge_edge. setoid_rewrite elem_of_cons. naive_solver.
Qed.

Lemma foldl_addEdge_forward_is_Some k (targets : list string) adj x :
  is_Some (foldl (λ m t, addEdge k t m) adj targets !! x) ↔
  is_Some (adj !! x) ∨ (targets ≠ [] ∧ x = k) ∨ x ∈ targets.
Proof.
  revert adj. induction targets as [|t targets IH]; intros adj; simpl.
  - rewrite elem_of_nil. naive_solver.
  - rewrite IH, addEdge_is_Some, elem_of_cons.
    destruct targets; naive_solver.
Qed.

Lemma foldl_addEdge_reverse_is_Some k (sources : list string) adj x :
  is_Some (foldl (λ m s, addEdge s k m) adj sources !! x) ↔
  is_Some (adj !! x) ∨ (sources ≠ [] ∧ x = k) ∨ x ∈ sources.
Proof.
  revert adj. induction sources as [|t sources IH]; intros adj; simpl.
  - rewrite elem_of_nil. naive_solver.
  - rewrite IH, addEdge_is_Some, elem_of_cons.
    destruct sources; naive_solver.
Qed.

Lemma linkNode_edge adj e x y :
  edge (linkNode adj e) x y ↔
  edge adj x y ∨ ∃ other, other ∈ linksOf e ∧
    ((x = e.1 ∧ y = other) ∨ (x = other ∧ y = e.1)).
Proof.
  unfold linkNode, linksOf. destruct e.2 as [node|].
  - rewrite foldl_addEdge_reverse_edge, foldl_addEdge_forward_edge.
    setoid_rewrite elem_of_app. naive_solver.
  - split; [by left|]. intros [?|(t & []%elem_of_nil & _)]. done.
Qed.

Lemma linkNode_is_Some adj e x :
  is_Some (linkNode adj e !! x) ↔
  is_Some (adj !! x) ∨ (linksOf e ≠ [] ∧ x = e.1) ∨ x ∈ linksOf e.
Proof.
  unfold linkNode, linksOf. destruct e.2 as [node|].
  - rewrite foldl_addEdge_reverse_is_Some, foldl_addEdge_forward_is_Some.
    rewrite elem_of_app.
    destruct (getLinks (forward node)), (getLinks (reverse node)); naive_solver.
  - rewrite elem_of_nil. naive_solver.
Qed.

Lemma foldl_linkNode_edge entries adj x y :
  edge (foldl linkNode adj entries) x y ↔
  edge adj x y ∨ ∃ e other, e ∈ entries ∧ other ∈ linksOf e ∧
    ((x = e.1 ∧ y = other) ∨ (x = other ∧ y = e.1)).
Proof.
  revert adj. induction entries as [|e entries IH]; intros adj; simpl.
  - split; [by left|]. intros [?|(e & t & []%elem_of_nil & _)]. done.
  - rewrite IH, linkNode_edge. setoid_rewrite elem_of_cons. naive_solver.
Qed.

Lemma foldl_linkNode_is_Some entries adj x :
  is_Some (foldl linkNode adj entries !! x) ↔
  is_Some (adj !! x) ∨ ∃ e, e ∈ entries ∧ ((linksOf e ≠ [] ∧ x = e.1) ∨ x ∈ linksOf e).
Proof.
  revert adj. induction entries as [|e entries IH]; intros adj; simpl.
  - split; [by left|]. intros [?|(e & []%elem_of_nil & _)]. done.
  - rewrite IH, linkNode_is_Some. setoid_rewrite elem_of_cons. naive_solver.
Qed.

Lemma foldl_initNode_edge entries adj x y :
  edge (foldl initNode adj entries) x y ↔ edge adj x y.
Proof.
  revert adj. induction entries as [|e entries IH]; intros adj; simpl; [done|].
  rewrite IH. apply ensureKey_edge.
Qed.

Lemma foldl_initNode_is_Some entries adj x :
  is_Some (foldl initNode adj entries !! x) ↔
  is_Some (adj !! x) ∨ x ∈ entries.*1.
Proof.
  revert adj. induction entries as [|e entries IH]; intros adj; simpl.
  - rewrite elem_of_nil. naive_solver.
  - rewrite IH. unfold initNode. rewrite ensureKey_is_Some, elem_of_cons.
    naive_solver.
Qed.

Lemma no_edge_empty x y : ¬ edge (∅ : gmap string (list string)) x y.
Proof. intros (ns & Hns & _). by rewrite lookup_empty in Hns. Qed.

Lemma buildFromNodes_edge nodes x y :
  edge (buildFromNodes nodes) x y ↔ inputLink nodes x y.
Proof.
  unfold buildFromNodes, inputLink.
  rewrite foldl_linkNode_edge, foldl_initNode_edge.
  split; [|by right]. intros [?%no_edge_empty|?]; done.
Qed.

Lemma buildFromNodes_dom nodes : dom (buildFromNodes nodes) = graphIds nodes.
Proof.
  apply set_eq. intros x. rewrite elem_of_dom. unfold buildFromNodes, graphIds.
  rewrite foldl_linkNode_is_Some, foldl_initNode_is_Some, lookup_empty.
  rewrite elem_of_union, !elem_of_list_to_set, list_elem_of_bind.
  split.
  - intros [[[? [=]]|?]|(e & He & [[_ ->]|?])]; [by left| |right; by exists e].
    left. apply list_elem_of_fmap. by exists e.
  - intros [?|(e & ? & ?)]; [left; by right|right; exists e; auto].
Qed.

(** X1.  The adjacency list [buildFromNodes] makes holds exactly the
    links of the input: [b] is a neighbour of [a] if and only if some
    entry of the input with the id of one of them lists the other,
    forward or reverse; and its keys are exactly the ids of the entries
    and the ids they link to.  No edge and no key is invented. *)
Theorem buildFromNodes_exact (nodes : nodeCollection) :
  (∀ a b, edge (buildFromNodes nodes) a b ↔ inputLink nodes a b)
  ∧ (∀ a, is_Some (buildFromNodes nodes !! a) ↔ a ∈ graphIds nodes)
  ∧ (∀ a, a ∈ graphIds nodes ↔
       a ∈ (nodeEntries nodes).*1 ∨ ∃ b, inputLink nodes a b).
Proof.
  split_and!.
  - intros a b. apply buildFromNodes_edge.
  - intros a. by rewrite <- buildFromNodes_dom, elem_of_dom.
  - intros a. unfold graphIds, inputLink.
    rewrite elem_of_union, !elem_of_list_to_set, list_elem_of_bind. split.
    + intros [?|(e & Ha & He)]; [by left|right].
      exists e.1, e, a. auto.
    + intros [?|(b & e & other & He & Hother & [[-> ->]|[-> ->]])]; [by left| |].
      * left. apply list_elem_of_fmap. by exists e.
      * right. by exists e.
Qed.

(** X3.  [hasNodes()] answers whether the input had any entry (for an
    array: any truthy node with a truthy id), and [getNodeCount()] is
    the number of distinct identifiers among the entries and the
    identifiers they link to. *)
Theorem hasNodes_getNodeCount_after_build (nodes : nodeCollection) :
  (hasNodes (buildFromNodes nodes) = true ↔ nodeEntries nodes ≠ [])
  ∧ getNodeCount (buildFromNodes nodes) = size (graphIds nodes).
Proof.
  assert (getNodeCount (buildFromNodes nodes) = size (graphIds nodes)) as Hcount.
  { unfold getNodeCount. by rewrite <- buildFromNodes_dom, size_dom. }
  split; [|done]. unfold hasNodes. fold (getNodeCount (buildFromNodes nodes)).
  rewrite Hcount, Nat.ltb_lt. split.
  - intros Hpos Hnil.
    assert (graphIds nodes = ∅) as Hempty
      by (unfold graphIds; rewrite Hnil; set_solver).
    rewrite Hempty, size_empty in Hpos. lia.
  - intros Hne. destruct (nodeEntries nodes) as [|e entries] eqn:Hentries; [done|].
    assert (e.1 ∈ graphIds nodes) as Hin
      by (unfold graphIds; rewrite Hentries; set_solver).
    destruct (size (graphIds nodes)) eqn:Hsize; [|lia].
    apply size_empty_inv in Hsize. set_solver.
Qed.

End graph_builder_exact.

Section graph_builder_sets.
Implicit Types adj : gmap string (list string).

Lemma setAdd_NoDup x (s : list string) : NoDup s → NoDup (setAdd x s).
Proof.
  intros Hs. unfold setAdd. destruct (decide (x ∈ s)); [done|].
  apply NoDup_app. split_and!; [done| |apply NoDup_singleton].
  intros y Hy ->%list_elem_of_singleton. done.
Qed.

Lemma setAdd_member x (s : list string) : x ∈ s → setAdd x s = s.
Proof. intros Hx. unfold setAdd. by rewrite decide_True. Qed.

Lemma duplicateFree_ensureKey k adj : duplicateFree adj → duplicateFree (ensureKey k adj).
Proof.
  intros Hadj u ns. unfold ensureKey. destruct (has adj k); [apply Hadj|].
  destruct (decide (k = u)) as [->|Hne].
  - rewrite lookup_insert_eq. intros [= <-]. constructor.
  - rewrite lookup_insert_ne by done. apply Hadj.
Qed.

Lemma duplicateFree_alter x k adj :
  duplicateFree adj → duplicateFree (alter (setAdd x) k adj).
Proof.
  intros Hadj u ns. destruct (decide (k = u)) as [->|Hne].
  - rewrite lookup_alter_eq. destruct (adj !! u) as [old|] eqn:Hold; [|done].
    intros [= <-]. apply setAdd_NoDup. by eapply Hadj.
  - rewrite lookup_alter_ne by done. apply Hadj.
Qed.

Lemma duplicateFree_addEdge a b adj : duplicateFree adj → duplicateFree (addEdge a b adj).
Proof.
  intros Hadj. unfold addEdge.
  by do 2 apply duplicateFree_alter; do 2 apply duplicateFree_ensureKey.
Qed.

Lemma duplicateFree_linkNode adj e : duplicateFree adj → duplicateFree (linkNode adj e).
Proof.
  intros Hadj. unfold linkNode. destruct e.2 as [node|]; [|done].
  apply (foldl_preserves duplicateFree); [intros; by apply duplicateFree_addEdge|].
  apply (foldl_preserves duplicateFree); [intros; by apply duplicateFree_addEdge|done].
Qed.

Lemma duplicateFree_buildFromNodes nodes : duplicateFree (buildFromNodes nodes).
Proof.
  unfold buildFromNodes.
  apply (foldl_preserves duplicateFree); [intros; by apply duplicateFree_linkNode|].
  apply (foldl_preserves duplicateFree); [intros; by apply duplicateFree_ensureKey|].
  intros u ns. by rewrite lookup_empty.
Qed.

Lemma ensureKey_present k adj : is_Some (adj !! k) → ensureKey k adj = adj.
Proof. intros Hk. unfold ensureKey. by rewrite (proj2 (has_true adj k) Hk). Qed.

Lemma addEdge_present a b adj :
  edge adj a b → edge adj b a → addEdge a b adj = adj.
Proof.
  intros (nsa & Ha & Hb) (nsb & Hb' & Ha'). unfold addEdge.
  rewrite (ensureKey_present a adj), (ensureKey_present b adj) by (by eexists).
  rewrite (alter_id (setAdd b) adj a).
  - apply alter_id. intros ns Hns. simplify_eq. by apply setAdd_member.
  - intros ns Hns. simplify_eq. by apply setAdd_member.
Qed.

(** X2.  Neighbour sets behave as sets: after [buildFromNodes] no
    neighbour list holds an identifier twice, whatever links the input
    repeats, and adding an edge that is already there, in either
    direction, leaves the adjacency list as it is. *)
Theorem neighbour_sets_duplicate_free :
  (∀ nodes u, NoDup (getDirectNeighbors (buildFromNodes nodes) u))
  ∧ (∀ a b adj, addEdge a b (addEdge a b adj) = addEdge a b adj)
  ∧ (∀ a b adj, addEdge b a (addEdge a b adj) = addEdge a b adj).
Proof.
  split_and!.
  - intros nodes u. unfold getDirectNeighbors.
    destruct (buildFromNodes nodes !! u) as [ns|] eqn:Hns; [|constructor].
    by eapply duplicateFree_buildFromNodes.
  - intros a b adj. apply addEdge_present; apply addEdge_edge; auto.
  - intros a b adj. apply addEdge_present; apply addEdge_edge; auto.
Qed.

End graph_builder_sets.

Section link_collections.

Lemma linkOf_own_key (t : linkTarget) : linkOf t (stringKey t) = linkOf t None.
Proof. destruct t as [s|i]; simpl; [|done]. by destruct (JS.includesChar "/" s). Qed.

Lemma linkOf_object (i : option string) (k : option string) :
  k = None → ∀ x, x ∈ linkOf (TObject i) k → i = Some x ∧ x ≠ "".
Proof.
  intros -> x. simpl. destruct i as [s|]; simpl; [|by intros ?%elem_of_nil].
  destruct (String.eqb s "") eqn:Hs; simpl; [by intros ?%elem_of_nil|].
  intros ->%list_elem_of_singleton. split; [done|]. by apply String.eqb_neq.
Qed.

(** X4.  [getLinks] reads a [Set] and an array with the same elements
    alike (the key a [Set] passes to the callback is the element
    itself, so the test of the key for a [/] changes nothing); a raw
    string element is always a link, even the empty string; an object
    element contributes its [id] only when that is truthy, so a
    collection of objects never yields the empty identifier. *)
Theorem getLinks_set_like_array :
  (∀ elems, getLinks (LSet elems) = getLinks (LArray elems))
  ∧ (∀ ids, getLinks (LSet (TString <$> ids)) = ids)
  ∧ (∀ ids x, x ∈ getLinks (LSet (TObject <$> ids)) ↔ Some x ∈ ids ∧ x ≠ "").
Proof.
  split_and!.
  - intros elems. simpl. induction elems as [|t elems IH]; [done|].
    csimpl. by rewrite IH, linkOf_own_key.
  - intros ids. simpl. induction ids as [|s ids IH]; [done|].
    csimpl. rewrite IH. by destruct (JS.includesChar "/" s).
  - intros ids x. simpl. rewrite list_elem_of_bind. split.
    + intros (t & Hx & (i & -> & Hi)%list_elem_of_fmap).
      apply linkOf_object in Hx as [-> Hne]; done.
    + intros [Hin Hne]. exists (TObject (Some x)). split.
      * simpl. apply String.eqb_neq in Hne. rewrite Hne. simpl. by left.
      * apply list_elem_of_fmap. by exists (Some x).
Qed.

End link_collections.

(* ===================================================================== *)
(** ** Further properties of the distance engine *)
(* ===================================================================== *)

Section search_results.
Variable adj : gmap string (list string).
Variable sourceId : string.

Implicit Types v w u : string.

Lemma nsteps_from_absent (n : nat) v :
  adj !! sourceId = None → nsteps (edge adj) n sourceId v → n = 0%nat ∧ v = sourceId.
Proof.
  intros Habsent Hn. inversion Hn as [|? ? w ? Hedge ?]; subst; [done|].
  by apply (no_edge_from_absent adj) in Hedge.
Qed.

Lemma hopInv_complete (maxHops : Z) dist level visited result :
  hopInv adj sourceId maxHops dist level
    {| hs_visited := visited; hs_queue := []; hs_result := result |} →
  ∀ n v, nsteps (edge adj) n sourceId v → Z.of_nat n ≤ maxHops →
    v = sourceId ∨ ∃ hop, v ∈ hopSet result hop.
Proof.
  intros Hinv n v Hn Hle.
  destruct (hopInv_closed adj sourceId maxHops dist level visited result Hinv n v Hn Hle)
    as (j & Hj & Hjn).
  destruct Hinv as [Hsrc Hpath Hvis Huni Hq Hdone Hres Hkeys Horder Hbound].
  simpl in *. destruct j as [|j].
  - left. specialize (Hpath v 0%nat Hj). by inversion Hpath.
  - right. exists (Z.of_nat (S j)).
    destruct (Hdone v (S j) Hj) as [Hin|[Hrec _]]; [by apply elem_of_nil in Hin|].
    apply Hrec. lia.
Qed.

Lemma hopLoop_complete (maxHops : Z) (fuel : nat) dist level (st : hopState) :
  hopInv adj sourceId maxHops dist level st → (hopMeasure adj st ≤ fuel)%nat →
  ∃ result, hopLoop fuel adj maxHops st = Some result
    ∧ ∀ n v, nsteps (edge adj) n sourceId v → Z.of_nat n ≤ maxHops →
        v = sourceId ∨ ∃ hop, v ∈ hopSet result hop.
Proof.
  revert dist level st.
  induction fuel as [|fuel IH]; intros dist level [visited queue result] Hinv Hfuel.
  - destruct queue as [|[currentId distance] queue];
      [|unfold hopMeasure in Hfuel; simpl in Hfuel; lia].
    exists result. split; [done|]. by apply (hopInv_complete maxHops dist level visited).
  - destruct queue as [|[currentId distance] queue]; simpl.
    + exists result. split; [done|].
      by apply (hopInv_complete maxHops dist level visited).
    + destruct (hopStep_inv adj sourceId maxHops dist level currentId distance
                  visited queue result Hinv) as (dist' & level' & Hinv' & Hm).
      apply (IH dist' level'); [done|lia].
Qed.

Lemma hopInv_initial (maxHops : Z) :
  is_Some (adj !! sourceId) →
  hopInv adj sourceId maxHops {[ sourceId := 0%nat ]} 0%nat
    {| hs_visited := {[sourceId]}; hs_queue := [(sourceId, 0)];
       hs_result := emptyHops maxHops |}
  ∧ (hopMeasure adj {| hs_visited := {[sourceId]}; hs_queue := [(sourceId, 0%Z)];
                       hs_result := emptyHops maxHops |}
     ≤ size (nodeUniverse adj))%nat.
Proof.
  intros Hhas. split.
  - split; simpl.
    + apply lookup_singleton_eq.
    + intros v n [-> <-]%lookup_singleton_Some. constructor.
    + intros v. rewrite elem_of_singleton. split.
      * intros ->. rewrite lookup_singleton_eq. by eexists.
      * intros [n [-> _]%lookup_singleton_Some]. done.
    + intros v ->%elem_of_singleton. by apply key_in_universe.
    + intros v k [= -> ->]%list_elem_of_singleton.
      exists 0%nat. split; [apply lookup_singleton_eq|done].
    + intros v n [-> <-]%lookup_singleton_Some. left. by left.
    + intros h v. rewrite hopSet_emptyHops. set_solver.
    + apply emptyHops_is_Some.
    + exists [(sourceId, 0)], []. split_and!; [done| |].
      * intros v k [= -> ->]%list_elem_of_singleton. done.
      * intros v k Hin. by apply elem_of_nil in Hin.
    + intros v n [-> <-]%lookup_singleton_Some. lia.
  - unfold hopMeasure. simpl.
    pose proof (size_unvisited (nodeUniverse adj) sourceId ∅
                  (key_in_universe _ _ Hhas) (not_elem_of_empty _)) as Hsize.
    rewrite union_empty_r_L, difference_empty_L in Hsize. lia.
Qed.

(** What [findNeighborsByHop] returns, with the completeness of the hop
    sets within [maxHops]. *)
Lemma findNeighborsByHop_spec (maxHops : Z) :
  ∃ result, findNeighborsByHop adj sourceId maxHops = Some result
    ∧ (∀ hop v, v ∈ hopSet result hop ↔
         1 ≤ hop ≤ maxHops ∧ distance adj sourceId v hop)
    ∧ (∀ n v, nsteps (edge adj) n sourceId v → Z.of_nat n ≤ maxHops →
         v = sourceId ∨ ∃ hop, v ∈ hopSet result hop).
Proof.
  unfold findNeighborsByHop. destruct (has adj sourceId) eqn:Hhas; simpl.
  - apply has_true in Hhas. destruct (hopInv_initial maxHops Hhas) as [Hinv Hm].
    destruct (hopLoop_correct adj sourceId maxHops _ _ _ _ Hinv Hm)
      as (result & Heq & Hspec & _).
    destruct (hopLoop_complete maxHops _ _ _ _ Hinv Hm) as (result' & Heq' & Hcomplete).
    exists result. simplify_eq. done.
  - apply has_false in Hhas. exists (emptyHops maxHops). split_and!; [done| |].
    + intros hop v. rewrite hopSet_emptyHops. split; [set_solver|].
      intros [Hrange (n & -> & Hn & _)].
      apply nsteps_from_absent in Hn as [-> _]; [lia|done].
    + intros n v Hn _. left. by apply nsteps_from_absent in Hn as [_ ->].
Qed.

(** What [getAllConnectedNodes] returns. *)
Lemma getAllConnectedNodes_spec :
  ∃ connected, getAllConnectedNodes adj sourceId = Some connected
    ∧ ∀ v, v ∈ connected ↔ v ≠ sourceId ∧ reachable adj sourceId v.
Proof.
  unfold getAllConnectedNodes. destruct (has adj sourceId) eqn:Hhas; simpl.
  - apply has_true in Hhas. apply connLoop_correct.
    + split; simpl.
      * set_solver.
      * intros v ->%elem_of_singleton. apply rtc_refl.
      * intros v ->%elem_of_singleton. by apply key_in_universe.
      * intros v ->%list_elem_of_singleton. set_solver.
      * set_solver.
      * intros v ->%elem_of_singleton. left. by left.
    + unfold connMeasure. simpl.
      pose proof (size_unvisited (nodeUniverse adj) sourceId ∅
                    (key_in_universe _ _ Hhas) (not_elem_of_empty _)) as Hsize.
      rewrite union_empty_r_L, difference_empty_L in Hsize. lia.
  - apply has_false in Hhas. exists ∅. split; [done|].
    intros v. split; [set_solver|]. intros [Hne Hv].
    apply rtc_nsteps in Hv as [n Hn].
    by apply nsteps_from_absent in Hn as [_ ->].
Qed.

Lemma distance_one v :
  distance adj sourceId v 1 ↔ edge adj sourceId v ∧ v ≠ sourceId.
Proof.
  split.
  - intros (n & Hn & Hpath & Hmin). assert (n = 1%nat) as -> by lia.
    split; [by apply nsteps_once_inv|].
    intros ->. specialize (Hmin 0%nat (nsteps_O _ _)). lia.
  - intros [Hedge Hne]. exists 1%nat. split_and!; [done|by apply nsteps_once|].
    intros [|n'] Hn'; [|lia]. inversion Hn'. by subst.
Qed.

Lemma distance_reachable v (hop : Z) :
  distance adj sourceId v hop → 1 ≤ hop → v ≠ sourceId ∧ reachable adj sourceId v.
Proof.
  intros (n & -> & Hpath & Hmin) Hhop. split.
  - intros ->. specialize (Hmin 0%nat (nsteps_O _ _)). lia.
  - by eapply rtc_nsteps_2.
Qed.

(** X5.  With [maxHops] at least 1, the hop-1 set of [findNeighborsByHop]
    is the set [getDirectNeighbors] returns, without the source itself
    (a node linking to itself is not its own neighbour at hop 1). *)
Theorem hop_one_is_direct_neighbours (maxHops : Z) (Hhops : 1 ≤ maxHops) :
  ∃ result, findNeighborsByHop adj sourceId maxHops = Some result
    ∧ ∀ v, v ∈ hopSet result 1 ↔ v ∈ getDirectNeighbors adj sourceId ∧ v ≠ sourceId.
Proof.
  destruct (findNeighborsByHop_spec maxHops) as (result & Heq & Hspec & _).
  exists result. split; [done|]. intros v.
  rewrite Hspec, distance_one, edge_neighborsOf. unfold getDirectNeighbors, neighborsOf.
  intuition lia.
Qed.

(** X6.  Every node of a hop set is in the connected set of the same
    source; and a node of the connected set that is in no hop set is
    farther than [maxHops] from the source: every path to it has more
    than [maxHops] edges. *)
Theorem hop_sets_within_connected (maxHops : Z) :
  ∃ result connected,
    findNeighborsByHop adj sourceId maxHops = Some result
    ∧ getAllConnectedNodes adj sourceId = Some connected
    ∧ (∀ hop v, v ∈ hopSet result hop → v ∈ connected)
    ∧ (∀ v, v ∈ connected → (∀ hop, v ∉ hopSet result hop) →
         ∀ n, nsteps (edge adj) n sourceId v → maxHops < Z.of_nat n).
Proof.
  destruct (findNeighborsByHop_spec maxHops) as (result & Heq & Hspec & Hcomplete).
  destruct getAllConnectedNodes_spec as (connected & Heqc & Hconn).
  exists result, connected. split_and!; [done|done| |].
  - intros hop v [Hrange Hdist]%Hspec. apply Hconn.
    eapply distance_reachable; [done|lia].
  - intros v [Hne _]%Hconn Hnone n Hn.
    destruct (decide (Z.of_nat n ≤ maxHops)) as [Hle|?]; [|lia].
    destruct (Hcomplete n v Hn Hle) as [->|[hop Hin]]; [done|].
    by apply Hnone in Hin.
Qed.

(** X7.  Raising [maxHops] leaves the nearer hop sets as they are: the
    hop set of [hop] is the same for every [maxHops] from [hop] on. *)
Theorem hop_sets_independent_of_horizon (maxHops maxHops' hop : Z)
    (Hhop : hop ≤ maxHops) (Hhop' : hop ≤ maxHops') :
  ∃ result result',
    findNeighborsByHop adj sourceId maxHops = Some result
    ∧ findNeighborsByHop adj sourceId maxHops' = Some result'
    ∧ hopSet result hop = hopSet result' hop.
Proof.
  destruct (findNeighborsByHop_spec maxHops) as (result & Heq & Hspec & _).
  destruct (findNeighborsByHop_spec maxHops') as (result' & Heq' & Hspec' & _).
  exists result, result'. split_and!; [done|done|].
  apply set_eq. intros v. rewrite Hspec, Hspec'. intuition lia.
Qed.

End search_results.

(** X5 on Scenario A: the hop-1 set of [B] in the chain is [{A, C}],
    the direct neighbours of [B]. *)
Lemma hop_one_is_direct_neighbours_witness :
  ∃ result, findNeighborsByHop (buildFromNodes chainABCD) "B" 2 = Some result
    ∧ ∀ v, v ∈ hopSet result 1 ↔
        v ∈ getDirectNeighbors (buildFromNodes chainABCD) "B" ∧ v ≠ "B".
Proof. apply (hop_one_is_direct_neighbours (buildFromNodes chainABCD) "B" 2). lia. Defined.

(** X7 on Scenario A: the hop-1 set of [B] is the same for
    [maxHops = 1] and [maxHops = 3]. *)
Lemma hop_sets_independent_of_horizon_witness :
  ∃ result result',
    findNeighborsByHop (buildFromNodes chainABCD) "B" 1 = Some result
    ∧ findNeighborsByHop (buildFromNodes chainABCD) "B" 3 = Some result'
    ∧ hopSet result 1 = hopSet result' 1.
Proof.
  apply (hop_sets_independent_of_horizon (buildFromNodes chainABCD) "B" 1 3 1); lia.
Defined.

Section symmetric_graphs.
Variable adj : gmap string (list string).
Hypothesis Hsymmetric : symmetric adj.

Lemma nsteps_reverse (n : nat) (x y : string) :
  nsteps (edge adj) n x y → nsteps (edge adj) n y x.
Proof.
  induction 1 as [|n x y z Hxy _ IH]; [constructor|].
  eapply nsteps_r; [done|]. by apply Hsymmetric.
Qed.

Lemma distance_reverse (x y : string) (hop : Z) :
  distance adj x y hop → distance adj y x hop.
Proof.
  intros (n & -> & Hpath & Hmin). exists n. split_and!; [done|by apply nsteps_reverse|].
  intros n' Hn'. by apply Hmin, nsteps_reverse.
Qed.

(** X8.  On a symmetric adjacency list the searches are symmetric in
    their two nodes: [v] is at hop [hop] from [s] exactly when [s] is at
    hop [hop] from [v], and [v] is in the connected set of [s] exactly
    when [s] is in the connected set of [v]. *)
Theorem searches_symmetric (s v : string) (maxHops : Z) :
  ∃ fromS fromV connectedS connectedV,
    findNeighborsByHop adj s maxHops = Some fromS
    ∧ findNeighborsByHop adj v maxHops = Some fromV
    ∧ getAllConnectedNodes adj s = Some connectedS
    ∧ getAllConnectedNodes adj v = Some connectedV
    ∧ (∀ hop, v ∈ hopSet fromS hop ↔ s ∈ hopSet fromV hop)
    ∧ (v ∈ connectedS ↔ s ∈ connectedV).
Proof.
  destruct (findNeighborsByHop_spec adj s maxHops) as (fromS & HeqS & HspecS & _).
  destruct (findNeighborsByHop_spec adj v maxHops) as (fromV & HeqV & HspecV & _).
  destruct (getAllConnectedNodes_spec adj s) as (connectedS & HeqcS & HconnS).
  destruct (getAllConnectedNodes_spec adj v) as (connectedV & HeqcV & HconnV).
  exists fromS, fromV, connectedS, connectedV. split_and!; try done.
  - intros hop. rewrite HspecS, HspecV.
    split; intros [? ?]; (split; [done|by apply distance_reverse]).
  - rewrite HconnS, HconnV. unfold reachable. rewrite !rtc_nsteps.
    split; intros [Hne [n Hn]]; (split; [done|]); exists n; by apply nsteps_reverse.
Qed.

End symmetric_graphs.

(** X8 on Scenario A: [D] is at hop 2 from [B] exactly when [B] is at
    hop 2 from [D], in the chain built by [buildFromNodes]. *)
Lemma searches_symmetric_witness :
  ∃ fromS fromV connectedS connectedV,
    findNeighborsByHop (buildFromNodes chainABCD) "B" 2 = Some fromS
    ∧ findNeighborsByHop (buildFromNodes chainABCD) "D" 2 = Some fromV
    ∧ getAllConnectedNodes (buildFromNodes chainABCD) "B" = Some connectedS
    ∧ getAllConnectedNodes (buildFromNodes chainABCD) "D" = Some connectedV
    ∧ (∀ hop, "D" ∈ hopSet fromS hop ↔ "B" ∈ hopSet fromV hop)
    ∧ ("D" ∈ connectedS ↔ "B" ∈ connectedV).
Proof.
  apply (searches_symmetric (buildFromNodes chainABCD)).
  apply wellFormed_buildFromNodes.
Defined.

(* ===================================================================== *)
(** ** Further properties of the style resolver *)
(* ===================================================================== *)

Lemma firstHop_Some (maxHops : Z) (neighborsByHop : gmap Z (gset string))
    (nodeId : string) (hop : Z) :
  firstHop maxHops neighborsByHop nodeId = Some hop →
  1 ≤ hop ≤ maxHops ∧ nodeId ∈ hopSet neighborsByHop hop.
Proof.
  unfold firstHop. intros Hhead%head_Some_elem_of.
  apply list_elem_of_filter in Hhead as [Hin Hseq]. apply elem_of_seqZ in Hseq.
  split; [lia|done].
Qed.

Lemma firstHop_None (maxHops : Z) (neighborsByHop : gmap Z (gset string))
    (nodeId : string) :
  firstHop maxHops neighborsByHop nodeId = None ↔
  ∀ hop, 1 ≤ hop ≤ maxHops → nodeId ∉ hopSet neighborsByHop hop.
Proof.
  unfold firstHop. rewrite head_None. split.
  - intros Hnil hop Hhop Hin.
    assert (hop ∈ filter (λ hop, nodeId ∈ hopSet neighborsByHop hop) (seqZ 1 maxHops))
      as Hmem by (apply list_elem_of_filter; split; [done|apply elem_of_seqZ; lia]).
    rewrite Hnil in Hmem. by apply elem_of_nil in Hmem.
  - intros Hnone.
    destruct (filter _ _) as [|hop l] eqn:Hfilter; [done|].
    assert (hop ∈ filter (λ hop, nodeId ∈ hopSet neighborsByHop hop) (seqZ 1 maxHops))
      as Hmem by (rewrite Hfilter; by left).
    apply list_elem_of_filter in Hmem as [Hin Hseq]. apply elem_of_seqZ in Hseq.
    exfalso. apply (Hnone hop); [lia|done].
Qed.

(** The hop level of a node that is not the active one. *)
Lemma hopLevelOf_other (settings : Settings.t) (activeNodeId : option string)
    (neighborsByHop : gmap Z (gset string)) (allConnected : gset string)
    (nodeId : string) :
  JS.truthyStr activeNodeId = true → Some nodeId ≠ activeNodeId →
  let level :=
    hopLevelOf settings activeNodeId neighborsByHop allConnected nodeId in
  match firstHop (Settings.maxHops settings) neighborsByHop nodeId with
  | Some hop => level = hop
  | None =>
      (nodeId ∈ allConnected ∧ level = Settings.maxHops settings + 1)
      ∨ ((nodeId ∉ allConnected) ∧ level = -1)
  end.
Proof.
  intros Htruthy Hother. unfold hopLevelOf. rewrite Htruthy.
  rewrite bool_decide_eq_false_2 by done.
  destruct (firstHop _ _ _) as [hop|] eqn:Hfirst; simpl.
  - apply firstHop_Some in Hfirst as [Hrange _].
    replace (hop =? -1) with false by (symmetry; apply Z.eqb_neq; lia). done.
  - destruct (decide (nodeId ∈ allConnected)) as [Hin|Hout].
    + left. by rewrite bool_decide_eq_true_2.
    + right. by rewrite bool_decide_eq_false_2.
Qed.

Section hop_levels.
Variable adj : gmap string (list string).
Variable settings : Settings.t.
Variable activeId : string.

(** X9.  With [maxHops] at least 1 and the searches run from the active
    node, the hop level [applyStyles] caches for a node tells where the
    node is: 0 exactly for the active node; [hop] in [1..maxHops]
    exactly when the node's shortest distance from the active node is
    [hop]; [maxHops + 1] exactly when the node is reachable but every
    path to it has more than [maxHops] edges; [-1] exactly when it is
    not reachable. *)
Theorem hopLevelOf_classifies
    (Hactive : activeId ≠ "") (Hhops : 1 ≤ Settings.maxHops settings) :
  ∃ neighborsByHop allConnected,
    findNeighborsByHop adj activeId (Settings.maxHops settings) = Some neighborsByHop
    ∧ getAllConnectedNodes adj activeId = Some allConnected
    ∧ ∀ nodeId,
        let level :=
          hopLevelOf settings (Some activeId) neighborsByHop allConnected nodeId in
        (level = 0 ↔ nodeId = activeId)
        ∧ (∀ hop, 1 ≤ hop ≤ Settings.maxHops settings →
             (level = hop ↔ distance adj activeId nodeId hop))
        ∧ (level = Settings.maxHops settings + 1 ↔
             nodeId ≠ activeId ∧ reachable adj activeId nodeId
             ∧ ∀ n, nsteps (edge adj) n activeId nodeId →
                 Settings.maxHops settings < Z.of_nat n)
        ∧ (level = -1 ↔ ¬ reachable adj activeId nodeId).
Proof.
  destruct (findNeighborsByHop_spec adj activeId (Settings.maxHops settings))
    as (neighborsByHop & Heq & Hspec & Hcomplete).
  destruct (getAllConnectedNodes_spec adj activeId) as (allConnected & Heqc & Hconn).
  exists neighborsByHop, allConnected. split_and!; [done|done|].
  intros nodeId level.
  assert (JS.truthyStr (Some activeId) = true) as Htruthy by (by apply truthyStr_Some).
  destruct (decide (nodeId = activeId)) as [->|Hne].
  { (* the active node *)
    assert (level = 0) as ->.
    { unfold level, hopLevelOf. rewrite Htruthy. by rewrite bool_decide_eq_true_2. }
    split_and!.
    - done.
    - intros hop Hhop. split; [lia|].
      intros [? _]%distance_reachable; [done|lia].
    - split; [lia|]. by intros [? _].
    - split; [lia|]. intros Hnot. exfalso. apply Hnot. apply rtc_refl. }
  assert (Some nodeId ≠ Some activeId) as Hother by congruence.
  pose proof (hopLevelOf_other settings (Some activeId) neighborsByHop allConnected
                nodeId Htruthy Hother) as Hlevel.
  fold level in Hlevel. simpl in Hlevel.
  destruct (firstHop (Settings.maxHops settings) neighborsByHop nodeId)
    as [first|] eqn:Hfirst.
  - (* in a hop set *)
    apply firstHop_Some in Hfirst as [Hrange Hin].
    apply Hspec in Hin as Hdist. destruct Hdist as [_ Hdist].
    destruct (distance_reachable adj activeId nodeId first Hdist) as [_ Hreach]; [lia|].
    split_and!.
    + split; [lia|done].
    + intros hop Hhop. split.
      * intros <-. by rewrite Hlevel.
      * intros Hd. rewrite Hlevel. by eapply distance_unique.
    + split; [lia|]. intros (_ & _ & Hfar).
      destruct Hdist as (n & -> & Hn & _). specialize (Hfar n Hn). lia.
    + split; [lia|done].
  - (* in no hop set *)
    pose proof (proj1 (firstHop_None _ _ _) Hfirst) as Hnone.
    assert (∀ hop, 1 ≤ hop ≤ Settings.maxHops settings →
              ¬ distance adj activeId nodeId hop) as Hnodist.
    { intros hop Hhop Hd. apply (Hnone hop Hhop). apply Hspec. done. }
    assert (∀ n, nsteps (edge adj) n activeId nodeId →
              Settings.maxHops settings < Z.of_nat n) as Hfar.
    { intros n Hn.
      destruct (decide (Z.of_nat n ≤ Settings.maxHops settings)) as [Hle|?]; [|lia].
      destruct (Hcomplete n nodeId Hn Hle) as [->|[hop Hin]]; [done|].
      apply Hspec in Hin as Hin'. destruct Hin' as [Hhop _].
      by apply Hnone in Hin. }
    destruct Hlevel as [[Hin Hl]|[Hout Hl]].
    + apply Hconn in Hin as [_ Hreach]. split_and!.
      * split; [lia|done].
      * intros hop Hhop. split; [lia|]. intros Hd. by apply Hnodist in Hd.
      * split; [done|]. intros _. done.
      * split; [lia|done].
    + assert (¬ reachable adj activeId nodeId) as Hunreach.
      { intros Hreach. apply Hout, Hconn. done. }
      split_and!.
      * split; [lia|done].
      * intros hop Hhop. split; [lia|]. intros Hd. by apply Hnodist in Hd.
      * split; [lia|]. by intros (_ & ? & _).
      * done.
Qed.

End hop_levels.

(** X9 on Scenario A with the default settings ([maxHops = 3]) and the
    active node [B]. *)
Lemma hopLevelOf_classifies_witness :
  ∃ neighborsByHop allConnected,
    findNeighborsByHop (buildFromNodes chainABCD) "B" 3 = Some neighborsByHop
    ∧ getAllConnectedNodes (buildFromNodes chainABCD) "B" = Some allConnected
    ∧ ∀ nodeId,
        let level :=
          hopLevelOf DEFAULT_SETTINGS (Some "B") neighborsByHop allConnected nodeId in
        (level = 0 ↔ nodeId = "B")
        ∧ (∀ hop, 1 ≤ hop ≤ 3 →
             (level = hop ↔ distance (buildFromNodes chainABCD) "B" nodeId hop))
        ∧ (level = 3 + 1 ↔
             nodeId ≠ "B" ∧ reachable (buildFromNodes chainABCD) "B" nodeId
             ∧ ∀ n, nsteps (edge (buildFromNodes chainABCD)) n "B" nodeId →
                 3 < Z.of_nat n)
        ∧ (level = -1 ↔ ¬ reachable (buildFromNodes chainABCD) "B" nodeId).
Proof.
  apply (hopLevelOf_classifies (buildFromNodes chainABCD) DEFAULT_SETTINGS "B");
    [discriminate|simpl; lia].
Defined.



Lemma orStr_None (a b : option string) :
  JS.orStr a b = None ↔ JS.truthyStr a = false ∧ b = None.
Proof.
  unfold JS.orStr. destruct (JS.truthyStr a) eqn:Ha.
  - destruct a; [|done]. split; [done|by intros [? _]].
  - split; [done|by intros [_ ?]].
Qed.

Lemma at_zero_None (l : list string) : at_ l 0 = None ↔ l = [].
Proof. unfold at_. simpl. by destruct l. Qed.

Lemma at_nil (i : Z) : at_ [] i = None.
Proof. unfold at_. by destruct (i <? 0). Qed.

(** X11.  The style of a node fails with the [TypeError] of
    [parseColor(undefined)] in exactly one situation: the node is not
    the active node, no rule gives it a (non-empty) colour, the
    hop-colour array is empty, and the node is either within
    [1..maxHops] hops or styled with no active node known.  The active
    node, disconnected nodes and nodes beyond [maxHops] never fail. *)
Theorem resolveNodeStyle_throws_iff
    (settings : Settings.t) (activeNodeId : option string) (nodeId : string)
    (hopLevel : Z) (ruleStyle : option RuleStyle.t) :
  resolveNodeStyle settings activeNodeId nodeId hopLevel ruleStyle = TypeError ↔
  isActive activeNodeId (Some nodeId) = false
  ∧ JS.truthyStr (ruleStyle ≫= RuleStyle.color) = false
  ∧ Settings.hopColors settings = []
  ∧ (1 ≤ hopLevel ≤ Settings.maxHops settings ∨ JS.truthyStr activeNodeId = false).
Proof.
  assert (resolveNodeStyle settings activeNodeId nodeId hopLevel ruleStyle = TypeError ↔
          (nodeColorAlpha settings activeNodeId nodeId hopLevel ruleStyle).1.1 = None)
    as ->.
  { unfold resolveNodeStyle.
    destruct (nodeColorAlpha settings activeNodeId nodeId hopLevel ruleStyle)
      as [[color alpha] size]. simpl. by destruct color. }
  unfold nodeColorAlpha.
  destruct (isActive activeNodeId (Some nodeId)) eqn:Hactive; simpl.
  { split; [done|by intros [? _]]. }
  destruct ((0 <? hopLevel) && (hopLevel <=? Settings.maxHops settings)) eqn:Hrange;
    simpl.
  { apply andb_true_iff in Hrange as [Hpos%Z.ltb_lt Hle%Z.leb_le].
    rewrite !orStr_None, at_zero_None. split.
    - intros (Hrule & _ & Hnil). split_and!; [done|done|done|left; lia].
    - intros (_ & Hrule & Hnil & _). rewrite Hnil, at_nil. done. }
  assert (¬ 1 ≤ hopLevel ≤ Settings.maxHops settings) as Hout.
  { apply andb_false_iff in Hrange as [?%Z.ltb_ge|?%Z.leb_gt]; lia. }
  destruct (JS.truthyStr activeNodeId) eqn:Htruthy; simpl.
  - destruct (hopLevel =? -1); simpl; rewrite orStr_None;
      (split; [by intros [_ ?]|intros (_ & _ & _ & [?|?]); done]).
  - rewrite orStr_None, at_zero_None. split.
    + intros [Hrule Hnil]. split_and!; [done|done|done|by right].
    + intros (_ & Hrule & Hnil & _). done.
Qed.

(** X12.  In every edge colour mode, a link with an active endpoint
    gets opacity 1 and the active width, and any other link gets the
    default or the disconnected width.  In mode [inherit] the colour is
    the cached tint of the source node whenever that node has a cached
    style, and the opacity of a link between two in-range nodes never
    exceeds 0.8. *)
Theorem edge_style_categories
    (settings : Settings.t) (activeNodeId : option string)
    (nodeStyles : gmap string NodeStyleResult.t) (nodeHopLevels : gmap string Z)
    (neighborsByHop : gmap Z (gset string)) (l : link) :
  let style :=
    resolveEdgeStyle settings activeNodeId nodeStyles nodeHopLevels neighborsByHop l in
  let touchesActive :=
    isActive activeNodeId (source l) || isActive activeNodeId (target l) in
  (touchesActive = true →
     EdgeStyle.alpha style = 1%Q
     ∧ EdgeStyle.width style = Settings.activeEdgeWidth settings)
  ∧ (touchesActive = false →
       EdgeStyle.width style = Settings.defaultEdgeWidth settings
       ∨ EdgeStyle.width style = Settings.disconnectedEdgeWidth settings)
  ∧ (Settings.edgeColorMode settings = INHERIT →
       (∀ st, nodeStyles !! default "" (source l) = Some st →
          EdgeStyle.tint style = NodeStyleResult.tint st)
       ∧ (touchesActive = false →
          isInRange settings (source l) neighborsByHop
          && isInRange settings (target l) neighborsByHop = true →
          (EdgeStyle.alpha style <= 8 # 10)%Q)).
Proof.
  intros style touchesActive. subst style touchesActive. unfold resolveEdgeStyle.
  set (touches := isActive activeNodeId (source l) || isActive activeNodeId (target l)).
  set (inRange := isInRange settings (source l) neighborsByHop
                  && isInRange settings (target l) neighborsByHop).
  split_and!.
  - intros ->. by destruct (Settings.edgeColorMode settings).
  - intros ->. destruct (Settings.edgeColorMode settings).
    + destruct inRange; simpl; auto.
    + destruct (minHopOf nodeHopLevels l) as [minHop|]; simpl; [|auto].
      destruct (minHop <=? Settings.maxHops settings); simpl; auto.
    + destruct inRange; simpl; auto.
  - intros ->. split.
    + intros st ->. by destruct touches, inRange.
    + intros -> ->. simpl. apply Q.le_min_r.
Qed.

(** X12 on an instance: in mode [single], a link from the active node. *)
Lemma edge_style_categories_witness :
  EdgeStyle.alpha
    (resolveEdgeStyle DEFAULT_SETTINGS (Some "A") ∅ ∅ ∅
       {| source := Some "A"; target := Some "B" |}) = 1%Q
  ∧ EdgeStyle.width
      (resolveEdgeStyle DEFAULT_SETTINGS (Some "A") ∅ ∅ ∅
         {| source := Some "A"; target := Some "B" |}) = 2%Q.
Proof.
  apply (proj1 (edge_style_categories DEFAULT_SETTINGS (Some "A") ∅ ∅ ∅
                  {| source := Some "A"; target := Some "B" |})).
  reflexivity.
Defined.

(* ===================================================================== *)
(** ** Further properties of the whole pass *)
(* ===================================================================== *)

Lemma hopLevelOf_values (settings : Settings.t) (activeNodeId : option string)
    (neighborsByHop : gmap Z (gset string)) (allConnected : gset string)
    (nodeId : string) :
  let level :=
    hopLevelOf settings activeNodeId neighborsByHop allConnected nodeId in
  level = -1 ∨ level = 0 ∨ 1 ≤ level ≤ Settings.maxHops settings
  ∨ level = Settings.maxHops settings + 1.
Proof.
  simpl. destruct (JS.truthyStr activeNodeId) eqn:Htruthy.
  - destruct (decide (Some nodeId = activeNodeId)) as [Heq|Hother].
    + right; left. unfold hopLevelOf. by rewrite Htruthy, bool_decide_eq_true_2.
    + pose proof (hopLevelOf_other settings activeNodeId neighborsByHop allConnected
                    nodeId Htruthy Hother) as Hlevel. simpl in Hlevel.
      destruct (firstHop _ _ _) as [hop|] eqn:Hfirst.
      * apply firstHop_Some in Hfirst as [Hrange _]. rewrite Hlevel. auto.
      * destruct Hlevel as [[_ ->]|[_ ->]]; auto.
  - left. unfold hopLevelOf. by rewrite Htruthy.
Qed.

Section node_pass.
Variable host : Host.
Variable settings : Settings.t.
Variable activeNodeId : option string.
Variable neighborsByHop : gmap Z (gset string).
Variable allConnected : gset string.

Lemma foldl_styleNode_thrown (entries : list (string * option nodeDesc)) :
  foldl (styleNode host settings activeNodeId neighborsByHop allConnected)
    TypeError entries = TypeError.
Proof. induction entries as [|e entries IH]; [done|]. cbn [foldl]. apply IH. Qed.

Lemma foldl_styleNode_null (entries : list (string * option nodeDesc)) caches k :
  (k, None) ∈ entries →
  foldl (styleNode host settings activeNodeId neighborsByHop allConnected)
    caches entries = TypeError.
Proof.
  revert caches. induction entries as [|e entries IH]; intros caches;
    [by intros ?%elem_of_nil|].
  intros [<-|Hin]%elem_of_cons; cbn [foldl]; [|by apply IH].
  assert (styleNode host settings activeNodeId neighborsByHop allConnected
            caches (k, None) = TypeError) as ->.
  { unfold styleNode. destruct caches as [[styles levels]|]; [|done]. simpl.
    destruct (getStyleFromRules _ _ _); [|done].
    by destruct (resolveNodeStyle _ _ _ _ _). }
  apply foldl_styleNode_thrown.
Qed.

Lemma frontmatterLoop_strings (normalizedPattern : string) (fmTags : list yamlValue) :
  Forall (λ v, ∃ tag, v = YamlString tag) fmTags →
  ∃ b, frontmatterLoop normalizedPattern fmTags = Normal b.
Proof.
  induction 1 as [|v fmTags [tag ->] _ IH]; [by exists false|].
  cbn [frontmatterLoop]. destruct (tagMatches _ _); [by exists true|done].
Qed.

Lemma hasTag_strings (cache : option CachedMetadata) (tagPattern : string) :
  stringTags cache → ∃ b, hasTag cache tagPattern = Normal b.
Proof.
  intros Hstrings. unfold hasTag. destruct cache as [c|]; [|by exists false].
  cbv zeta. destruct (existsb _ _); [by exists true|].
  destruct (frontmatter c) as [fm|] eqn:Hfm; [|by exists false].
  apply frontmatterLoop_strings. by apply (Hstrings c fm).
Qed.

Lemma getStyleFromRules_strings (rules : list StyleRule.t) (nodeId : string) :
  stringTags (host nodeId) → ∃ ruleStyle, getStyleFromRules host rules nodeId = Normal ruleStyle.
Proof.
  intros Hstrings. rewrite getStyleFromRules_loop.
  induction rules as [|rule rules IH]; [by eexists|].
  rewrite rulesLoop_cons.
  assert (∃ b, applies host nodeId rule = Normal b) as [b ->].
  { unfold applies, ruleMatches. repeat case_match; try by eexists.
    by apply hasTag_strings. }
  destruct b; [by eexists|done].
Qed.

Lemma foldl_styleNode_rules_throw (entries : list (string * option nodeDesc)) caches k node :
  (k, node) ∈ entries →
  getStyleFromRules host (Settings.rules settings) k = TypeError →
  foldl (styleNode host settings activeNodeId neighborsByHop allConnected)
    caches entries = TypeError.
Proof.
  intros Hin Hthrow. revert caches Hin.
  induction entries as [|e entries IH]; intros caches; [by intros ?%elem_of_nil|].
  intros [<-|Hin]%elem_of_cons; cbn [foldl]; [|by apply IH].
  assert (styleNode host settings activeNodeId neighborsByHop allConnected
            caches (k, node) = TypeError) as ->.
  { unfold styleNode. destruct caches as [[styles levels]|]; [|done]. simpl.
    by rewrite Hthrow. }
  apply foldl_styleNode_thrown.
Qed.

Lemma frontmatterLoop_throws (normalizedPattern : string)
    (before after : list yamlValue) (truthy : bool) :
  Forall (λ v, ∃ tag, v = YamlString tag
                 ∧ tagMatches normalizedPattern (normalizeTag tag) = false) before →
  frontmatterLoop normalizedPattern (before ++ YamlOther truthy :: after) = TypeError.
Proof.
  induction 1 as [|v before (tag & -> & Hno) _ IH]; [done|].
  rewrite <- app_comm_cons. cbn [frontmatterLoop]. by rewrite Hno.
Qed.

Lemma foldl_styleNode_Normal (entries : list (string * option nodeDesc))
    (first : string) styles levels :
  Settings.hopColors settings !! 0%nat = Some first →
  Forall (λ e, is_Some e.2) entries →
  Forall (λ e, stringTags (host e.1)) entries →
  ∃ styles' levels',
    foldl (styleNode host settings activeNodeId neighborsByHop allConnected)
      (Normal (styles, levels)) entries = Normal (styles', levels')
    ∧ dom styles' = dom styles ∪ list_to_set entries.*1
    ∧ dom levels' = dom levels ∪ list_to_set entries.*1
    ∧ (∀ k, k ∉ entries.*1 → styles' !! k = styles !! k ∧ levels' !! k = levels !! k)
    ∧ (∀ k, k ∈ entries.*1 →
         levels' !! k
         = Some (hopLevelOf settings activeNodeId neighborsByHop allConnected k)).
Proof.
  intros Hfirst Hnodes Hstrings. revert styles levels.
  induction Hnodes as [|e entries [node Hnode] _ IH]; intros styles levels.
  - exists styles, levels. split_and!; [done|set_solver|set_solver|done|].
    intros k Hk. by apply elem_of_nil in Hk.
  - apply Forall_cons in Hstrings as [Hstring Hstrings]. specialize (IH Hstrings).
    destruct (getStyleFromRules_strings (Settings.rules settings) e.1 Hstring)
      as [ruleStyle Hrules].
    destruct (resolveNodeStyle_hop_color_fallback settings activeNodeId e.1
                (hopLevelOf settings activeNodeId neighborsByHop allConnected e.1)
                ruleStyle first Hfirst)
      as [st Hst].
    cbn [foldl].
    assert (styleNode host settings activeNodeId neighborsByHop allConnected
              (Normal (styles, levels)) e
            = Normal (<[e.1 := st]> styles,
                      <[e.1 := hopLevelOf settings activeNodeId neighborsByHop
                                 allConnected e.1]> levels)) as ->.
    { unfold styleNode. cbv zeta. by rewrite Hrules, Hst, Hnode. }
    destruct (IH (<[e.1 := st]> styles)
                (<[e.1 := hopLevelOf settings activeNodeId neighborsByHop
                           allConnected e.1]> levels))
      as (styles' & levels' & Heq & Hds & Hdl & Hkeep & Hlevels).
    exists styles', levels'. split_and!.
    + done.
    + rewrite Hds, dom_insert_L. set_solver.
    + rewrite Hdl, dom_insert_L. set_solver.
    + intros k Hk. apply not_elem_of_cons in Hk as [Hne Hk].
      destruct (Hkeep k Hk) as [-> ->]. by rewrite !lookup_insert_ne.
    + intros k Hk. destruct (decide (k ∈ entries.*1)) as [Hin|Hout]; [by apply Hlevels|].
      apply elem_of_cons in Hk as [->|?]; [|done].
      destruct (Hkeep e.1 Hout) as [_ ->]. apply lookup_insert_eq.
Qed.

End node_pass.

Section whole_pass.
Variable host : Host.
Variable settings : Settings.t.
Variable st : state.
Variable activeFile : option string.
Variable nodes : nodeCollection.
Variable links : list link.

(** The searches [applyStyles] runs always return. *)
Lemma applyStyles_searches (adj : gmap string (list string)) (activeNodeId : option string) :
  ∃ neighborsByHop allConnected,
    (if JS.truthyStr activeNodeId then
       neighborsByHop ← findNeighborsByHop adj (default "" activeNodeId)
                          (Settings.maxHops settings);
       allConnected ← getAllConnectedNodes adj (default "" activeNodeId);
       Some (neighborsByHop, allConnected)
     else Some (∅, ∅)) = Some (neighborsByHop, allConnected).
Proof.
  destruct (JS.truthyStr activeNodeId); [|by exists ∅, ∅].
  destruct (findNeighborsByHop_spec adj (default "" activeNodeId)
              (Settings.maxHops settings)) as (neighborsByHop & Hhops & _).
  destruct (getAllConnectedNodes_spec adj (default "" activeNodeId))
    as (allConnected & Hconn & _).
  exists neighborsByHop, allConnected. rewrite Hhops. simpl.
  by rewrite Hconn.
Qed.

(** X13.  With styling enabled, a first hop colour configured, no
    [null] node in the collection and only strings among the
    front-matter tags of the nodes' files, a pass of [applyStyles]
    completes: it caches a hop level for exactly the nodes of the collection, each
    one [-1], [0], in [1..maxHops] or [maxHops + 1]; it caches a style
    for each of them and keeps the cached styles of identifiers no
    longer in the collection; and it caches one style per link. *)
Theorem applyStyles_completes (first : string)
    (Henabled : Settings.enabled settings = true)
    (Hfirst : Settings.hopColors settings !! 0%nat = Some first)
    (Hnodes : Forall (λ e, is_Some e.2) (nodeEntries nodes))
    (Hstrings : Forall (λ e, stringTags (host e.1)) (nodeEntries nodes)) :
  ∃ st',
    applyStyles host settings st activeFile nodes links = Some (Normal st')
    ∧ dom (nodeHopLevels st') = list_to_set (nodeEntries nodes).*1
    ∧ dom (nodeStyles st') = dom (nodeStyles st) ∪ list_to_set (nodeEntries nodes).*1
    ∧ (∀ k, k ∉ (nodeEntries nodes).*1 → nodeStyles st' !! k = nodeStyles st !! k)
    ∧ (∀ k level, nodeHopLevels st' !! k = Some level →
         level = -1 ∨ level = 0 ∨ 1 ≤ level ≤ Settings.maxHops settings
         ∨ level = Settings.maxHops settings + 1)
    ∧ length (edgeStyles st') = length links.
Proof.
  unfold applyStyles. rewrite Henabled. cbn [negb]. cbv zeta.
  set (activeNodeId := match activeFile with
                       | Some path => Some path
                       | None => if JS.truthyStr (lastActiveNodeId st)
                                 then lastActiveNodeId st else None
                       end).
  destruct (applyStyles_searches (buildFromNodes nodes) activeNodeId)
    as (neighborsByHop & allConnected & ->). cbn [mbind option_bind].
  destruct (foldl_styleNode_Normal host settings activeNodeId neighborsByHop
              allConnected (nodeEntries nodes) first (nodeStyles st) ∅ Hfirst Hnodes
              Hstrings)
    as (styles' & levels' & -> & Hds & Hdl & Hkeep & Hlevels).
  eexists. split; [done|]. simpl. split_and!.
  - rewrite Hdl, dom_empty_L. set_solver.
  - done.
  - intros k Hk. by destruct (Hkeep k Hk).
  - intros k level Hlevel.
    destruct (decide (k ∈ (nodeEntries nodes).*1)) as [Hin|Hout].
    + rewrite (Hlevels k Hin) in Hlevel. injection Hlevel as <-.
      apply hopLevelOf_values.
    + destruct (Hkeep k Hout) as [_ Hl]. rewrite Hl, lookup_empty in Hlevel. done.
  - apply length_fmap.
Qed.

(** X14.  What [buildFromNodes] tolerates, [applyStyles] does not: a
    [null] node in the collection (a map or record value; arrays are
    filtered) makes the pass fail with a [TypeError], that of
    [node.circle] at the latest, whether styling is enabled or the pass
    only clears the styles. *)
Theorem applyStyles_null_node_throws (k : string)
    (Hnull : (k, None) ∈ nodeEntries nodes) :
  applyStyles host settings st activeFile nodes links = Some TypeError.
Proof.
  unfold applyStyles. destruct (Settings.enabled settings); cbn [negb].
  - cbv zeta.
    set (activeNodeId := match activeFile with
                         | Some path => Some path
                         | None => if JS.truthyStr (lastActiveNodeId st)
                                   then lastActiveNodeId st else None
                         end).
    destruct (applyStyles_searches (buildFromNodes nodes) activeNodeId)
      as (neighborsByHop & allConnected & ->). cbn [mbind option_bind].
    by rewrite (foldl_styleNode_null host settings activeNodeId neighborsByHop
                  allConnected (nodeEntries nodes) _ k Hnull).
  - destruct (forallb _ _) eqn:Hall; [|done].
    rewrite forallb_forall in Hall. apply list_elem_of_In in Hnull.
    specialize (Hall _ Hnull). apply bool_decide_eq_true in Hall as [? [=]].
Qed.

(** X26.  A front-matter tag that is no string (a number, say) makes
    the pass fail: with styling enabled, when the rules reach an enabled
    tag rule for the file of some node of the collection, none of the
    file's inline tags matches it, and a value that is no string stands
    among the front-matter tags before any that matches, [applyStyles]
    throws the [TypeError] of [tag.startsWith]. *)
Theorem applyStyles_frontmatter_tag_throws
    (k : string) (node : option nodeDesc) (cache : CachedMetadata)
    (fm : frontmatterTags) (pre post : list StyleRule.t) (rule : StyleRule.t)
    (before after : list yamlValue) (truthy : bool)
    (Henabled : Settings.enabled settings = true)
    (Hentry : (k, node) ∈ nodeEntries nodes)
    (Hrules : Settings.rules settings = pre ++ rule :: post)
    (Hpre : Forall (λ r, applies host k r = Normal false) pre)
    (Hon : StyleRule.enabled rule = true)
    (Htag : StyleRule.type rule = "tag")
    (Hcache : host k = Some cache)
    (Hinline : Forall (λ tag, tagMatches (normalizeTag (StyleRule.pattern rule)) tag = false)
                 (default [] (tags cache)))
    (Hfm : frontmatter cache = Some fm)
    (Hlist : frontmatterList fm = before ++ YamlOther truthy :: after)
    (Hbefore : Forall (λ v, ∃ tag, v = YamlString tag
                   ∧ tagMatches (normalizeTag (StyleRule.pattern rule))
                       (normalizeTag tag) = false) before) :
  applyStyles host settings st activeFile nodes links = Some TypeError.
Proof.
  assert (getStyleFromRules host (Settings.rules settings) k = TypeError) as Hthrow.
  { rewrite Hrules, getStyleFromRules_loop, rulesLoop_skip, rulesLoop_cons by done.
    unfold applies, ruleMatches. rewrite Hon, Htag, Hcache. simpl.
    unfold hasTag. cbv zeta.
    assert (existsb (tagMatches (normalizeTag (StyleRule.pattern rule)))
              (default [] (tags cache)) = false) as ->.
    { induction Hinline as [|tag inline Htagged _ IH]; [done|].
      simpl. by rewrite Htagged, IH. }
    rewrite Hfm. simpl. by rewrite Hlist, frontmatterLoop_throws. }
  unfold applyStyles. rewrite Henabled. cbn [negb]. cbv zeta.
  set (activeNodeId := match activeFile with
                       | Some path => Some path
                       | None => if JS.truthyStr (lastActiveNodeId st)
                                 then lastActiveNodeId st else None
                       end).
  destruct (applyStyles_searches (buildFromNodes nodes) activeNodeId)
    as (neighborsByHop & allConnected & ->). cbn [mbind option_bind].
  by rewrite (foldl_styleNode_rules_throw host settings activeNodeId neighborsByHop
                allConnected (nodeEntries nodes) _ k node Hentry Hthrow).
Qed.

End whole_pass.

(** X13 on Scenario B with the default settings and active file [A]. *)
Lemma applyStyles_completes_witness :
  ∃ st',
    applyStyles noHost DEFAULT_SETTINGS initialState (Some "A") twoPairs [] = Some (Normal st')
    ∧ dom (nodeHopLevels st') = list_to_set (nodeEntries twoPairs).*1
    ∧ dom (nodeStyles st') = dom (nodeStyles initialState) ∪ list_to_set (nodeEntries twoPairs).*1
    ∧ (∀ k, k ∉ (nodeEntries twoPairs).*1 →
         nodeStyles st' !! k = nodeStyles initialState !! k)
    ∧ (∀ k level, nodeHopLevels st' !! k = Some level →
         level = -1 ∨ level = 0 ∨ 1 ≤ level ≤ Settings.maxHops DEFAULT_SETTINGS
         ∨ level = Settings.maxHops DEFAULT_SETTINGS + 1)
    ∧ length (edgeStyles st') = length ([] : list link).
Proof.
  apply (applyStyles_completes noHost DEFAULT_SETTINGS initialState (Some "A") twoPairs
           [] "#4ECDC4"); [reflexivity|reflexivity| |].
  - repeat constructor; by eexists.
  - repeat constructor; by intros c fm [=].
Defined.

(** X14 on an instance: a map with a [null] value for the key [B]. *)
Lemma applyStyles_null_node_throws_witness :
  applyStyles noHost DEFAULT_SETTINGS initialState (Some "A")
    (NodesMap [("A", plainNode "A" ["B"]); ("B", None)]) [] = Some TypeError.
Proof.
  apply (applyStyles_null_node_throws noHost DEFAULT_SETTINGS initialState (Some "A")
           (NodesMap [("A", plainNode "A" ["B"]); ("B", None)]) [] "B").
  simpl. apply list_elem_of_further, list_elem_of_here.
Defined.

(** X26 on Scenario B: the rule for the tag [todo], and the file [B]
    with the front matter [tags: [2024]]. *)
Lemma applyStyles_frontmatter_tag_throws_witness :
  applyStyles numberTagHost tagRuleSettings initialState (Some "A") twoPairs []
  = Some TypeError.
Proof.
  apply (applyStyles_frontmatter_tag_throws numberTagHost tagRuleSettings initialState
           (Some "A") twoPairs [] "B" (plainNode "B" [])
           {| tags := None; frontmatter := Some (FmArray [YamlOther true]) |}
           (FmArray [YamlOther true]) []
           [] {| StyleRule.id := "t"; StyleRule.type := "tag"; StyleRule.pattern := "todo";
                 StyleRule.color := Some "#112233"; StyleRule.shape := None;
                 StyleRule.size := None; StyleRule.enabled := true |}
           [] [] true);
    try reflexivity; try by constructor.
  simpl. apply list_elem_of_further, list_elem_of_here.
Defined.

(** X15.  A pass remembers its active file: after a pass that ran
    enabled with the active file [path], a later pass with no active
    file (whatever the settings, nodes and links then are) gives what it
    would give with [path] active. *)
Theorem applyStyles_keeps_last_active
    (host : Host) (settings settings' : Settings.t) (st st1 : state) (path : string)
    (nodes nodes' : nodeCollection) (links links' : list link)
    (Henabled : Settings.enabled settings = true)
    (Hpath : path ≠ "")
    (Hfirst : applyStyles host settings st (Some path) nodes links = Some (Normal st1)) :
  lastActiveNodeId st1 = Some path
  ∧ applyStyles host settings' st1 None nodes' links'
    = applyStyles host settings' st1 (Some path) nodes' links'.
Proof.
  assert (lastActiveNodeId st1 = Some path) as Hlast.
  { unfold applyStyles in Hfirst. rewrite Henabled in Hfirst.
    cbn [negb] in Hfirst. cbv zeta in Hfirst.
    destruct (applyStyles_searches settings (buildFromNodes nodes) (Some path))
      as (neighborsByHop & allConnected & Hsearch).
    rewrite Hsearch in Hfirst. cbn [mbind option_bind] in Hfirst.
    destruct (foldl _ _ _) as [[styles levels]|]; [|done].
    by simplify_eq. }
  split; [done|]. unfold applyStyles. rewrite Hlast.
  pose proof (truthyStr_Some path Hpath) as Htruthy.
  rewrite Htruthy. cbv beta iota zeta. by rewrite ?Htruthy.
Qed.

(** X15 on Scenario B: a pass with active file [A], then a pass with no
    active file. *)
Lemma applyStyles_keeps_last_active_witness :
  ∃ st1, applyStyles noHost DEFAULT_SETTINGS initialState (Some "A") twoPairs []
           = Some (Normal st1)
    ∧ lastActiveNodeId st1 = Some "A"
    ∧ applyStyles noHost DEFAULT_SETTINGS st1 None chainABCD []
      = applyStyles noHost DEFAULT_SETTINGS st1 (Some "A") chainABCD [].
Proof.
  destruct (applyStyles noHost DEFAULT_SETTINGS initialState (Some "A") twoPairs [])
    as [[st1|]|] eqn:Hpass; [|by vm_compute in Hpass..].
  exists st1. split; [reflexivity|].
  exact (applyStyles_keeps_last_active noHost DEFAULT_SETTINGS DEFAULT_SETTINGS
           initialState st1 "A" twoPairs chainABCD [] [] eq_refl
           ltac:(discriminate) Hpass).
Defined.

(* ===================================================================== *)
(** ** Further properties of the rule matcher *)
(* ===================================================================== *)

Lemma string_app_assoc (a b c : string) : (a +:+ b) +:+ c = a +:+ (b +:+ c).
Proof.
  induction a as [|x a IH]; [done|].
  change (String x ((a +:+ b) +:+ c) = String x (a +:+ (b +:+ c))). by rewrite IH.
Qed.

Lemma normalizeTag_hash (p : string) : normalizeTag ("#" +:+ p) = "#" +:+ p.
Proof. unfold normalizeTag, JS.startsWith. simpl. by rewrite prefix_empty. Qed.

Lemma normalizeTag_plain (p : string) :
  JS.startsWith p "#" = false → normalizeTag p = "#" +:+ p.
Proof. intros Hp. unfold normalizeTag. by rewrite Hp. Qed.

Lemma hasTag_normalized (cache : option CachedMetadata) (p q : string) :
  normalizeTag p = normalizeTag q → hasTag cache p = hasTag cache q.
Proof. intros Hpq. unfold hasTag. destruct cache; [|done]. by rewrite Hpq. Qed.

(** X16.  A tag pattern matches the same files with or without its
    leading [#], so the [#] the rule editor adds to a tag pattern on
    [Save] never changes what the rule matches; and a pattern matches
    every tag nested under it: the inline tag [#pattern/child] has the
    tag [pattern]. *)
Theorem tag_pattern_hash_insensitive :
  (∀ cache p, JS.startsWith p "#" = false → hasTag cache ("#" +:+ p) = hasTag cache p)
  ∧ (∀ rule rule' cache nodeId,
       saveRule rule = Some rule' →
       ruleMatches cache nodeId rule' = ruleMatches cache nodeId rule
       ∧ StyleRule.pattern rule' ≠ ""
       ∧ (StyleRule.type rule' = "tag" → JS.startsWith (StyleRule.pattern rule') "#" = true))
  ∧ (∀ inline fm p child,
       hasTag (Some {| tags := Some ((normalizeTag p +:+ "/" +:+ child) :: inline);
                       frontmatter := fm |}) p = Normal true).
Proof.
  split_and!.
  - intros cache p Hp. apply hasTag_normalized.
    by rewrite normalizeTag_hash, normalizeTag_plain.
  - intros rule rule' cache nodeId. unfold saveRule.
    destruct (String.eqb (StyleRule.pattern rule) "") eqn:Hempty; [done|].
    apply String.eqb_neq in Hempty.
    destruct (String.eqb (StyleRule.type rule) "tag") eqn:Htype; simpl.
    + destruct (JS.startsWith (StyleRule.pattern rule) "#") eqn:Hhash; simpl;
        intros [= <-].
      * by split_and!.
      * split_and!; [|done|].
        -- unfold ruleMatches. simpl. apply String.eqb_eq in Htype. rewrite Htype. simpl.
           apply hasTag_normalized.
           by rewrite normalizeTag_hash, normalizeTag_plain.
        -- intros _. simpl. unfold JS.startsWith. simpl. apply prefix_empty.
    + intros [= <-]. split_and!; [done|done|].
      intros Htag. rewrite Htag in Htype. done.
  - intros inline fm p child. unfold hasTag. simpl.
    assert (tagMatches (normalizeTag p) (normalizeTag p +:+ "/" +:+ child) = true) as ->;
      [|done].
    unfold tagMatches. apply orb_true_iff. right.
    apply startsWith_spec. exists child.
    by rewrite string_app_assoc.
Qed.

(** X16 on instances: the pattern [project] and the pattern [#project]. *)
Lemma tag_pattern_hash_insensitive_witness :
  hasTag (Some {| tags := Some ["#project/alpha"]; frontmatter := None |}) "#project"
  = hasTag (Some {| tags := Some ["#project/alpha"]; frontmatter := None |}) "project".
Proof.
  exact (proj1 tag_pattern_hash_insensitive
           (Some {| tags := Some ["#project/alpha"]; frontmatter := None |})
           "project" eq_refl).
Defined.

(** X17.  Rules that cannot match are passed over: a rule of a kind
    other than [folder], [tag] and [file] matches no node, and a tag rule
    matches no node for which the host has no file cache; a rule list
    made of such rules gives no override. *)
Theorem unmatched_rules_give_no_override (host : Host) (nodeId : string) :
  (∀ rule, ¬ knownKind rule → ruleMatches (host nodeId) nodeId rule = Normal false)
  ∧ (∀ rule, StyleRule.type rule = "tag" → host nodeId = None →
       ruleMatches (host nodeId) nodeId rule = Normal false)
  ∧ (∀ rules,
       Forall (λ rule, ¬ knownKind rule
                       ∨ (StyleRule.type rule = "tag" ∧ host nodeId = None)) rules →
       getStyleFromRules host rules nodeId = Normal None).
Proof.
  assert (∀ rule, ¬ knownKind rule → ruleMatches (host nodeId) nodeId rule = Normal false)
    as Hunknown.
  { intros rule Hkind. unfold ruleMatches, knownKind in *.
    destruct (String.eqb (StyleRule.type rule) "folder") eqn:H1;
      [apply String.eqb_eq in H1; tauto|].
    destruct (String.eqb (StyleRule.type rule) "tag") eqn:H2;
      [apply String.eqb_eq in H2; tauto|].
    destruct (String.eqb (StyleRule.type rule) "file") eqn:H3;
      [apply String.eqb_eq in H3; tauto|done]. }
  assert (∀ rule, StyleRule.type rule = "tag" → host nodeId = None →
            ruleMatches (host nodeId) nodeId rule = Normal false) as Htag.
  { intros rule Htype Hnone. unfold ruleMatches. by rewrite Htype, Hnone. }
  split_and!; [done|done|].
  intros rules Hrules. rewrite getStyleFromRules_loop. apply rulesLoop_None.
  eapply Forall_impl; [done|]. intros rule Hrule. unfold applies.
  destruct (StyleRule.enabled rule); [|done]. destruct Hrule as [?|[? ?]]; auto.
Qed.

(** X17 on an instance: a rule of the kind [regex]. *)
Lemma unmatched_rules_give_no_override_witness :
  getStyleFromRules noHost
    [{| StyleRule.id := "r"; StyleRule.type := "regex"; StyleRule.pattern := "";
        StyleRule.color := Some "#112233"; StyleRule.shape := None;
        StyleRule.size := None; StyleRule.enabled := true |};
     {| StyleRule.id := "t"; StyleRule.type := "tag"; StyleRule.pattern := "todo";
        StyleRule.color := Some "#112233"; StyleRule.shape := None;
        StyleRule.size := None; StyleRule.enabled := true |}] "Note.md" = Normal None.
Proof.
  apply (proj2 (proj2 (unmatched_rules_give_no_override noHost "Note.md"))).
  constructor; [|constructor; [|constructor]].
  - left. unfold knownKind. simpl. intros [?|[?|?]]; discriminate.
  - right. done.
Defined.

(* ===================================================================== *)
(** ** Hexadecimal colours *)
(* ===================================================================== *)

Lemma roundToDouble_range (m k : Z) :
  0 ≤ m < 2 ^ k → 0 ≤ k → 0 ≤ JS.roundToDouble m ≤ 2 ^ k.
Proof.
  intros Hm Hk. destruct (decide (m < 2 ^ 53)) as [Hsmall|Hlarge].
  { rewrite roundToDouble_small by done. lia. }
  destruct (roundToDouble_large m) as (e & P & q & r & He & HP & _ & Hmqr & Hr & Hq & ->);
    [lia|].
  assert (0 < P) by (subst P; apply Z.pow_pos_nonneg; lia).
  assert (2 ^ 53 * P ≤ 2 ^ k).
  { subst P. rewrite <- Z.pow_add_r by lia. apply Z.pow_le_mono_r; [lia|].
    assert (2 ^ (52 + e) < 2 ^ k) as Hlt by (rewrite Z.pow_add_r by lia; nia).
    apply Z.pow_lt_mono_r_iff in Hlt; lia. }
  destruct (_ || _); nia.
Qed.

Lemma parseColor_numeral (rest : string) :
  allHex rest = true → rest ≠ "" →
  parseColor ("#" +:+ rest) = JS.toNumber false (numeralValue rest).
Proof.
  intros Hhex Hne. rewrite parseColor_hash.
  rewrite <- (string_app_nil_r rest) at 1. apply parseInt16_numeral; try done.
  intros [_ [[? [=]]|[? [=]]]].
Qed.

(** X18.  A colour written as [#] followed by hexadecimal digits only
    (at least one) never parses to [NaN].  With at most 13 digits the
    result is exactly the integer the digits write, below [16 ^ n] for
    [n] digits; a six-digit colour gives a tint of at most [0xFFFFFF].
    A longer numeral is rounded to a double: the result is an integer of
    at most [16 ^ n] (which it can reach), or [Infinity]. *)
Theorem parseColor_hex_range (rest : string) :
  allHex rest = true → rest ≠ "" →
  (parseColor ("#" +:+ rest) = JS.Infinity
   ∨ ∃ v, parseColor ("#" +:+ rest) = JS.Num v
          ∧ 0 ≤ v ≤ 16 ^ Z.of_nat (String.length rest))
  ∧ ((String.length rest ≤ 13)%nat →
       parseColor ("#" +:+ rest) = JS.Num (numeralValue rest)
       ∧ 0 ≤ numeralValue rest < 16 ^ Z.of_nat (String.length rest))
  ∧ (String.length rest = 6%nat →
       parseColor ("#" +:+ rest) = JS.Num (numeralValue rest)
       ∧ 0 ≤ numeralValue rest ≤ 16777215).
Proof.
  intros Hhex Hne. rewrite parseColor_numeral by done.
  pose proof (numeralValue_nonneg rest) as Hnonneg.
  pose proof (numeralValue_bound rest Hhex) as Hbound.
  split_and!.
  - unfold JS.toNumber. destruct (Z.eqb_spec (numeralValue rest) 0) as [Hzero|Hpos].
    { right. exists 0. split; [done|]. lia. }
    cbv zeta. destruct (Z.ltb_spec (JS.roundToDouble (numeralValue rest)) (2 ^ 1024));
      [right|by left].
    eexists. split; [done|].
    replace (16 ^ Z.of_nat (String.length rest))
      with (2 ^ (4 * Z.of_nat (String.length rest))) in *
      by (by rewrite Z.pow_mul_r by lia).
    apply roundToDouble_range; lia.
  - intros Hlen. split; [|lia].
    apply toNumber_exact. by apply numeral_exact.
  - intros Hlen. split.
    + apply toNumber_exact. apply numeral_exact; [done|lia].
    + rewrite Hlen in Hbound. change (16 ^ Z.of_nat 6) with 16777216 in Hbound. lia.
Qed.

(** X18 on an instance: the default colour of the active node. *)
Lemma parseColor_hex_range_witness :
  parseColor "#FF6B6B" = JS.Num 16739179.
Proof.
  exact (proj1 (proj2 (proj2 (parseColor_hex_range "FF6B6B" eq_refl
                                ltac:(discriminate))) eq_refl)).
Defined.

(* ===================================================================== *)
(** ** Folder and file rules *)
(* ===================================================================== *)

Lemma string_length_app (a b : string) :
  String.length (a +:+ b) = (String.length a + String.length b)%nat.
Proof.
  induction a as [|c a IH]; [done|]. rewrite string_app_cons. simpl. by rewrite IH.
Qed.

Lemma substring_all (s : string) : String.substring 0 (String.length s) s = s.
Proof. induction s as [|c s IH]; [done|]. simpl. by rewrite IH. Qed.

Lemma substring_app_r (pre p : string) :
  String.substring (String.length pre) (String.length p) (pre +:+ p) = p.
Proof.
  induction pre as [|c pre IH]; [apply substring_all|].
  rewrite string_app_cons. simpl. apply IH.
Qed.

Lemma substring_split (s : string) (m : nat) :
  (m ≤ String.length s)%nat →
  s = String.substring 0 m s +:+ String.substring m (String.length s - m) s.
Proof.
  revert m. induction s as [|c s IH]; intros m Hm.
  - simpl in Hm. assert (m = 0%nat) as -> by lia. done.
  - destruct m as [|m].
    + change (String c s
              = "" +:+ String.substring 0 (String.length (String c s)) (String c s)).
      by rewrite substring_all.
    + simpl in Hm. simpl. rewrite string_app_cons. f_equal. apply IH. lia.
Qed.

Lemma endsWith_spec (s p : string) :
  JS.endsWith s p = true ↔ ∃ pre, s = pre +:+ p.
Proof.
  unfold JS.endsWith. cbv zeta. rewrite andb_true_iff, Nat.leb_le, String.eqb_eq.
  split.
  - intros [Hle Hsub]. exists (String.substring 0 (String.length s - String.length p) s).
    etrans; [apply (substring_split s (String.length s - String.length p)); lia|].
    f_equal.
    by replace (String.length s - (String.length s - String.length p))%nat
      with (String.length p) by lia.
  - intros [pre ->]. rewrite string_length_app. split; [lia|].
    replace (String.length pre + String.length p - String.length p)%nat
      with (String.length pre) by lia.
    apply substring_app_r.
Qed.

(** X19.  Folder and file rules look at the node id only, never at the
    host's metadata.  A folder rule matches exactly the ids that begin
    with its pattern (whether or not the pattern ends a path segment).
    A file rule matches exactly the ids that are the pattern or end
    with [/] and the pattern, in both cases with or without the
    extension [.md]. *)
Theorem path_rules_match_by_id
    (cache : option CachedMetadata) (nodeId : string) (rule : StyleRule.t) :
  (StyleRule.type rule = "folder" →
     (ruleMatches cache nodeId rule = Normal true
      ↔ ∃ rest, nodeId = StyleRule.pattern rule +:+ rest))
  ∧ (StyleRule.type rule = "file" →
     (ruleMatches cache nodeId rule = Normal true
      ↔ nodeId = StyleRule.pattern rule
        ∨ nodeId = StyleRule.pattern rule +:+ ".md"
        ∨ (∃ dir, nodeId = dir +:+ "/" +:+ StyleRule.pattern rule)
        ∨ (∃ dir, nodeId = dir +:+ "/" +:+ StyleRule.pattern rule +:+ ".md"))).
Proof.
  assert (∀ b : bool, Normal b = Normal true ↔ b = true) as Hbool
    by (intros b; split; [by intros [= ->]|by intros ->]).
  split; intros Htype; unfold ruleMatches; rewrite Htype; cbv zeta; simpl;
    rewrite Hbool.
  - apply startsWith_spec.
  - rewrite !orb_true_iff, !String.eqb_eq, !endsWith_spec. tauto.
Qed.

(** X19 on an instance: the file rule [Note] and the id [dir/Note.md]. *)
Lemma path_rules_match_by_id_witness :
  ruleMatches None "dir/Note.md"
    {| StyleRule.id := "r"; StyleRule.type := "file"; StyleRule.pattern := "Note";
       StyleRule.color := None; StyleRule.shape := None; StyleRule.size := None;
       StyleRule.enabled := true |} = Normal true.
Proof.
  apply (proj2 (path_rules_match_by_id None "dir/Note.md"
                  {| StyleRule.id := "r"; StyleRule.type := "file";
                     StyleRule.pattern := "Note"; StyleRule.color := None;
                     StyleRule.shape := None; StyleRule.size := None;
                     StyleRule.enabled := true |}) eq_refl).
  right. right. right. by exists "dir".
Defined.

(* ===================================================================== *)
(** ** Loading the settings *)
(* ===================================================================== *)

Lemma padLoop_spec (defaults : list string) (fuel : nat) (colors : list string) :
  (5 ≤ length defaults)%nat → (5 ≤ length colors + fuel)%nat →
  padLoop fuel defaults colors
  = Some (colors ++ drop (length colors) (take 5 defaults)).
Proof.
  intros Hdefaults. revert colors.
  induction fuel as [|fuel IH]; intros colors Hfuel.
  - simpl. destruct (length colors <? 5)%nat eqn:Hlt; [apply Nat.ltb_lt in Hlt; lia|].
    rewrite drop_ge, app_nil_r; [done|]. rewrite length_take. lia.
  - simpl. destruct (length colors <? 5)%nat eqn:Hlt.
    + apply Nat.ltb_lt in Hlt.
      destruct (lookup_lt_is_Some_2 defaults (length colors)) as [c Hc]; [lia|].
      rewrite Hc, IH by (rewrite length_app; simpl; lia).
      rewrite length_app. simpl. rewrite <- app_assoc. simpl.
      rewrite Nat.add_1_r.
      by rewrite <- (drop_S (take 5 defaults) c (length colors))
        by (by rewrite lookup_take_lt).
    + apply Nat.ltb_ge in Hlt.
      rewrite drop_ge, app_nil_r; [done|]. rewrite length_take. lia.
Qed.

Lemma padColors_default (defaults colors : list string) :
  length defaults = 5%nat →
  padColors defaults colors = Some (colors ++ drop (length colors) defaults).
Proof.
  intros Hlen. unfold padColors. rewrite padLoop_spec by lia.
  by rewrite take_ge by lia.
Qed.

Lemma resolveNodeStyle_defined
    (settings : Settings.t) (activeNodeId : option string) (nodeId : string)
    (hopLevel : Z) (ruleStyle : option RuleStyle.t) :
  Settings.hopColors settings ≠ [] →
  resolveNodeStyle settings activeNodeId nodeId hopLevel ruleStyle ≠ TypeError.
Proof.
  intros Hcolors.
  destruct (Settings.hopColors settings) as [|first rest] eqn:Hlist; [done|].
  destruct (nodeColorAlpha_color_defined settings activeNodeId nodeId hopLevel
              ruleStyle first) as [color Hcolor]; [by rewrite Hlist|].
  unfold resolveNodeStyle.
  destruct (nodeColorAlpha settings activeNodeId nodeId hopLevel ruleStyle)
    as [[color' alpha] size]. simpl in Hcolor. by subst.
Qed.

(** X20.  [loadSettings] always finishes its two padding loops.  The
    stored hop colours and hop-edge colours are kept as they are and,
    when fewer than five, completed with the default colours of the
    missing positions, so both arrays end with at least five entries and
    arrays of five or more are left alone.  With the settings it
    returns, the style of a node never fails with the [TypeError] of
    [parseColor(undefined)]. *)
Theorem loadSettings_pads_hop_colours
    (generateId : nat → string) (merged : Settings.t)
    (tagRules : list TagRule.t) (folderRules : list FolderRule.t) :
  ∃ loaded, loadSettings generateId merged tagRules folderRules = Some loaded
    ∧ Settings.hopColors loaded
      = Settings.hopColors merged
        ++ drop (length (Settings.hopColors merged)) (Settings.hopColors DEFAULT_SETTINGS)
    ∧ Settings.hopEdgeColors loaded
      = Settings.hopEdgeColors merged
        ++ drop (length (Settings.hopEdgeColors merged))
             (Settings.hopEdgeColors DEFAULT_SETTINGS)
    ∧ (5 ≤ length (Settings.hopColors loaded))%nat
    ∧ (5 ≤ length (Settings.hopEdgeColors loaded))%nat
    ∧ ((5 ≤ length (Settings.hopColors merged))%nat →
       Settings.hopColors loaded = Settings.hopColors merged)
    ∧ (∀ activeNodeId nodeId hopLevel ruleStyle,
         resolveNodeStyle loaded activeNodeId nodeId hopLevel ruleStyle ≠ TypeError).
Proof.
  unfold loadSettings.
  rewrite !padColors_default by done. cbn [mbind option_bind].
  eexists. split; [reflexivity|]. cbn [Settings.hopColors Settings.hopEdgeColors].
  assert (∀ colors defaults : list string, length defaults = 5%nat →
            (5 ≤ length (colors ++ drop (length colors) defaults))%nat) as Hlen.
  { intros colors defaults Hdefaults. rewrite length_app, length_drop. lia. }
  split_and!; [done|done|by apply Hlen|by apply Hlen| |].
  - intros Hfive. rewrite drop_ge, app_nil_r; [done|]. simpl. lia.
  - intros activeNodeId nodeId hopLevel ruleStyle. apply resolveNodeStyle_defined.
    cbn [Settings.hopColors]. intros Hnil.
    pose proof (Hlen (Settings.hopColors merged) (Settings.hopColors DEFAULT_SETTINGS)
                  eq_refl) as Hfive.
    rewrite Hnil in Hfive. simpl in Hfive. lia.
Qed.

(* ===================================================================== *)
(** ** Migration of the legacy rules *)
(* ===================================================================== *)

Section migration.
Variable host : Host.
Variable nodeId : string.

Lemma rulesLoop_app (rules rules' : list StyleRule.t) :
  rulesLoop (host nodeId) nodeId (rules ++ rules')
  = match rulesLoop (host nodeId) nodeId rules with
    | Normal None => rulesLoop (host nodeId) nodeId rules'
    | decided => decided
    end.
Proof.
  induction rules as [|rule rules IH]; [done|].
  rewrite <- app_comm_cons, !rulesLoop_cons.
  by destruct (applies host nodeId rule) as [[]|].
Qed.

Lemma rulesLoop_migrated_folders (ids : nat → string) (folderRules : list FolderRule.t) :
  rulesLoop (host nodeId) nodeId (imap (λ i r, migrateFolderRule (ids i) r) folderRules)
  = Normal ((λ r, colourOnly (FolderRule.color r))
            <$> List.find (λ r, JS.startsWith nodeId (FolderRule.folder r)) folderRules).
Proof.
  revert ids. induction folderRules as [|r folderRules IH]; intros ids; [done|].
  rewrite imap_cons, rulesLoop_cons. unfold applies. simpl.
  unfold ruleMatches. simpl.
  destruct (JS.startsWith nodeId (FolderRule.folder r)); [done|].
  apply (IH (ids ∘ S)).
Qed.

Lemma rulesLoop_migrated_tags (ids : nat → string) (tagRules : list TagRule.t) :
  rulesLoop (host nodeId) nodeId (imap (λ i r, migrateTagRule (ids i) r) tagRules)
  = match firstTagged (host nodeId) tagRules with
    | Normal found => Normal ((λ r, colourOnly (TagRule.color r)) <$> found)
    | TypeError => TypeError
    end.
Proof.
  revert ids. induction tagRules as [|r tagRules IH]; intros ids; [done|].
  rewrite imap_cons, rulesLoop_cons. unfold applies. simpl.
  unfold ruleMatches. simpl.
  destruct (hasTag (host nodeId) (TagRule.tag r)) as [[]|]; [done| |done].
  apply (IH (ids ∘ S)).
Qed.

(** X21.  After [loadSettings] has migrated the legacy rules, the
    override of a node is decided in this order: the first legacy folder
    rule whose folder is a prefix of the node id gives its colour;
    otherwise the rules already stored decide as before (also when
    their check throws); only when none of them applies, the first
    legacy tag rule whose tag the file has gives its colour. *)
Theorem loadSettings_migration_priority
    (generateId : nat → string) (merged loaded : Settings.t)
    (tagRules : list TagRule.t) (folderRules : list FolderRule.t) :
  loadSettings generateId merged tagRules folderRules = Some loaded →
  getStyleFromRules host (Settings.rules loaded) nodeId
  = match List.find (λ r, JS.startsWith nodeId (FolderRule.folder r)) folderRules with
    | Some r => Normal (Some (colourOnly (FolderRule.color r)))
    | None =>
        match getStyleFromRules host (Settings.rules merged) nodeId with
        | Normal None =>
            match firstTagged (host nodeId) tagRules with
            | Normal found => Normal ((λ r, colourOnly (TagRule.color r)) <$> found)
            | TypeError => TypeError
            end
        | decided => decided
        end
    end.
Proof.
  unfold loadSettings. rewrite !padColors_default by done. cbn [mbind option_bind].
  intros [= <-]. cbn [Settings.rules].
  rewrite !getStyleFromRules_loop, !rulesLoop_app.
  rewrite (rulesLoop_migrated_folders (λ i, generateId (length tagRules + i)%nat)).
  rewrite (rulesLoop_migrated_tags generateId).
  by destruct (List.find _ folderRules).
Qed.

End migration.

(** X21 on an instance: settings stored without hop colours and a
    legacy folder rule for [Projects/]. *)
Lemma loadSettings_migration_priority_witness :
  ∃ loaded,
    loadSettings (λ _, "id") noHopColors []
      [{| FolderRule.folder := "Projects/"; FolderRule.color := "#445566" |}]
    = Some loaded
    ∧ getStyleFromRules noHost (Settings.rules loaded) "Projects/a.md"
      = Normal (Some (colourOnly "#445566")).
Proof.
  eexists. split; [reflexivity|].
  exact (loadSettings_migration_priority noHost "Projects/a.md" (λ _, "id")
           noHopColors _ []
           [{| FolderRule.folder := "Projects/"; FolderRule.color := "#445566" |}]
           eq_refl).
Defined.

(* ===================================================================== *)
(** ** Reordering the rules *)
(* ===================================================================== *)

(** X22.  Dropping the rule at [fromIndex] on the rule at [toIndex]
    moves it there and nothing else: the new list has the same rules,
    the moved rule sits at [toIndex], and the other rules keep their
    relative order.  A rule that applies to a node and is dropped on the
    first place decides the node's override. *)
Theorem dropRule_moves_rule
    (fromIndex toIndex : nat) (rules : list StyleRule.t) (movedRule : StyleRule.t) :
  rules !! fromIndex = Some movedRule → (toIndex < length rules)%nat →
  ∃ rules', dropRule fromIndex toIndex rules = Some rules'
    ∧ rules' ≡ₚ rules
    ∧ rules' !! toIndex = Some movedRule
    ∧ delete toIndex rules' = delete fromIndex rules
    ∧ (∀ host nodeId, toIndex = 0%nat → applies host nodeId movedRule = Normal true →
         getStyleFromRules host rules' nodeId
         = Normal (Some {| RuleStyle.color := StyleRule.color movedRule;
                           RuleStyle.shape := StyleRule.shape movedRule;
                           RuleStyle.size := StyleRule.size movedRule |})).
Proof.
  intros Hfrom Hto.
  assert (∀ rules' : list StyleRule.t, rules' !! toIndex = Some movedRule →
            ∀ host nodeId, toIndex = 0%nat → applies host nodeId movedRule = Normal true →
              getStyleFromRules host rules' nodeId = Normal (Some (styleOfRule movedRule)))
    as Hfirst.
  { intros rules' Hat host nodeId -> Happlies.
    destruct rules' as [|rule rest]; [done|]. injection Hat as ->.
    by rewrite getStyleFromRules_loop, rulesLoop_cons, Happlies. }
  unfold dropRule. destruct (fromIndex =? toIndex)%nat eqn:Hsame.
  - apply Nat.eqb_eq in Hsame as <-. exists rules. split_and!; eauto.
  - rewrite Hfrom. cbv zeta. eexists. split; [reflexivity|].
    assert (length (delete fromIndex rules) = (length rules - 1)%nat) as Hlen
      by (by apply length_delete).
    assert (length (take toIndex (delete fromIndex rules)) = toIndex) as Htake
      by (rewrite length_take; lia).
    assert ((take toIndex (delete fromIndex rules)
             ++ movedRule :: drop toIndex (delete fromIndex rules)) !! toIndex
            = Some movedRule) as Hat.
    { rewrite lookup_app_r by lia. by rewrite Htake, Nat.sub_diag. }
    split_and!; [| done | | by apply Hfirst].
    + rewrite <- Permutation_middle, take_drop. symmetry.
      by apply delete_Permutation.
    + rewrite <- Htake at 1. by rewrite delete_middle, take_drop.
Qed.

(** X22 on an instance: the third of three rules dropped on the first. *)
Lemma dropRule_moves_rule_witness :
  ∃ rules',
    dropRule 2 0 [folderRule "A/" None true; folderRule "B/" None true;
                  folderRule "C/" (Some "#112233") true] = Some rules'
    ∧ rules' ≡ₚ [folderRule "A/" None true; folderRule "B/" None true;
                 folderRule "C/" (Some "#112233") true]
    ∧ rules' !! 0%nat = Some (folderRule "C/" (Some "#112233") true)
    ∧ delete 0%nat rules' = delete 2%nat [folderRule "A/" None true; folderRule "B/" None true;
                                  folderRule "C/" (Some "#112233") true]
    ∧ (∀ host nodeId, 0%nat = 0%nat →
         applies host nodeId (folderRule "C/" (Some "#112233") true) = Normal true →
         getStyleFromRules host rules' nodeId
         = Normal (Some {| RuleStyle.color := Some "#112233"; RuleStyle.shape := None;
                           RuleStyle.size := None |})).
Proof.
  apply (dropRule_moves_rule 2 0); [reflexivity|simpl; lia].
Defined.

(* ===================================================================== *)
(** ** Presets *)
(* ===================================================================== *)

Section presets.
Context {P T : Type}.
Implicit Types (st : presetState P T) (ps : list (StylePreset P)).

Lemma findIndexFrom_lookup {A} (f : A → bool) (l : list A) (base : Z) (i : nat) (x : A) :
  l !! i = Some x → f x = true →
  (∀ j y, (j < i)%nat → l !! j = Some y → f y = false) →
  findIndexFrom f base l = base + Z.of_nat i ∧ List.find f l = Some x.
Proof.
  revert base i. induction l as [|a l IH]; intros base i Hat Hfx Hbefore; [done|].
  destruct i as [|i]; simpl in *.
  - injection Hat as ->. rewrite Hfx. split; [lia|done].
  - rewrite (Hbefore 0%nat a) by (done || lia).
    destruct (IH (base + 1) i Hat Hfx) as [-> ->]; [|split; [lia|done]].
    intros j y Hj Hy. apply (Hbefore (S j)); [lia|done].
Qed.

Lemma findIndexFrom_none {A} (f : A → bool) (l : list A) (base : Z) :
  Forall (λ x, f x = false) l →
  findIndexFrom f base l = -1 ∧ List.find f l = None.
Proof.
  intros Hall. revert base. induction Hall as [|a l Ha _ IH]; intros base; [done|].
  simpl. rewrite Ha. apply IH.
Qed.

Lemma first_match {A} (f : A → bool) (l : list A) :
  Forall (λ x, f x = false) l
  ∨ ∃ i x, l !! i = Some x ∧ f x = true
           ∧ ∀ j y, (j < i)%nat → l !! j = Some y → f y = false.
Proof.
  induction l as [|a l IH]; [by left|].
  destruct (f a) eqn:Ha.
  - right. exists 0%nat, a. split_and!; [done|done|]. intros j y Hj. lia.
  - destruct IH as [Hall|(i & x & Hat & Hfx & Hbefore)].
    + left. by constructor.
    + right. exists (S i), x. split_and!; [done|done|].
      intros [|j] y Hj Hy; simpl in Hy; [by injection Hy as <-|].
      apply (Hbefore j); [lia|done].
Qed.

Lemma names_differ ps (i j : nat) (p q : StylePreset P) :
  NoDup (presetNames ps) → ps !! i = Some p → ps !! j = Some q →
  name p = name q → i = j.
Proof.
  intros Hnodup Hp Hq Hname.
  apply (NoDup_lookup (presetNames ps) i j (name p) Hnodup); unfold presetNames;
    rewrite list_lookup_fmap; [by rewrite Hp|by rewrite Hq, Hname].
Qed.

Lemma applyPreset_found (assign : T → P → T) st (i : nat) (p : StylePreset P) :
  NoDup (presetNames (presets st)) → presets st !! i = Some p →
  applyPreset assign (name p) st
  = {| current := assign (current st) (settings p); presets := presets st;
       activePreset := Some (name p) |}.
Proof.
  intros Hnodup Hp. unfold applyPreset.
  destruct (findIndexFrom_lookup (λ q, String.eqb (name q) (name p)) (presets st) 0 i p)
    as [_ ->]; [done|apply String.eqb_refl| |done].
  intros j q Hj Hq. apply String.eqb_neq. intros Hname.
  pose proof (names_differ _ _ _ _ _ Hnodup Hq Hp Hname). lia.
Qed.

Lemma savePreset_presets (presetName : string) (snapshot : P) st :
  presetName ≠ "" →
  let newPreset := {| name := presetName; settings := snapshot |} in
  ((presetName ∉ presetNames (presets st))
   ∧ presets (savePreset presetName snapshot st) = presets st ++ [newPreset])
  ∨ (∃ pre old post, presets st = pre ++ old :: post ∧ name old = presetName
       ∧ (presetName ∉ presetNames pre)
       ∧ presets (savePreset presetName snapshot st) = pre ++ newPreset :: post).
Proof.
  intros Hname newPreset. unfold savePreset.
  destruct (String.eqb presetName "") eqn:Hempty; [by apply String.eqb_eq in Hempty|].
  cbv zeta. cbn [presets].
  destruct (first_match (λ p, String.eqb (name p) presetName) (presets st))
    as [Hall|(i & old & Hat & Hold & Hbefore)].
  - left. destruct (findIndexFrom_none _ _ 0 Hall) as [Hindex _].
    unfold findIndex. rewrite Hindex. split; [|done].
    unfold presetNames. intros (p & Hp & Hin)%list_elem_of_fmap.
    rewrite Forall_forall in Hall. specialize (Hall p Hin).
    apply String.eqb_neq in Hall. done.
  - right. destruct (findIndexFrom_lookup _ _ 0 i old Hat Hold Hbefore) as [Hindex _].
    unfold findIndex. rewrite Hindex.
    replace (0 <=? 0 + Z.of_nat i) with true by (symmetry; apply Z.leb_le; lia).
    replace (Z.to_nat (0 + Z.of_nat i)) with i by lia.
    apply String.eqb_eq in Hold.
    exists (take i (presets st)), old, (drop (S i) (presets st)).
    assert (presets st = take i (presets st) ++ old :: drop (S i) (presets st)) as Hsplit.
    { by rewrite <- (take_drop_middle _ _ _ Hat) at 1. }
    split_and!; [done|done| |].
    + unfold presetNames. intros (p & Hp & Hin)%list_elem_of_fmap.
      apply list_elem_of_lookup in Hin as [j Hj].
      apply lookup_take_Some in Hj as [Hj Hlt].
      specialize (Hbefore j p Hlt Hj). apply String.eqb_neq in Hbefore. done.
    + rewrite Hsplit at 1.
      assert (length (take i (presets st)) = i) as Hlen.
      { rewrite length_take. apply lookup_lt_Some in Hat. lia. }
      rewrite <- Hlen at 1. by rewrite insert_app_r_alt, Nat.sub_diag by lia.
Qed.

(** X23.  Saving the current settings under a name and applying that
    name gives the snapshot back: [savePreset] stores the snapshot under
    the name, replacing the preset of that name if there is one and
    appending it otherwise, so that the list of names is unchanged or
    grows by the new name at the end, and [applyPreset] of the name
    merges exactly that snapshot into the current settings. *)
Theorem savePreset_then_applyPreset
    (assign : T → P → T) (presetName : string) (snapshot : P) st :
  presetName ≠ "" →
  applyPreset assign presetName (savePreset presetName snapshot st)
  = {| current := assign (current st) snapshot;
       presets := presets (savePreset presetName snapshot st);
       activePreset := Some presetName |}
  ∧ presetNames (presets (savePreset presetName snapshot st))
    = (if decide (presetName ∈ presetNames (presets st))
       then presetNames (presets st)
       else presetNames (presets st) ++ [presetName])
  ∧ activePreset (savePreset presetName snapshot st) = Some presetName
  ∧ current (savePreset presetName snapshot st) = current st.
Proof.
  intros Hname.
  assert (savePreset presetName snapshot st
          = {| current := current st;
               presets := presets (savePreset presetName snapshot st);
               activePreset := Some presetName |}) as Hsaved.
  { unfold savePreset.
    by destruct (String.eqb presetName "") eqn:Hempty;
      [apply String.eqb_eq in Hempty|]. }
  assert (List.find (λ p, String.eqb (name p) presetName)
            (presets (savePreset presetName snapshot st))
          = Some {| name := presetName; settings := snapshot |}
          ∧ presetNames (presets (savePreset presetName snapshot st))
            = (if decide (presetName ∈ presetNames (presets st))
               then presetNames (presets st)
               else presetNames (presets st) ++ [presetName])) as [Hfind Hnames].
  { destruct (savePreset_presets presetName snapshot st Hname)
      as [[Hfresh ->]|(pre & old & post & Hsplit & Hold & Hfresh & ->)].
    - split.
      + apply (findIndexFrom_lookup _ _ 0 (length (presets st))).
        * by rewrite lookup_app_r, Nat.sub_diag by lia.
        * apply String.eqb_refl.
        * intros j y Hj Hy. rewrite lookup_app_l in Hy by done.
          apply String.eqb_neq. intros <-. apply Hfresh.
          apply list_elem_of_fmap. exists y. split; [done|].
          by apply list_elem_of_lookup_2 in Hy.
      + rewrite decide_False by done. unfold presetNames. by rewrite fmap_app.
    - split.
      + apply (findIndexFrom_lookup _ _ 0 (length pre)).
        * by rewrite lookup_app_r, Nat.sub_diag by lia.
        * apply String.eqb_refl.
        * intros j y Hj Hy. rewrite lookup_app_l in Hy by done.
          apply String.eqb_neq. intros <-. apply Hfresh.
          apply list_elem_of_fmap. exists y. split; [done|].
          by apply list_elem_of_lookup_2 in Hy.
      + rewrite decide_True.
        * rewrite Hsplit. unfold presetNames. rewrite !fmap_app, !fmap_cons.
          simpl. by rewrite Hold.
        * rewrite Hsplit. unfold presetNames. rewrite fmap_app, fmap_cons, Hold.
          set_solver. }
  split_and!; [|done|by rewrite Hsaved|by rewrite Hsaved].
  unfold applyPreset. rewrite Hfind. simpl. f_equal. by rewrite Hsaved.
Qed.

(** X24.  The preset commands keep the presets consistent: as long as
    [Delete] is given the index and the name of the same preset, saving,
    deleting, applying and cycling leave the names of the presets
    pairwise different and the active preset, if any, among them; the
    name of a deleted preset is gone from the list. *)
Theorem preset_commands_keep_consistency (assign : T → P → T) st :
  presetsOk st →
  (∀ presetName snapshot, presetsOk (savePreset presetName snapshot st))
  ∧ (∀ index p, presets st !! index = Some p →
       presetsOk (deletePreset index (name p) st)
       ∧ name p ∉ presetNames (presets (deletePreset index (name p) st)))
  ∧ (∀ presetName, presetsOk (applyPreset assign presetName st))
  ∧ presetsOk (cyclePreset assign st).
Proof.
  intros [Hnodup Hactive].
  assert (∀ presetName, presetsOk (applyPreset assign presetName st)) as Happly.
  { intros presetName. unfold applyPreset.
    destruct (List.find _ (presets st)) as [p|] eqn:Hfind; [|done].
    apply find_some in Hfind as [Hin Hname%String.eqb_eq].
    split; [done|]. simpl. intros n [= <-]. rewrite <- Hname.
    apply list_elem_of_fmap. exists p. split; [done|]. by apply list_elem_of_In. }
  split_and!; [| |done|].
  - intros presetName snapshot.
    destruct (decide (presetName = "")) as [->|Hname]; [done|].
    assert (activePreset (savePreset presetName snapshot st) = Some presetName) as Hact.
    { unfold savePreset. by destruct (String.eqb presetName "") eqn:Hempty;
        [apply String.eqb_eq in Hempty|]. }
    unfold presetsOk. rewrite Hact.
    destruct (savePreset_presets presetName snapshot st Hname)
      as [[Hfresh ->]|(pre & old & post & Hsplit & Hold & Hfresh & ->)].
    + unfold presetNames in *. rewrite fmap_app. simpl. split.
      * apply NoDup_app. split_and!; [done| |apply NoDup_singleton].
        intros x Hx ->%list_elem_of_singleton. done.
      * intros n [= <-]. set_solver.
    + unfold presetNames in *. rewrite Hsplit, fmap_app, fmap_cons, Hold in Hnodup.
      rewrite fmap_app, fmap_cons. simpl. split; [done|].
      intros n [= <-]. set_solver.
  - intros index p Hp. unfold deletePreset, presetsOk, presetNames in *. simpl.
    rewrite list_fmap_delete.
    assert (name p ∉ delete index (name <$> presets st)) as Hgone.
    { assert ((name <$> presets st) !! index = Some (name p)) as Hat
        by (by rewrite list_lookup_fmap, Hp).
      pose proof (delete_Permutation _ _ _ Hat) as Hperm.
      rewrite Hperm in Hnodup. by apply NoDup_cons in Hnodup as [? _]. }
    split_and!; [|  |done].
    + eapply sublist_NoDup; [done|apply sublist_delete].
    + intros n. case_bool_decide as Hcase; [done|]. intros Hn.
      assert (n ≠ name p) as Hne by (intros ->; by rewrite Hn in Hcase).
      specialize (Hactive n Hn).
      assert ((name <$> presets st) !! index = Some (name p)) as Hat
        by (by rewrite list_lookup_fmap, Hp).
      rewrite (delete_Permutation _ _ _ Hat) in Hactive.
      set_solver.
  - unfold cyclePreset. destruct (length (presets st) =? 0)%nat; [done|].
    cbv zeta. destruct (presets st !! _); [apply Happly|done].
Qed.

(** X25.  With pairwise different preset names, [cyclePreset] steps to
    the preset after the active one and wraps around after the last:
    from the active preset at index [i] it applies the preset at index
    [(i + 1) mod n].  When no preset is active, or the active name is
    not the name of a preset, it applies the first preset; with no
    preset stored it does nothing. *)
Theorem cyclePreset_next (assign : T → P → T) st :
  NoDup (presetNames (presets st)) →
  (∀ (i : nat) p q,
     presets st !! i = Some p → activePreset st = Some (name p) →
     presets st !! ((i + 1) `mod` length (presets st))%nat = Some q →
     cyclePreset assign st
     = {| current := assign (current st) (settings q); presets := presets st;
          activePreset := Some (name q) |})
  ∧ (∀ q rest,
       presets st = q :: rest →
       (∀ n, activePreset st = Some n → n ∉ presetNames (presets st)) →
       cyclePreset assign st
       = {| current := assign (current st) (settings q); presets := presets st;
            activePreset := Some (name q) |})
  ∧ (presets st = [] → cyclePreset assign st = st).
Proof.
  intros Hnodup. split_and!.
  - intros i p q Hp Hactive Hq. unfold cyclePreset.
    pose proof (lookup_lt_Some _ _ _ Hp) as Hlt.
    destruct (length (presets st) =? 0)%nat eqn:Hzero;
      [apply Nat.eqb_eq in Hzero; lia|].
    cbv zeta.
    destruct (findIndexFrom_lookup
                (λ p', bool_decide (Some (name p') = activePreset st))
                (presets st) 0 i p) as [Hindex _];
      [done|by apply bool_decide_eq_true| |].
    { intros j y Hj Hy. apply bool_decide_eq_false. rewrite Hactive. intros [= Hname].
      pose proof (names_differ _ _ _ _ _ Hnodup Hy Hp Hname). lia. }
    unfold findIndex. rewrite Hindex.
    replace (Z.to_nat (Z.rem (0 + Z.of_nat i + 1) (Z.of_nat (length (presets st)))))
      with ((i + 1) `mod` length (presets st))%nat.
    + rewrite Hq. by apply (applyPreset_found assign st ((i + 1) `mod` length (presets st))%nat q).
    + rewrite Z.rem_mod_nonneg by lia.
      replace (0 + Z.of_nat i + 1) with (Z.of_nat (i + 1)) by lia.
      rewrite <- Nat2Z.inj_mod. lia.
  - intros q rest Hpresets Hunknown. unfold cyclePreset. rewrite Hpresets.
    cbn [length Nat.eqb]. cbv zeta. rewrite <- Hpresets.
    destruct (findIndexFrom_none
                (λ p', bool_decide (Some (name p') = activePreset st))
                (presets st) 0) as [Hindex _].
    { apply Forall_forall. intros p Hin. apply bool_decide_eq_false. intros Hname.
      apply (Hunknown (name p)); [done|].
      apply list_elem_of_fmap. by exists p. }
    unfold findIndex. rewrite Hindex.
    replace (Z.to_nat (Z.rem (-1 + 1) (Z.of_nat (length (presets st))))) with 0%nat
      by (by rewrite Z.rem_0_l by (rewrite Hpresets; simpl; lia)).
    rewrite Hpresets at 1. simpl.
    apply (applyPreset_found assign st 0 q); [done|by rewrite Hpresets].
  - intros Hnil. unfold cyclePreset. by rewrite Hnil.
Qed.

End presets.


Lemma twoPresets_ok : presetsOk twoPresets.
Proof.
  split.
  - apply NoDup_cons. split; [set_solver|]. apply NoDup_singleton.
  - intros n [= <-]. set_solver.
Qed.

(** X23 on an instance: the preset [by hop] saved again with the
    default settings and applied. *)
Lemma savePreset_then_applyPreset_witness :
  current (applyPreset (λ _ p, p) "by hop"
             (savePreset "by hop" DEFAULT_SETTINGS twoPresets))
  = DEFAULT_SETTINGS.
Proof.
  exact (f_equal current
           (proj1 (savePreset_then_applyPreset (λ _ p, p) "by hop" DEFAULT_SETTINGS
                     twoPresets ltac:(discriminate)))).
Defined.

(** X24 on an instance: deleting the active preset [by hop]. *)
Lemma preset_commands_keep_consistency_witness :
  presetsOk (deletePreset 1 "by hop" twoPresets)
  ∧ ("by hop" ∉ presetNames (presets (deletePreset 1 "by hop" twoPresets))).
Proof.
  exact (proj1 (proj2 (preset_commands_keep_consistency (λ _ p, p) twoPresets
                         twoPresets_ok))
           1%nat {| name := "by hop"; settings := byHopSettings |} eq_refl).
Defined.

(** X25 on an instance: from the last preset, [by hop], the cycle wraps
    around to the first. *)
Lemma cyclePreset_next_witness :
  cyclePreset (λ _ p, p) twoPresets
  = {| current := DEFAULT_SETTINGS; presets := presets twoPresets;
       activePreset := Some "default" |}.
Proof.
  exact (proj1 (cyclePreset_next (λ _ p, p) twoPresets (proj1 twoPresets_ok))
           1%nat {| name := "by hop"; settings := byHopSettings |}
           {| name := "default"; settings := DEFAULT_SETTINGS |}
           eq_refl eq_refl eq_refl).
Defined.
